(** * Snapshot processing for the tracez debug page

    A shallow embedding of [pkg/util/tracing/tracingui/span_registry_ui.go]
    and the properties of [ProcessSnapshot]: tag enrichment, the upward and
    downward tag propagation passes and the stitching of goroutine stacks. *)

From Stdlib Require Import ZArith String Ascii Lia.
From stdpp Require Import base option list relations sorting gmap strings.

Local Open Scope string_scope.
Local Open Scope Z_scope.
Local Open Scope list_scope.

(** ** Outcomes of a Go computation

    [Ok] is a normal return, [Panic] a run-time panic (here: a slice
    expression out of range) and [OutOfFuel] says that the loop or the
    recursion was cut after the given number of rounds.  A computation that
    is [OutOfFuel] for every amount of fuel does not return: a loop runs on
    for ever, and a recursion grows until Go stops the process with the
    fatal error of a stack overflow, which is not a panic. *)

Inductive result (A : Type) : Type :=
| Ok (a : A)
| Panic
| OutOfFuel.

Arguments Ok {A} a.
Arguments Panic {A}.
Arguments OutOfFuel {A}.

#[export] Instance result_ret : MRet result := fun A a => Ok a.
#[export] Instance result_bind : MBind result := fun A B f r =>
  match r with
  | Ok a => f a
  | Panic => Panic
  | OutOfFuel => OutOfFuel
  end.

(** A loop over a list whose body may fail: [for _, x := range l { ... }]. *)
Fixpoint foldM {A B : Type} (f : B → A → result B) (b : B) (l : list A) : result B :=
  match l with
  | [] => Ok b
  | x :: l' => b' ← f b x; foldM f b' l'
  end.

(** ** The input: recorded spans and the snapshot *)

Module tracingpb.

(** Modelled from the spec: the declaration of [tracingpb.RecordedSpan] is
    not part of the file; these are the fields the file reads.  The ids
    are [uint64], the start time is opaque, the tags are a Go map. *)
Record RecordedSpan : Type := {
  TraceID : Z;
  SpanID : Z;
  ParentSpanID : Z;
  Operation : string;
  Tags : gmap string string;
  StartTime : Z;
  GoroutineID : Z
}.

End tracingpb.

Module tracing.

(** Modelled from the spec: the declaration of [tracing.SpansSnapshot] is
    not part of the file; [Traces] is a slice of recordings (slices of
    spans) and [Stacks] maps a goroutine id ([int]) to its stack. *)
Record SpansSnapshot : Type := {
  Traces : list (list tracingpb.RecordedSpan);
  Stacks : gmap Z string
}.

End tracing.

(** ** The output *)

Record ProcessedTag : Type := {
  Key : string;
  Val : string;
  Caption : string;
  Link : string;
  Hidden : bool;
  Highlight : bool;
  Inherit : bool;
  Inherited : bool;
  PropagateUp : bool;
  CopiedFromChild : bool
}.

Record processedSpan : Type := {
  Operation : string;
  TraceID : Z;
  SpanID : Z;
  ParentSpanID : Z;
  Start : Z;
  GoroutineID : Z;
  Tags : list ProcessedTag
}.

Record ProcessedSnapshot : Type := {
  Spans : list processedSpan;
  Stacks : gmap Z string
}.

#[export] Instance ProcessedTag_eq_dec : EqDecision ProcessedTag.
Proof. solve_decision. Defined.

(** [m[k]] on a Go map of strings: the zero value when the key is absent. *)
Definition map_get (m : gmap string string) (k : string) : string :=
  default "" (m !! k).

(** [v[:n]] on a Go string: the first [n] bytes, a panic when [v] is shorter. *)
Definition slice_to (v : string) (n : nat) : result string :=
  if (String.length v <? n)%nat then Panic else Ok (substring 0 n v).

(** [int(x)] for a [uint64] [x], on a 64-bit platform. *)
Definition int_of_uint64 (x : Z) : Z :=
  (x + 2 ^ 63) `mod` 2 ^ 64 - 2 ^ 63.

Definition hiddenTags : gset string :=
  {[ "_unfinished"; "_verbose"; "_dropped"; "node"; "store" ]}.

(** ** [findTxnState] *)

Record txnState : Type := {
  found : bool;
  curQuery : string
}.

(** The inner loop [for _, s2 := range t]. *)
Fixpoint findQuery (t : list tracingpb.RecordedSpan) : txnState :=
  match t with
  | [] => {| found := true; curQuery := "" |}
  | s2 :: t' =>
      if String.eqb (tracingpb.Operation s2) "sql query"
      then {| found := true; curQuery := map_get (tracingpb.Tags s2) "statement" |}
      else findQuery t'
  end.

(** The loop [for _, s := range t]; [whole] is [t] itself, which the inner
    loop scans from its start.  [None]: the loop ended without a return. *)
Fixpoint findTxnInTrace (txnID : string) (whole t : list tracingpb.RecordedSpan)
  : option txnState :=
  match t with
  | [] => None
  | s :: t' =>
      if negb (String.eqb (tracingpb.Operation s) "sql txn")
         || negb (String.eqb (map_get (tracingpb.Tags s) "txn") txnID)
      then findTxnInTrace txnID whole t'
      else Some (findQuery whole)
  end.

Fixpoint findTxnInTraces (txnID : string) (traces : list (list tracingpb.RecordedSpan))
  : txnState :=
  match traces with
  | [] => {| found := false; curQuery := "" |}
  | t :: traces' =>
      match findTxnInTrace txnID t t with
      | Some st => st
      | None => findTxnInTraces txnID traces'
      end
  end.

Definition findTxnState (txnID : string) (snap : tracing.SpansSnapshot) : txnState :=
  findTxnInTraces txnID (tracing.Traces snap).

(** ** [processTag] *)

Definition processTag (k v : string) (snap : tracing.SpansSnapshot) : result ProcessedTag :=
  let hidden := bool_decide (k ∈ hiddenTags) in
  if String.eqb k "lock_holder_txn" then
    let txnID := v in
    txnIDShort ← slice_to v 8;
    let txnState := findTxnState txnID snap in
    let caption :=
      if negb (found txnState) then "blocked on unknown transaction"
      else if negb (String.eqb (curQuery txnState) "")
           then "blocked on txn currently running query: " +:+ curQuery txnState
           else "blocked on idle txn" in
    Ok {| Key := k; Val := txnIDShort; Caption := caption; Link := txnIDShort;
          Hidden := hidden; Highlight := true; Inherit := false; Inherited := false;
          PropagateUp := true; CopiedFromChild := false |}
  else if String.eqb k "statement" then
    Ok {| Key := k; Val := v; Caption := ""; Link := "";
          Hidden := hidden; Highlight := false; Inherit := true; Inherited := false;
          PropagateUp := true; CopiedFromChild := false |}
  else
    Ok {| Key := k; Val := v; Caption := ""; Link := "";
          Hidden := hidden; Highlight := false; Inherit := false; Inherited := false;
          PropagateUp := false; CopiedFromChild := false |}.

(** ** [processSpan] *)

(** The order of Go strings: byte-wise lexicographic. *)
Definition str_le (a b : string) : Prop := String.leb a b = true.

#[export] Instance str_le_dec : RelDecision str_le.
Proof. intros a b. unfold str_le. apply _. Defined.

(** [sort.Strings]. *)
Definition sortStrings (l : list string) : list string := merge_sort str_le l.

(** [for i, x := range l { out[i] = f(x) }] with a body that may panic. *)
Fixpoint mapM {A B : Type} (f : A → result B) (l : list A) : result (list B) :=
  match l with
  | [] => Ok []
  | x :: l' => y ← f x; ys ← mapM f l'; Ok (y :: ys)
  end.

(** The span table [processedSpans]: a slice of structs. *)
Abbreviation table := (list processedSpan).

Section WithRangeOrder.

(** Go leaves the order in which [range] visits the keys of a map open, anew
    each time a [range] statement runs.  [rangeKeys m] is the order in which
    the [range] of the call at hand visits the keys of the tag map [m]. *)
Variable rangeKeys : gmap string string → list string.

Definition processSpan (s : tracingpb.RecordedSpan) (snap : tracing.SpansSnapshot)
  : result processedSpan :=
  let tagKeys := sortStrings (rangeKeys (tracingpb.Tags s)) in
  tags ← mapM (fun k => processTag k (map_get (tracingpb.Tags s) k) snap) tagKeys;
  Ok {| Operation := tracingpb.Operation s;
        TraceID := tracingpb.TraceID s;
        SpanID := tracingpb.SpanID s;
        ParentSpanID := tracingpb.ParentSpanID s;
        Start := tracingpb.StartTime s;
        GoroutineID := tracingpb.GoroutineID s;
        Tags := tags |}.

End WithRangeOrder.

(** ** The span table and its two indexes

    [processedSpans] is a slice of structs; [spansMap] and [childrenMap]
    hold pointers [&processedSpans[i]] into it, which are modelled by the
    position [i].  A write through such a pointer is a write to the table
    at [i], and is seen through every other copy of the pointer. *)

(** One round of the loop that fills the table and the two maps.  The
    round for position [i] runs when the table holds the [i] spans before
    it; [rangeKeysAt i] is the order of the [range] over the tags in the call
    of [processSpan] that this round makes. *)
Definition indexSpan (rangeKeysAt : nat → gmap string string → list string)
    (snap : tracing.SpansSnapshot)
    (st : table * gmap Z nat * gmap Z (list nat)) (s : tracingpb.RecordedSpan)
  : result (table * gmap Z nat * gmap Z (list nat)) :=
  let '(processedSpans, spansMap, childrenMap) := st in
  let i := length processedSpans in
  p ← processSpan (rangeKeysAt i) s snap;
  Ok (processedSpans ++ [p],
      <[SpanID p := i]> spansMap,
      match childrenMap !! ParentSpanID p with
      | None => <[ParentSpanID p := [i]]> childrenMap
      | Some cs => <[ParentSpanID p := cs ++ [i]]> childrenMap
      end).

(** [p.Tags = append(p.Tags, tag)]. *)
Definition appendTag (tag : ProcessedTag) (p : processedSpan) : processedSpan :=
  {| Operation := Operation p;
     TraceID := TraceID p;
     SpanID := SpanID p;
     ParentSpanID := ParentSpanID p;
     Start := Start p;
     GoroutineID := GoroutineID p;
     Tags := Tags p ++ [tag] |}.

(** ** [propagateTagUpwards] *)

(** The copy that travels upwards. *)
Definition upCopy (tag : ProcessedTag) : ProcessedTag :=
  {| Key := Key tag; Val := Val tag; Caption := Caption tag; Link := Link tag;
     Hidden := Hidden tag; Highlight := Highlight tag;
     Inherit := false; Inherited := Inherited tag;
     PropagateUp := PropagateUp tag; CopiedFromChild := true |}.

(** The [for] loop of [propagateTagUpwards]; one unit of fuel per round.  A
    pointer found in [spans] always points into the table, so the [Panic]
    branch is never taken on the maps that [ProcessSnapshot] builds. *)
Fixpoint walkUp (fuel : nat) (tag : ProcessedTag) (parentID : Z)
    (spans : gmap Z nat) (ps : table) : result table :=
  match fuel with
  | O => OutOfFuel
  | S fuel' =>
      match spans !! parentID with
      | None => Ok ps
      | Some j =>
          match ps !! j with
          | None => Panic
          | Some p =>
              walkUp fuel' tag (ParentSpanID p) spans (<[j := appendTag tag p]> ps)
          end
      end
  end.

Definition propagateTagUpwards (fuel : nat) (tag : ProcessedTag) (sp : processedSpan)
    (spans : gmap Z nat) (ps : table) : result table :=
  walkUp fuel (upCopy tag) (ParentSpanID sp) spans ps.

(** ** [propagateInheritTagDownwards] *)

(** The copy that travels downwards. *)
Definition downCopy (tag : ProcessedTag) : ProcessedTag :=
  {| Key := Key tag; Val := Val tag; Caption := Caption tag; Link := Link tag;
     Hidden := true; Highlight := Highlight tag;
     Inherit := Inherit tag; Inherited := true;
     PropagateUp := false; CopiedFromChild := CopiedFromChild tag |}.

(** [children[id]] on the Go map of slices: [nil] when the key is absent. *)
Definition childrenOf (children : gmap Z (list nat)) (id : Z) : list nat :=
  default [] (children !! id).

(** One unit of fuel per level of the recursion.  [spID] is [sp.SpanID], the
    only field of [sp] that the function reads. *)
Fixpoint propagateInheritTagDownwards (fuel : nat) (tag : ProcessedTag) (spID : Z)
    (children : gmap Z (list nat)) (ps : table) : result table :=
  match fuel with
  | O => OutOfFuel
  | S fuel' =>
      let tag := downCopy tag in
      foldM (fun ps child =>
               match ps !! child with
               | None => Panic
               | Some c =>
                   propagateInheritTagDownwards fuel' tag (SpanID c) children
                     (<[child := appendTag tag c]> ps)
               end)
            ps (childrenOf children spID)
  end.

(** ** The two passes of [ProcessSnapshot] *)

(** [for _, t := range s.Tags] of the upward pass; [s] is the copy of the
    span taken when the round of the outer loop began. *)
Definition propagateUpSpan (fuel : nat) (spans : gmap Z nat) (s : processedSpan)
    (ps : table) : result table :=
  foldM (fun ps t =>
           if negb (PropagateUp t) || CopiedFromChild t then Ok ps
           else propagateTagUpwards fuel t s spans ps)
        ps (Tags s).

(** [for _, s := range processedSpans]: the round for position [i] copies
    the span as it is in the table at that time. *)
Definition propagateUpPass (fuel : nat) (spans : gmap Z nat) (ps : table) : result table :=
  foldM (fun ps i =>
           match ps !! i with
           | None => Ok ps
           | Some s => propagateUpSpan fuel spans s ps
           end)
        ps (seq 0 (length ps)).

Definition propagateDownSpan (fuel : nat) (children : gmap Z (list nat))
    (s : processedSpan) (ps : table) : result table :=
  foldM (fun ps t =>
           if negb (Inherit t) || Inherited t then Ok ps
           else propagateInheritTagDownwards fuel t (SpanID s) children ps)
        ps (Tags s).

Definition propagateDownPass (fuel : nat) (children : gmap Z (list nat)) (ps : table)
  : result table :=
  foldM (fun ps i =>
           match ps !! i with
           | None => Ok ps
           | Some s => propagateDownSpan fuel children s ps
           end)
        ps (seq 0 (length ps)).

(** ** The stacks *)

Definition goroutineNotFound : string :=
  "Goroutine not found. Goroutine must have finished since the span was created.".

(** [for k, v := range snapshot.Stacks { stacks[k] = v }]; [entries] are the
    entries of the map in the order in which [range] visits them. *)
Definition copyStacks (entries : list (Z * string)) : gmap Z string :=
  foldl (fun stacks kv => <[kv.1 := kv.2]> stacks) ∅ entries.

(** One round of the loop that fills in the missing stacks. *)
Definition fillStack (stacks : gmap Z string) (s : tracingpb.RecordedSpan) : gmap Z string :=
  let gid := int_of_uint64 (tracingpb.GoroutineID s) in
  match stacks !! gid with
  | Some _ => stacks
  | None => <[gid := goroutineNotFound]> stacks
  end.

(** ** [ProcessSnapshot] *)

(** The orders in which the run at hand ranges over the Go maps that the
    function reads, one order for each [range] statement that it runs:
    [tagOrder i] for the [range] over the tags of the span at position [i],
    and [stackOrder] for the one [range] over the stacks.  Two spans with the
    same tags need not have them visited in the same order. *)
Record rangeOrder : Type := {
  tagOrder : nat → gmap string string → list string;
  stackOrder : gmap Z string → list (Z * string)
}.

Definition ProcessSnapshot (order : rangeOrder) (fuel : nat)
    (snapshot : tracing.SpansSnapshot) : result ProcessedSnapshot :=
  let spans := concat (tracing.Traces snapshot) in
  '(processedSpans, spansMap, childrenMap) ←
      foldM (indexSpan (tagOrder order) snapshot) ([], ∅, ∅) spans;
  processedSpans ← propagateUpPass fuel spansMap processedSpans;
  processedSpans ← propagateDownPass fuel childrenMap processedSpans;
  let stacks := copyStacks (stackOrder order (tracing.Stacks snapshot)) in
  let stacks := foldl fillStack stacks spans in
  Ok {| Spans := processedSpans; Stacks := stacks |}.

(** The orders that Go allows: each key of the map once, in every [range]. *)
Definition validRange (order : rangeOrder) : Prop :=
  (∀ i m, tagOrder order i m ≡ₚ (map_to_list m).*1) ∧
  (∀ m, stackOrder order m ≡ₚ map_to_list m).

(** One such order: the one in which stdpp lists the entries of a map. *)
Definition keysInOrder : rangeOrder :=
  {| tagOrder := fun _ m => (map_to_list m).*1; stackOrder := map_to_list |}.

(** * The vocabulary of the properties *)

(** A span that belongs to the transaction [t]. *)
Definition isTxnSpan (t : string) (s : tracingpb.RecordedSpan) : Prop :=
  tracingpb.Operation s = "sql txn" ∧ tracingpb.Tags s !! "txn" = Some t.

Definition isQuerySpan (s : tracingpb.RecordedSpan) : Prop :=
  tracingpb.Operation s = "sql query".

(** What [processTag] returns for a [lock_holder_txn] tag that is long
    enough to be cut. *)
Definition lockHolderTag (v caption : string) : ProcessedTag :=
  {| Key := "lock_holder_txn"; Val := substring 0 8 v; Caption := caption;
     Link := substring 0 8 v; Hidden := false; Highlight := true; Inherit := false;
     Inherited := false; PropagateUp := true; CopiedFromChild := false |}.

Definition lockHolderCaption (st : txnState) : string :=
  if negb (found st) then "blocked on unknown transaction"
  else if negb (String.eqb (curQuery st) "")
       then "blocked on txn currently running query: " +:+ curQuery st
       else "blocked on idle txn".

(** The fields of a span that identify it: all but the tags. *)
Definition identity (p : processedSpan) : string * Z * Z * Z * Z * Z :=
  (Operation p, TraceID p, SpanID p, ParentSpanID p, Start p, GoroutineID p).

Definition appendTags (tags : list ProcessedTag) (p : processedSpan) : processedSpan :=
  {| Operation := Operation p;
     TraceID := TraceID p;
     SpanID := SpanID p;
     ParentSpanID := ParentSpanID p;
     Start := Start p;
     GoroutineID := GoroutineID p;
     Tags := Tags p ++ tags |}.

(** The table in which the span at each position [j] has received the tags
    [ext j], in that order, after its own. *)
Definition extend (ext : nat → list ProcessedTag) (ps : table) : table :=
  imap (fun j p => appendTags (ext j) p) ps.

(** A write [p.Tags = append(p.Tags, tag)] through the pointer to position [j]. *)
Definition addTag (tag : ProcessedTag) (ps : table) (j : nat) : table :=
  match ps !! j with
  | Some p => <[j := appendTag tag p]> ps
  | None => ps
  end.

(** The tags that position [j] receives when [tag] is written to the
    positions [js] one after the other: one for each time [j] is among them. *)
Definition hits (tag : ProcessedTag) (js : list nat) (j : nat) : list ProcessedTag :=
  flat_map (fun k => if decide (k = j) then [tag] else []) js.

(** The positions that the loop of [propagateTagUpwards] writes to, in the
    order of the writes, when it starts from [parentID]. *)
Fixpoint upTargets (fuel : nat) (spans : gmap Z nat) (ps : table) (parentID : Z)
  : result (list nat) :=
  match fuel with
  | O => OutOfFuel
  | S fuel' =>
      match spans !! parentID with
      | None => Ok []
      | Some j =>
          match ps !! j with
          | None => Panic
          | Some p => js ← upTargets fuel' spans ps (ParentSpanID p); Ok (j :: js)
          end
      end
  end.

(** The positions that [propagateInheritTagDownwards] writes to, in the order
    of the writes, when it is called on a span with the id [spID]. *)
Fixpoint downTargets (fuel : nat) (children : gmap Z (list nat)) (ps : table) (spID : Z)
  : result (list nat) :=
  match fuel with
  | O => OutOfFuel
  | S fuel' =>
      foldM (fun acc child =>
               match ps !! child with
               | None => Panic
               | Some c =>
                   js ← downTargets fuel' children ps (SpanID c); Ok (acc ++ child :: js)
               end)
            [] (childrenOf children spID)
  end.

(** The shape shared by the two passes of [ProcessSnapshot]: a loop over the
    table that, for each tag of the span at hand that is [eligible], makes
    the [call] that writes a [copy] of the tag along a [walk]. *)

Section PassDefinitions.

Variable eligible : ProcessedTag → bool.
Variable copy : ProcessedTag → ProcessedTag.
Variable walk : table → processedSpan → result (list nat).
Variable call : ProcessedTag → processedSpan → table → result table.

Definition roundOf (s : processedSpan) (ps : table) : result table :=
  foldM (fun ps t => if eligible t then call t s ps else Ok ps) ps (Tags s).

Definition passOf (ps : table) : result table :=
  foldM (fun ps i =>
           match ps !! i with
           | None => Ok ps
           | Some s => roundOf s ps
           end)
        ps (seq 0 (length ps)).

(** The tags of a span that trigger a walk. *)
Definition triggers (tags : list ProcessedTag) : list ProcessedTag :=
  filter (fun t => eligible t = true) tags.

(** The walk that the round of [s] makes, if it makes one. *)
Definition walkFor (ps0 : table) (s : processedSpan) : result (list nat) :=
  if decide (triggers (Tags s) = []) then Ok [] else walk ps0 s.

(** What position [j] receives in the round of a span with the tags [tags]
    whose walk yields [js]. *)
Definition received (j : nat) (tags : list ProcessedTag) (js : list nat)
  : list ProcessedTag :=
  flat_map (fun t => hits (copy t) js j) (triggers tags).

(** What position [j] receives in a whole pass, [walks] being the walks of
    the spans in the order of the table. *)
Definition receivedAll (ps0 : table) (walks : list (list nat)) (j : nat)
  : list ProcessedTag :=
  concat (zip_with (fun s js => received j (Tags s) js) ps0 walks).

End PassDefinitions.

(** A tag that the upward pass propagates: [PropagateUp] and not
    [CopiedFromChild]. *)
Definition upEligible (t : ProcessedTag) : bool :=
  PropagateUp t && negb (CopiedFromChild t).

(** A tag that the downward pass propagates: [Inherit] and not [Inherited]. *)
Definition downEligible (t : ProcessedTag) : bool :=
  Inherit t && negb (Inherited t).

Definition upWalk (fuel : nat) (spans : gmap Z nat) (ps : table) (s : processedSpan)
  : result (list nat) :=
  upTargets fuel spans ps (ParentSpanID s).

Definition downWalk (fuel : nat) (children : gmap Z (list nat)) (ps : table)
    (s : processedSpan) : result (list nat) :=
  downTargets fuel children ps (SpanID s).

(** The enriched spans, before any propagation: the span at position [i] as
    [processSpan] returns it when its [range] follows [rangeKeysAt i]. *)
Definition enrich (rangeKeysAt : nat → gmap string string → list string)
    (snap : tracing.SpansSnapshot) : result table :=
  mapM (fun x => processSpan (rangeKeysAt x.1) x.2 snap)
       (imap pair (concat (tracing.Traces snap))).

(** [spansMap] as a function of the table: a later span with the same id
    replaces an earlier one. *)
Definition spanIndex (ps : table) : gmap Z nat :=
  foldl (fun m ip => <[SpanID ip.2 := ip.1]> m) ∅ (imap pair ps).

Definition addChild (m : gmap Z (list nat)) (i : nat) (p : processedSpan)
  : gmap Z (list nat) :=
  match m !! ParentSpanID p with
  | None => <[ParentSpanID p := [i]]> m
  | Some cs => <[ParentSpanID p := cs ++ [i]]> m
  end.

(** [childrenMap] as a function of the table. *)
Definition childIndex (ps : table) : gmap Z (list nat) :=
  foldl (fun m ip => addChild m ip.1 ip.2) ∅ (imap pair ps).

Definition stitchStacks (raw : gmap Z string) (spans : list tracingpb.RecordedSpan)
  : gmap Z string :=
  foldl fillStack raw spans.

(** The identity fields of a processed span are those of the recorded span. *)
Definition sameIdentity (s : tracingpb.RecordedSpan) (p : processedSpan) : Prop :=
  Operation p = tracingpb.Operation s ∧
  TraceID p = tracingpb.TraceID s ∧
  SpanID p = tracingpb.SpanID s ∧
  ParentSpanID p = tracingpb.ParentSpanID s ∧
  Start p = tracingpb.StartTime s ∧
  GoroutineID p = tracingpb.GoroutineID s.

(** A step on the table that changes nothing but the tags, and only adds to
    them at the end. *)
Definition onlyAddsTags (ps ps' : table) : Prop :=
  Forall2 (fun p p' => identity p' = identity p ∧ ∃ extra, Tags p' = Tags p ++ extra) ps ps'.

(** A tag as [processTag] makes it: neither kind of copy. *)
Definition isOriginal (t : ProcessedTag) : Prop :=
  CopiedFromChild t = false ∧ Inherited t = false.

(** A copy made by one of the two passes. *)
Definition isCopy (t : ProcessedTag) : Prop :=
  CopiedFromChild t = true ∨ Inherited t = true.

(** The tags of [p] are the enriched tags of the recorded span [s], one for
    each key of its tag map and sorted by key, followed by copies. *)
Definition ownTagsThenCopies (s : tracingpb.RecordedSpan) (p : processedSpan) : Prop :=
  ∃ own copies,
    Tags p = own ++ copies ∧
    Sorted str_le (Key <$> own) ∧
    Key <$> own ≡ₚ (map_to_list (tracingpb.Tags s)).*1 ∧
    Forall isOriginal own ∧
    Forall isCopy copies.

(** Whether the span at position [j] has the parent id [id]. *)
Definition isChildOf (ps : table) (id : Z) (j : nat) : Prop :=
  ParentSpanID <$> ps !! j = Some id.

#[export] Instance isChildOf_dec (ps : table) (id : Z) (j : nat) : Decision (isChildOf ps id j).
Proof. unfold isChildOf. apply _. Defined.

(** [upChain spans ps pid js]: following the parent ids from [pid] through
    the index [spans] visits the positions [js], in this order, and then
    reaches a parent id that the index does not hold. *)
Inductive upChain (spans : gmap Z nat) (ps : table) : Z → list nat → Prop :=
| upChain_root (pid : Z) :
    spans !! pid = None → upChain spans ps pid []
| upChain_step (pid : Z) (j : nat) (p : processedSpan) (js : list nat) :
    spans !! pid = Some j → ps !! j = Some p →
    upChain spans ps (ParentSpanID p) js →
    upChain spans ps pid (j :: js).

(** What position [j] receives in a pass none of whose walks visits a
    position twice: from each span whose walk visits [j], one copy of each
    tag that triggers the walk. *)
Definition copiesFrom (eligible : ProcessedTag → bool) (copy : ProcessedTag → ProcessedTag)
    (ps0 : table) (walks : list (list nat)) (j : nat) : list ProcessedTag :=
  concat (zip_with (fun s js => if decide (j ∈ js)
                                then copy <$> triggers eligible (Tags s) else [])
                   ps0 walks).

(** [descendant ps sid j]: the span at position [j] is a child of the span id
    [sid], or a child of a descendant of [sid]. *)
Inductive descendant (ps : table) (sid : Z) : nat → Prop :=
| descendant_child (j : nat) :
    isChildOf ps sid j → descendant ps sid j
| descendant_deeper (k : nat) (q : processedSpan) (j : nat) :
    descendant ps sid k → ps !! k = Some q → isChildOf ps (SpanID q) j →
    descendant ps sid j.

(** [downVisit children ps cs js]: the loop of [propagateInheritTagDownwards]
    over the children [cs], with the recursive calls, writes to the positions
    [js], in this order, and returns. *)
Inductive downVisit (children : gmap Z (list nat)) (ps : table)
  : list nat → list nat → Prop :=
| downVisit_nil : downVisit children ps [] []
| downVisit_cons (c : nat) (cs : list nat) (p : processedSpan) (l1 l2 : list nat) :
    ps !! c = Some p →
    downVisit children ps (childrenOf children (SpanID p)) l1 →
    downVisit children ps cs l2 →
    downVisit children ps (c :: cs) (c :: l1 ++ l2).

(** The positions that descend from one of the positions [cs], these
    included. *)
Inductive reaches (ps : table) (cs : list nat) : nat → Prop :=
| reaches_here (j : nat) : j ∈ cs → reaches ps cs j
| reaches_deeper (e : nat) (q : processedSpan) (j : nat) :
    reaches ps cs e → ps !! e = Some q → isChildOf ps (SpanID q) j →
    reaches ps cs j.

(** The parent links of a table: the span id and the parent id of each span. *)
Definition parentLinks (ps : table) : list (Z * Z) :=
  (fun p => (SpanID p, ParentSpanID p)) <$> ps.

(** The parent links of a snapshot. *)
Definition snapshotLinks (snap : tracing.SpansSnapshot) : list (Z * Z) :=
  (fun s => (tracingpb.SpanID s, tracingpb.ParentSpanID s))
    <$> concat (tracing.Traces snap).

(** [stepsUp links a b]: a span with the id [a] has the parent id [b]. *)
Definition stepsUp (links : list (Z * Z)) : relation Z :=
  fun a b => (a, b) ∈ links.

(** The parent ids form no cycle: no id is reached from itself by following
    parent ids. *)
Definition acyclic (links : list (Z * Z)) : Prop :=
  ∀ a, ¬ tc (stepsUp links) a a.

(** How a tag of the output relates to the tag [T] that [processTag] made:
    it is [T] itself, or the copy that one of the two passes made of it. *)
Definition madeFrom (T t : ProcessedTag) : Prop :=
  t = T ∨
  (PropagateUp T = true ∧ t = upCopy T) ∨
  (Inherit T = true ∧ t = downCopy T).

(** From the id [a], following parent ids leads to a cycle. *)
Definition leadsToCycle (R : relation Z) (a : Z) : Prop :=
  ∃ c, rtc R a c ∧ tc R c c.

(** A copy of the tag [T] as the upward pass hands it to an ancestor: [T] in
    every field but two, [CopiedFromChild] set and [Inherit] cleared. *)
Definition isUpwardCopyOf (T t : ProcessedTag) : Prop :=
  Key t = Key T ∧ Val t = Val T ∧ Caption t = Caption T ∧ Link t = Link T ∧
  Hidden t = Hidden T ∧ Highlight t = Highlight T ∧
  Inherited t = Inherited T ∧ PropagateUp t = PropagateUp T ∧
  CopiedFromChild t = true ∧ Inherit t = false.

(** A copy of the tag [T] as the downward pass hands it to a descendant: [T]
    in every field but three, [Inherited] set, [PropagateUp] cleared and
    [Hidden] set. *)
Definition isDownwardCopyOf (T t : ProcessedTag) : Prop :=
  Key t = Key T ∧ Val t = Val T ∧ Caption t = Caption T ∧ Link t = Link T ∧
  Highlight t = Highlight T ∧ Inherit t = Inherit T ∧
  CopiedFromChild t = CopiedFromChild T ∧
  Inherited t = true ∧ PropagateUp t = false ∧ Hidden t = true.

(** The tags of which position [j] is handed a copy in a pass, one entry for
    each append to [j] and in the order of the appends: span after span in
    the order of the table, and for one span tag after tag in the order of
    its tags.  [walks] are the walks of the spans. *)
Definition appendedFrom (eligible : ProcessedTag → bool) (ps0 : table)
    (walks : list (list nat)) (j : nat) : list ProcessedTag :=
  receivedAll eligible id ps0 walks j.

(** The tags of which position [j] is handed a copy in a pass none of whose
    walks visits a position twice: the tags that trigger the walk of each
    span whose walk visits [j]. *)
Definition sourcesOf (eligible : ProcessedTag → bool) (ps0 : table)
    (walks : list (list nat)) (j : nat) : list ProcessedTag :=
  copiesFrom eligible id ps0 walks j.

(** ** Concrete snapshots *)

Definition mkSpan (id parent gid : Z) (op : string) (tags : list (string * string))
  : tracingpb.RecordedSpan :=
  {| tracingpb.TraceID := 1; tracingpb.SpanID := id; tracingpb.ParentSpanID := parent;
     tracingpb.Operation := op; tracingpb.Tags := list_to_map tags;
     tracingpb.StartTime := 0; tracingpb.GoroutineID := gid |}.

Definition mkSnapshot (traces : list (list tracingpb.RecordedSpan)) (stacks : list (Z * string))
  : tracing.SpansSnapshot :=
  {| tracing.Traces := traces; tracing.Stacks := list_to_map stacks |}.

(** A transaction span and a query span without a statement tag in one
    trace, and a span blocked on that transaction in another. *)
Definition snapQueryNoStatement : tracing.SpansSnapshot :=
  mkSnapshot
    [ [ mkSpan 10 0 7 "sql txn" [("txn", "tx-12345")];
        mkSpan 11 10 7 "sql query" [] ];
      [ mkSpan 20 0 8 "kv" [("lock_holder_txn", "tx-12345")] ] ]
    [].

(** A span blocked on a transaction whose id is three bytes long. *)
Definition snapShortTxn : tracing.SpansSnapshot :=
  mkSnapshot [ [ mkSpan 1 0 7 "kv" [("lock_holder_txn", "abc")] ] ] [].

(** Scenario A of the specification: a span blocked on a transaction that
    no span of the snapshot belongs to, below a root span. *)
Definition snapScenarioA : tracing.SpansSnapshot :=
  mkSnapshot
    [ [ mkSpan 2 1 8 "other" [("lock_holder_txn", "abcdef1234567890")];
        mkSpan 1 0 7 "root" [] ] ]
    [(7, "main.run")].

(** Scenario B of the specification, with a transaction id of three bytes
    as the specification has it, and with one of eight bytes. *)
Definition snapScenarioB (txn : string) : tracing.SpansSnapshot :=
  mkSnapshot
    [ [ mkSpan 10 0 7 "sql txn" [("txn", txn)];
        mkSpan 11 10 7 "sql query" [("statement", "SELECT 1")] ];
      [ mkSpan 20 0 8 "kv" [("lock_holder_txn", txn)] ] ]
    [].

(** A root with a tag of its own, a child with a statement, a grandchild and
    a second child without tags. *)
Definition snapFamily : tracing.SpansSnapshot :=
  mkSnapshot
    [ [ mkSpan 1 0 7 "root" [("zone", "z1")];
        mkSpan 2 1 7 "sql query" [("statement", "SELECT 2")];
        mkSpan 3 2 8 "scan" [];
        mkSpan 4 1 9 "flush" [] ] ]
    [(7, "main.run")].

(** A span that is its own parent. *)
Definition snapSelfParent : tracing.SpansSnapshot :=
  mkSnapshot [ [ mkSpan 1 1 7 "sql query" [("statement", "SELECT 3")] ] ] [].

(** Two spans that are each other's parent. *)
Definition snapTwoCycle : tracing.SpansSnapshot :=
  mkSnapshot
    [ [ mkSpan 1 2 7 "sql query" [("statement", "SELECT 4")];
        mkSpan 2 1 7 "scan" [] ] ]
    [].

(** Two spans with the same id below a span with a statement, and a span
    below them. *)
Definition snapDuplicateIds : tracing.SpansSnapshot :=
  mkSnapshot
    [ [ mkSpan 1 0 7 "sql query" [("statement", "SELECT 5")];
        mkSpan 5 1 7 "scan" [];
        mkSpan 5 1 7 "scan" [];
        mkSpan 6 5 7 "fetch" [] ] ]
    [].

(** Another order that Go allows: the reverse of [keysInOrder]. *)
Definition keysReversed : rangeOrder :=
  {| tagOrder := fun _ m => reverse (map_to_list m).*1;
     stackOrder := fun m => reverse (map_to_list m) |}.

(** And one that changes from one [range] to the next: the keys of the spans
    at even positions as [keysInOrder] has them, those of the spans at odd
    positions reversed, the stacks reversed. *)
Definition keysByTurns : rangeOrder :=
  {| tagOrder := fun i m => if Nat.even i then (map_to_list m).*1
                            else reverse (map_to_list m).*1;
     stackOrder := fun m => reverse (map_to_list m) |}.

(** Spans with several tags each, two of them with the same tags, and
    several stacks. *)
Definition snapManyTags : tracing.SpansSnapshot :=
  mkSnapshot
    [ [ mkSpan 1 0 7 "sql txn"
          [("txn", "tx-12345"); ("node", "n1"); ("zone", "z1"); ("app", "a1")];
        mkSpan 2 1 8 "sql query"
          [("statement", "SELECT 7"); ("node", "n1"); ("zone", "z1"); ("app", "a1")];
        mkSpan 3 2 9 "scan"
          [("statement", "SELECT 7"); ("node", "n1"); ("zone", "z1"); ("app", "a1")] ];
      [ mkSpan 4 0 10 "kv"
          [("lock_holder_txn", "tx-12345"); ("store", "s1"); ("_verbose", "1")] ] ]
    [(7, "main.run"); (8, "sql.exec"); (9, "kv.scan")].

(** The output of a run that returned. *)
Definition outputOf (r : result ProcessedSnapshot) : ProcessedSnapshot :=
  match r with
  | Ok out => out
  | _ => {| Spans := []; Stacks := ∅ |}
  end.

Definition outFamily : ProcessedSnapshot :=
  outputOf (ProcessSnapshot keysInOrder 4 snapFamily).

Definition outScenarioA : ProcessedSnapshot :=
  outputOf (ProcessSnapshot keysInOrder 4 snapScenarioA).

(** The tables that enrichment builds for the two snapshots with a cycle. *)
Definition statementTag (v : string) : ProcessedTag :=
  {| Key := "statement"; Val := v; Caption := ""; Link := "";
     Hidden := false; Highlight := false; Inherit := true; Inherited := false;
     PropagateUp := true; CopiedFromChild := false |}.

Definition spanSelfParent : processedSpan :=
  {| Operation := "sql query"; TraceID := 1; SpanID := 1; ParentSpanID := 1;
     Start := 0; GoroutineID := 7; Tags := [statementTag "SELECT 3"] |}.

Definition tableSelfParent : table := [spanSelfParent].

Definition tableTwoCycle : table :=
  [ {| Operation := "sql query"; TraceID := 1; SpanID := 1; ParentSpanID := 2;
       Start := 0; GoroutineID := 7; Tags := [statementTag "SELECT 4"] |};
    {| Operation := "scan"; TraceID := 1; SpanID := 2; ParentSpanID := 1;
       Start := 0; GoroutineID := 7; Tags := [] |} ].

(** The table of a run of the enrichment that returned. *)
Definition tableOf (r : result table) : table :=
  match r with
  | Ok ps => ps
  | _ => []
  end.

Definition tableFamily : table := tableOf (enrich (tagOrder keysInOrder) snapFamily).

(** A span that is its own parent and holds no tag that is propagated. *)
Definition snapQuietCycle : tracing.SpansSnapshot :=
  mkSnapshot [ [ mkSpan 1 1 7 "flush" [("node", "n1")] ] ] [].

(** The span of [snapFamily] at the bottom of the family, after enrichment. *)
Definition spanScan : processedSpan :=
  {| Operation := "scan"; TraceID := 1; SpanID := 3; ParentSpanID := 2;
     Start := 0; GoroutineID := 8; Tags := [] |}.

(** The span of [snapFamily] at the top of the family, after enrichment. *)
Definition spanRoot : processedSpan :=
  {| Operation := "root"; TraceID := 1; SpanID := 1; ParentSpanID := 0;
     Start := 0; GoroutineID := 7;
     Tags := [ {| Key := "zone"; Val := "z1"; Caption := ""; Link := "";
                  Hidden := false; Highlight := false; Inherit := false;
                  Inherited := false; PropagateUp := false;
                  CopiedFromChild := false |} ] |}.

(** The first span of [tableTwoCycle]. *)
Definition spanCycleHead : processedSpan :=
  {| Operation := "sql query"; TraceID := 1; SpanID := 1; ParentSpanID := 2;
     Start := 0; GoroutineID := 7; Tags := [statementTag "SELECT 4"] |}.

(** Two spans with the same id above a span with a statement. *)
Definition snapShadowed : tracing.SpansSnapshot :=
  mkSnapshot
    [ [ mkSpan 5 0 7 "scan" [];
        mkSpan 5 0 7 "scan" [];
        mkSpan 6 5 7 "sql query" [("statement", "SELECT 6")] ] ]
    [].

Definition outShadowed : ProcessedSnapshot :=
  outputOf (ProcessSnapshot keysInOrder 4 snapShadowed).

(** The first of the two spans of [snapShadowed] with the id 5, and the
    second, in the output. *)
Definition spanShadowed : processedSpan :=
  {| Operation := "scan"; TraceID := 1; SpanID := 5; ParentSpanID := 0;
     Start := 0; GoroutineID := 7; Tags := [] |}.

Definition spanShadowing : processedSpan :=
  {| Operation := "scan"; TraceID := 1; SpanID := 5; ParentSpanID := 0;
     Start := 0; GoroutineID := 7; Tags := [upCopy (statementTag "SELECT 6")] |}.

(** A span between a parent with a statement and a child that waits for a
    lock: it receives a copy from below and a copy from above. *)
Definition snapBothWays : tracing.SpansSnapshot :=
  mkSnapshot
    [ [ mkSpan 1 0 7 "sql query" [("statement", "SELECT 8")];
        mkSpan 2 1 7 "scan" [("zone", "z1"); ("node", "n1")];
        mkSpan 3 2 8 "kv" [("lock_holder_txn", "tx-12345")] ] ]
    [(7, "main.run")].

Definition outBothWays : ProcessedSnapshot :=
  outputOf (ProcessSnapshot keysInOrder 4 snapBothWays).


(** * Properties *)

(** ** The outcome monad *)

Lemma bind_Ok {A B : Type} (r : result A) (f : A → result B) (b : B) :
  r ≫= f = Ok b ↔ ∃ a, r = Ok a ∧ f a = Ok b.
Proof.
  destruct r; simpl; split; try (intros [a [? ?]]); try discriminate; eauto.
  intros [a' [[= ->] ?]]. done.
Qed.

Lemma foldM_app {A B : Type} (f : B → A → result B) (b : B) (l1 l2 : list A) :
  foldM f b (l1 ++ l2) = foldM f b l1 ≫= fun b' => foldM f b' l2.
Proof.
  revert b. induction l1 as [|x l1 IH]; intros b; simpl; [done|].
  destruct (f b x); simpl; auto.
Qed.

Lemma mapM_Ok_length {A B : Type} (f : A → result B) (l : list A) (l' : list B) :
  mapM f l = Ok l' → length l' = length l.
Proof.
  revert l'. induction l as [|x l IH]; intros l'; simpl.
  - by intros [= <-].
  - intros H. apply bind_Ok in H as [y [_ H]]. apply bind_Ok in H as [ys [Hys [= <-]]].
    simpl. f_equal. by apply IH.
Qed.

Lemma mapM_Ok_Forall2 {A B : Type} (f : A → result B) (l : list A) (l' : list B) :
  mapM f l = Ok l' ↔ Forall2 (fun x y => f x = Ok y) l l'.
Proof.
  revert l'. induction l as [|x l IH]; intros l'; simpl.
  - split; [intros [= <-]; constructor | by inversion 1].
  - split.
    + intros H. apply bind_Ok in H as [y [Hy H]]. apply bind_Ok in H as [ys [Hys [= <-]]].
      constructor; [done|]. by apply IH.
    + inversion 1 as [|? y ? ys Hy Hys]; subst. rewrite Hy. simpl.
      apply IH in Hys. by rewrite Hys.
Qed.

(** ** [processTag] and [findTxnState] *)

Lemma slice_to_Ok (v : string) (n : nat) :
  (n ≤ String.length v)%nat → slice_to v n = Ok (substring 0 n v).
Proof.
  intros H. unfold slice_to. destruct (Nat.ltb_spec (String.length v) n); [lia|done].
Qed.

Lemma slice_to_Panic (v : string) (n : nat) :
  (String.length v < n)%nat → slice_to v n = Panic.
Proof.
  intros H. unfold slice_to. destruct (Nat.ltb_spec (String.length v) n); [done|lia].
Qed.

Lemma txn_test_spec (t : string) (s : tracingpb.RecordedSpan) :
  t ≠ "" →
  negb (String.eqb (tracingpb.Operation s) "sql txn")
    || negb (String.eqb (map_get (tracingpb.Tags s) "txn") t) = false
  ↔ isTxnSpan t s.
Proof.
  intros Ht. unfold isTxnSpan, map_get.
  rewrite orb_false_iff, !negb_false_iff, !String.eqb_eq.
  destruct (tracingpb.Tags s !! "txn") as [x|]; simpl; split.
  - intros [? ->]; done.
  - intros [? [= ->]]; done.
  - intros [? <-]; done.
  - intros [? [=]].
Qed.

Lemma findTxnInTrace_None (t : string) (whole tr : list tracingpb.RecordedSpan) :
  t ≠ "" →
  findTxnInTrace t whole tr = None ↔ ∀ s, s ∈ tr → ¬ isTxnSpan t s.
Proof.
  intros Ht. induction tr as [|s tr IH]; simpl.
  - split; [intros _ s Hs; by apply elem_of_nil in Hs | done].
  - destruct (negb _ || negb _) eqn:E.
    + rewrite IH. split.
      * intros H s' Hs'. apply elem_of_cons in Hs' as [->|Hs']; [|by apply H].
        rewrite <- txn_test_spec by done. by rewrite E.
      * intros H s' Hs'. apply H. by apply elem_of_cons; right.
    + split; [done|]. intros H. exfalso. apply (H s); [by apply elem_of_cons; left|].
      by apply txn_test_spec.
Qed.

Lemma findTxnInTrace_Some (t : string) (whole tr : list tracingpb.RecordedSpan) (st : txnState) :
  findTxnInTrace t whole tr = Some st → st = findQuery whole.
Proof.
  induction tr as [|s tr IH]; simpl; [done|].
  destruct (negb _ || negb _); [done|]. by intros [= <-].
Qed.

Lemma findQuery_found (tr : list tracingpb.RecordedSpan) : found (findQuery tr) = true.
Proof. induction tr as [|s tr IH]; simpl; [done|]. by destruct (String.eqb _ _). Qed.

Lemma findQuery_none (tr : list tracingpb.RecordedSpan) :
  (∀ s, s ∈ tr → ¬ isQuerySpan s) → curQuery (findQuery tr) = "".
Proof.
  induction tr as [|s tr IH]; simpl; [done|]. intros H.
  destruct (String.eqb_spec (tracingpb.Operation s) "sql query") as [E|E].
  - exfalso. apply (H s); [by apply elem_of_cons; left | done].
  - apply IH. intros s' Hs'. apply H. by apply elem_of_cons; right.
Qed.

Lemma findQuery_first (a b : list tracingpb.RecordedSpan) (q : tracingpb.RecordedSpan) :
  (∀ s, s ∈ a → ¬ isQuerySpan s) → isQuerySpan q →
  curQuery (findQuery (a ++ q :: b)) = map_get (tracingpb.Tags q) "statement".
Proof.
  intros Ha Hq. induction a as [|s a IH]; simpl.
  - unfold isQuerySpan in Hq. rewrite Hq. done.
  - destruct (String.eqb_spec (tracingpb.Operation s) "sql query") as [E|E].
    + exfalso. apply (Ha s); [by apply elem_of_cons; left | done].
    + apply IH. intros s' Hs'. apply Ha. by apply elem_of_cons; right.
Qed.

Lemma findTxnInTraces_not_found (t : string) (traces : list (list tracingpb.RecordedSpan)) :
  t ≠ "" →
  found (findTxnInTraces t traces) = false
  ↔ ∀ tr s, tr ∈ traces → s ∈ tr → ¬ isTxnSpan t s.
Proof.
  intros Ht. induction traces as [|tr traces IH]; simpl.
  - split; [intros _ tr s Htr; by apply elem_of_nil in Htr | done].
  - destruct (findTxnInTrace t tr tr) as [st|] eqn:E.
    + rewrite (findTxnInTrace_Some _ _ _ _ E), findQuery_found. split; [done|].
      intros H. exfalso.
      assert (findTxnInTrace t tr tr = None) as E'; [|congruence].
      apply findTxnInTrace_None; [done|]. intros s Hs. apply (H tr); [|done].
      by apply elem_of_cons; left.
    + rewrite IH. rewrite findTxnInTrace_None in E by done. split.
      * intros H tr' s Htr' Hs. apply elem_of_cons in Htr' as [->|Htr']; eauto.
      * intros H tr' s Htr' Hs. apply (H tr'); [|done]. by apply elem_of_cons; right.
Qed.

Lemma findTxnInTraces_first (t : string) (pre post : list (list tracingpb.RecordedSpan))
    (tr : list tracingpb.RecordedSpan) :
  t ≠ "" →
  (∀ tr' s, tr' ∈ pre → s ∈ tr' → ¬ isTxnSpan t s) →
  (∃ s, s ∈ tr ∧ isTxnSpan t s) →
  findTxnInTraces t (pre ++ tr :: post) = findQuery tr.
Proof.
  intros Ht Hpre [s [Hs Hts]]. induction pre as [|tr0 pre IH]; simpl.
  - destruct (findTxnInTrace t tr tr) as [st|] eqn:E.
    + by apply findTxnInTrace_Some in E.
    + exfalso. rewrite findTxnInTrace_None in E by done. by apply (E s).
  - assert (findTxnInTrace t tr0 tr0 = None) as ->.
    { apply findTxnInTrace_None; [done|]. intros s' Hs'. apply (Hpre tr0); [|done].
      by apply elem_of_cons; left. }
    apply IH. intros tr' s' Htr'. apply Hpre. by apply elem_of_cons; right.
Qed.

Lemma length_ge_8_nonempty (v : string) : (8 ≤ String.length v)%nat → v ≠ "".
Proof. intros H ->. simpl in H. lia. Qed.

Lemma processTag_lock_holder (v : string) (snap : tracing.SpansSnapshot) :
  (8 ≤ String.length v)%nat →
  processTag "lock_holder_txn" v snap
  = Ok (lockHolderTag v (lockHolderCaption (findTxnState v snap))).
Proof.
  intros H. unfold processTag. simpl String.eqb. cbv iota.
  rewrite slice_to_Ok by done. reflexivity.
Qed.

Lemma lockHolderCaption_unknown (st : txnState) :
  lockHolderCaption st = "blocked on unknown transaction" ↔ found st = false.
Proof.
  unfold lockHolderCaption. destruct (found st); simpl; [|done].
  destruct (String.eqb (curQuery st) ""); simpl; split; discriminate.
Qed.

(** C5, as the code has it: for a [lock_holder_txn] tag whose value [v] has
    at least 8 bytes, the caption is "blocked on unknown transaction" exactly
    when no span of the snapshot has the operation "sql txn" and the txn tag
    [v].  Otherwise, in the first trace [tr] that holds such a span, the
    caption is "blocked on idle txn" when [tr] has no "sql query" span, and it
    is decided by the first "sql query" span [q] of [tr] when there is one:
    "blocked on txn currently running query: " followed by the statement tag
    of [q] when that tag is present and not empty, "blocked on idle txn" when
    it is absent or empty.  Whether [q] descends from the transaction span
    plays no role. *)
Theorem lock_holder_caption (v : string) (snap : tracing.SpansSnapshot) :
  (8 ≤ String.length v)%nat →
  ∃ p, processTag "lock_holder_txn" v snap = Ok p ∧
    Val p = substring 0 8 v ∧ Link p = substring 0 8 v ∧
    (Caption p = "blocked on unknown transaction"
     ↔ ∀ tr s, tr ∈ tracing.Traces snap → s ∈ tr → ¬ isTxnSpan v s) ∧
    (∀ pre tr post,
       tracing.Traces snap = pre ++ tr :: post →
       (∀ tr' s, tr' ∈ pre → s ∈ tr' → ¬ isTxnSpan v s) →
       (∃ s, s ∈ tr ∧ isTxnSpan v s) →
       ((∀ s, s ∈ tr → ¬ isQuerySpan s) → Caption p = "blocked on idle txn") ∧
       (∀ a q b,
          tr = a ++ q :: b → (∀ s, s ∈ a → ¬ isQuerySpan s) → isQuerySpan q →
          Caption p =
            if decide (map_get (tracingpb.Tags q) "statement" = "")
            then "blocked on idle txn"
            else "blocked on txn currently running query: "
                 +:+ map_get (tracingpb.Tags q) "statement")).
Proof.
  intros Hlen. pose proof (length_ge_8_nonempty v Hlen) as Hne.
  eexists. split; [by apply processTag_lock_holder|]. simpl.
  split; [done|]. split; [done|]. split.
  - rewrite lockHolderCaption_unknown. unfold findTxnState.
    by apply findTxnInTraces_not_found.
  - intros pre tr post Htraces Hpre Htr. unfold findTxnState. rewrite Htraces.
    rewrite (findTxnInTraces_first v pre post tr Hne Hpre Htr).
    unfold lockHolderCaption. rewrite findQuery_found. simpl. split.
    + intros Hq. by rewrite (findQuery_none tr Hq).
    + intros a q b -> Ha Hq. rewrite (findQuery_first a b q Ha Hq).
      destruct (decide (map_get (tracingpb.Tags q) "statement" = "")) as [E|E].
      * by rewrite E.
      * apply String.eqb_neq in E. by rewrite E.
Qed.

Lemma lock_holder_caption_witness :
  ∃ p, processTag "lock_holder_txn" "tx-12345" snapQueryNoStatement = Ok p ∧
       Caption p = "blocked on idle txn".
Proof.
  destruct (lock_holder_caption "tx-12345" snapQueryNoStatement) as [p [Hp _]];
    [simpl; lia|].
  exists p. split; [done|].
  vm_compute in Hp. by injection Hp as <-.
Defined.

(** C5 as stated fails: in [snapQueryNoStatement] the transaction span of
    "tx-12345" shares its trace with a "sql query" span, and the caption is
    "blocked on idle txn". *)
Lemma lock_holder_caption_counterexample :
  ∃ tr txn q p,
    tracing.Traces snapQueryNoStatement !! 0%nat = Some tr ∧
    txn ∈ tr ∧ isTxnSpan "tx-12345" txn ∧
    q ∈ tr ∧ isQuerySpan q ∧
    processTag "lock_holder_txn" "tx-12345" snapQueryNoStatement = Ok p ∧
    Caption p = "blocked on idle txn" ∧
    ¬ ∃ statement,
        Caption p = "blocked on txn currently running query: " +:+ statement.
Proof.
  eexists _, (mkSpan 10 0 7 "sql txn" [("txn", "tx-12345")]),
    (mkSpan 11 10 7 "sql query" []), _.
  split; [reflexivity|].
  split; [apply list_elem_of_here|].
  split; [split; [reflexivity | by vm_compute]|].
  split; [apply list_elem_of_further, list_elem_of_here|].
  split; [reflexivity|].
  split; [by vm_compute|].
  split; [reflexivity|].
  intros [statement H]. simpl in H. discriminate H.
Qed.

Lemma processTag_lock_holder_short (v : string) (snap : tracing.SpansSnapshot) :
  (String.length v < 8)%nat → processTag "lock_holder_txn" v snap = Panic.
Proof.
  intros H. unfold processTag. simpl String.eqb. cbv iota.
  by rewrite slice_to_Panic.
Qed.

(** C2: the code cuts the value with [v[:8]] and panics on a shorter one.
    Here the value has three bytes. *)
Theorem lock_holder_short_value_panics :
  processTag "lock_holder_txn" "abc" snapShortTxn = Panic ∧
  ∀ fuel, ProcessSnapshot keysInOrder fuel snapShortTxn = Panic.
Proof. split; [reflexivity|]. intros fuel. by vm_compute. Qed.

(** ** The order of strings and [sort.Strings] *)

Lemma ascii_compare_N (x y : ascii) :
  Ascii.compare x y = N.compare (N_of_ascii x) (N_of_ascii y).
Proof. reflexivity. Qed.

Lemma str_leb_trans (a b c : string) :
  String.leb a b = true → String.leb b c = true → String.leb a c = true.
Proof.
  unfold String.leb. revert b c.
  induction a as [|x a IH]; intros [|y b] [|z c]; simpl; try done.
  rewrite !ascii_compare_N.
  destruct (N.compare_spec (N_of_ascii x) (N_of_ascii y)) as [Exy|Lxy|Gxy];
    destruct (N.compare_spec (N_of_ascii y) (N_of_ascii z)) as [Eyz|Lyz|Gyz];
    try done.
  - rewrite Exy, Eyz, N.compare_refl. apply IH.
  - intros _ _. rewrite Exy. by apply N.compare_lt_iff in Lyz as ->.
  - intros _ _. rewrite <- Eyz. by apply N.compare_lt_iff in Lxy as ->.
  - intros _ _. assert (N_of_ascii x < N_of_ascii z)%N as H by lia.
    by apply N.compare_lt_iff in H as ->.
Qed.

#[export] Instance str_le_trans : Transitive str_le.
Proof. intros a b c. apply str_leb_trans. Qed.

#[export] Instance str_le_total : Total str_le.
Proof. intros a b. apply String.leb_total. Qed.

#[export] Instance str_le_antisym : AntiSymm (=) str_le.
Proof. intros a b. apply String.leb_antisym. Qed.

Lemma sortStrings_sorted (l : list string) : Sorted str_le (sortStrings l).
Proof. apply Sorted_merge_sort, _. Qed.

Lemma sortStrings_perm (l : list string) : sortStrings l ≡ₚ l.
Proof. apply merge_sort_Permutation. Qed.

(** The sorted keys do not depend on the order in which they were met. *)
Lemma sortStrings_order_irrelevant (l1 l2 : list string) :
  l1 ≡ₚ l2 → sortStrings l1 = sortStrings l2.
Proof.
  intros H. apply (Sorted_unique str_le); try apply sortStrings_sorted.
  by rewrite !sortStrings_perm.
Qed.

Lemma keysInOrder_valid : validRange keysInOrder.
Proof. by split; [intros i m | intros m]. Qed.

Lemma processSpan_order_irrelevant (r1 r2 : gmap string string → list string)
    (s : tracingpb.RecordedSpan) (snap : tracing.SpansSnapshot) :
  (∀ m, r1 m ≡ₚ (map_to_list m).*1) → (∀ m, r2 m ≡ₚ (map_to_list m).*1) →
  processSpan r1 s snap = processSpan r2 s snap.
Proof.
  intros H1 H2. unfold processSpan.
  rewrite (sortStrings_order_irrelevant (r1 (tracingpb.Tags s)) (r2 (tracingpb.Tags s)));
    [done|].
  etrans; [apply H1 | symmetry; apply H2].
Qed.

Lemma foldM_ext {A B : Type} (f g : B → A → result B) (b : B) (l : list A) :
  (∀ b x, f b x = g b x) → foldM f b l = foldM g b l.
Proof.
  intros H. revert b. induction l as [|x l IH]; intros b; simpl; [done|].
  rewrite H. destruct (g b x); simpl; auto.
Qed.

Lemma indexSpan_order_irrelevant (r1 r2 : nat → gmap string string → list string)
    (snap : tracing.SpansSnapshot) st (s : tracingpb.RecordedSpan) :
  (∀ i m, r1 i m ≡ₚ (map_to_list m).*1) → (∀ i m, r2 i m ≡ₚ (map_to_list m).*1) →
  indexSpan r1 snap st s = indexSpan r2 snap st s.
Proof.
  intros H1 H2. destruct st as [[ps sm] cm]. unfold indexSpan.
  by rewrite (processSpan_order_irrelevant (r1 (length ps)) (r2 (length ps))).
Qed.

(** Filling a fresh map from the entries of [raw], in any order, copies [raw]. *)
Lemma copyStacks_copies (raw : gmap Z string) (entries : list (Z * string)) :
  entries ≡ₚ map_to_list raw → copyStacks entries = raw.
Proof.
  intros H. unfold copyStacks.
  assert (∀ (l : list (Z * string)) (m : gmap Z string),
            foldl (fun stacks kv => <[kv.1 := kv.2]> stacks) m l
            = list_to_map (reverse l) ∪ m) as Hfold.
  { induction l as [|[k v] l IH]; intros m; simpl.
    - by rewrite (left_id_L ∅ (∪)).
    - rewrite IH, reverse_cons, list_to_map_app. simpl.
      rewrite <- (assoc_L (∪)). f_equal.
      by rewrite insert_union_singleton_l. }
  rewrite Hfold, (right_id_L ∅ (∪)).
  etrans; [|apply (list_to_map_to_list raw)].
  apply list_to_map_proper.
  - rewrite fmap_reverse, reverse_Permutation, H. apply NoDup_fst_map_to_list.
  - by rewrite reverse_Permutation.
Qed.

Lemma ProcessSnapshot_order_irrelevant (r1 r2 : rangeOrder)
    (fuel : nat) (snap : tracing.SpansSnapshot) :
  validRange r1 → validRange r2 →
  ProcessSnapshot r1 fuel snap = ProcessSnapshot r2 fuel snap.
Proof.
  intros [H1 H1'] [H2 H2']. unfold ProcessSnapshot.
  rewrite (foldM_ext (indexSpan (tagOrder r1) snap) (indexSpan (tagOrder r2) snap)).
  - by rewrite (copyStacks_copies _ _ (H1' _)), (copyStacks_copies _ _ (H2' _)).
  - intros st s. by apply indexSpan_order_irrelevant.
Qed.

(** ** Tables that differ in their tags only *)

Lemma appendTags_nil (p : processedSpan) : appendTags [] p = p.
Proof. destruct p. unfold appendTags. simpl. by rewrite app_nil_r. Qed.

Lemma appendTags_app (l1 l2 : list ProcessedTag) (p : processedSpan) :
  appendTags l2 (appendTags l1 p) = appendTags (l1 ++ l2) p.
Proof. unfold appendTags. simpl. by rewrite app_assoc. Qed.

Lemma extend_lookup (ext : nat → list ProcessedTag) (ps : table) (j : nat) :
  extend ext ps !! j = appendTags (ext j) <$> ps !! j.
Proof. unfold extend. by rewrite list_lookup_imap. Qed.

Lemma extend_length (ext : nat → list ProcessedTag) (ps : table) :
  length (extend ext ps) = length ps.
Proof. unfold extend. by rewrite length_imap. Qed.

Lemma extend_ext (e1 e2 : nat → list ProcessedTag) (ps : table) :
  (∀ j, (j < length ps)%nat → e1 j = e2 j) → extend e1 ps = extend e2 ps.
Proof.
  intros H. apply list_eq. intros j. rewrite !extend_lookup.
  destruct (ps !! j) as [p|] eqn:E; [|done]. simpl.
  by rewrite H by (by eapply lookup_lt_Some).
Qed.

Lemma extend_id (ext : nat → list ProcessedTag) (ps : table) :
  (∀ j, ext j = []) → extend ext ps = ps.
Proof.
  intros H. apply list_eq. intros j. rewrite extend_lookup.
  destruct (ps !! j) as [p|]; [|done]. simpl. by rewrite H, appendTags_nil.
Qed.

Lemma extend_extend (e1 e2 : nat → list ProcessedTag) (ps : table) :
  extend e2 (extend e1 ps) = extend (fun j => e1 j ++ e2 j) ps.
Proof.
  apply list_eq. intros j. rewrite !extend_lookup.
  destruct (ps !! j) as [p|]; [|done]. simpl. by rewrite appendTags_app.
Qed.

Lemma identity_extend (ext : nat → list ProcessedTag) (ps : table) :
  identity <$> extend ext ps = identity <$> ps.
Proof.
  apply list_eq. intros j. rewrite !list_lookup_fmap, extend_lookup.
  by destruct (ps !! j).
Qed.

Lemma addTag_extend (tag : ProcessedTag) (ps : table) (j : nat) :
  addTag tag ps j = extend (hits tag [j]) ps.
Proof.
  unfold addTag. apply list_eq. intros k. rewrite extend_lookup.
  unfold hits. simpl. destruct (ps !! j) as [p|] eqn:E.
  - destruct (decide (j = k)) as [->|Hne].
    + rewrite list_lookup_insert_eq by (by eapply lookup_lt_Some). by rewrite E.
    + rewrite list_lookup_insert_ne by done.
      destruct (ps !! k); [|done]. simpl. by rewrite appendTags_nil.
  - destruct (decide (j = k)) as [->|Hne].
    + by rewrite E.
    + destruct (ps !! k); [|done]. simpl. by rewrite appendTags_nil.
Qed.

Lemma hits_cons (tag : ProcessedTag) (k : nat) (js : list nat) (j : nat) :
  hits tag (k :: js) j = hits tag [k] j ++ hits tag js j.
Proof. unfold hits. simpl. by rewrite app_nil_r. Qed.

Lemma hits_app (tag : ProcessedTag) (js1 js2 : list nat) (j : nat) :
  hits tag (js1 ++ js2) j = hits tag js1 j ++ hits tag js2 j.
Proof. unfold hits. by rewrite flat_map_app. Qed.

Lemma addTags_extend (tag : ProcessedTag) (js : list nat) (ps : table) :
  foldl (addTag tag) ps js = extend (hits tag js) ps.
Proof.
  revert ps. induction js as [|k js IH]; intros ps; simpl.
  - by rewrite extend_id.
  - rewrite IH, addTag_extend, extend_extend. apply extend_ext. intros j _.
    by rewrite (hits_cons tag k js).
Qed.

Lemma hits_NoDup (tag : ProcessedTag) (js : list nat) (j : nat) :
  NoDup js → hits tag js j = if decide (j ∈ js) then [tag] else [].
Proof.
  induction 1 as [|k js Hk Hjs IH].
  - by rewrite decide_False by apply not_elem_of_nil.
  - rewrite hits_cons, IH. unfold hits. simpl.
    destruct (decide (k = j)) as [->|Hne].
    + rewrite (decide_False (P := j ∈ js)) by done.
      by rewrite decide_True by apply list_elem_of_here.
    + destruct (decide (j ∈ js)) as [Hin|Hin].
      * by rewrite decide_True by (by apply list_elem_of_further).
      * rewrite decide_False; [done|]. intros [->|?]%elem_of_cons; done.
Qed.

Lemma hits_Forall (tag : ProcessedTag) (js : list nat) (j : nat) :
  Forall (fun t => t = tag) (hits tag js j).
Proof.
  unfold hits. induction js as [|k js IH]; simpl; [constructor|].
  destruct (decide (k = j)); simpl; [by constructor|done].
Qed.

Lemma identity_lookup (ps ps' : table) (j : nat) :
  identity <$> ps = identity <$> ps' →
  identity <$> ps !! j = identity <$> ps' !! j.
Proof. intros H. by rewrite <- !list_lookup_fmap, H. Qed.

(** ** The positions that the two walks write to *)

Lemma shape_lookup (ps ps' : table) (j : nat) (p : processedSpan) :
  identity <$> ps = identity <$> ps' → ps !! j = Some p →
  ∃ p', ps' !! j = Some p' ∧ identity p' = identity p.
Proof.
  intros H Hp. apply (identity_lookup _ _ j) in H. rewrite Hp in H. simpl in H.
  destruct (ps' !! j) as [p'|]; [|done]. exists p'. split; [done|].
  simpl in H. by apply (inj Some) in H.
Qed.

Lemma shape_lookup_None (ps ps' : table) (j : nat) :
  identity <$> ps = identity <$> ps' → ps !! j = None → ps' !! j = None.
Proof.
  intros H Hp. apply (identity_lookup _ _ j) in H. rewrite Hp in H. simpl in H.
  by destruct (ps' !! j).
Qed.

Lemma identity_SpanID (p p' : processedSpan) :
  identity p' = identity p → SpanID p' = SpanID p.
Proof. by intros [= _ _ ? _ _ _]. Qed.

Lemma identity_ParentSpanID (p p' : processedSpan) :
  identity p' = identity p → ParentSpanID p' = ParentSpanID p.
Proof. by intros [= _ _ _ ? _ _]. Qed.

Lemma upTargets_shape (fuel : nat) (spans : gmap Z nat) (ps ps' : table) (pid : Z) :
  identity <$> ps = identity <$> ps' →
  upTargets fuel spans ps pid = upTargets fuel spans ps' pid.
Proof.
  intros H. revert pid. induction fuel as [|fuel IH]; intros pid; simpl; [done|].
  destruct (spans !! pid) as [j|]; [|done].
  destruct (ps !! j) as [p|] eqn:E.
  - destruct (shape_lookup ps ps' j p H E) as [p' [-> Hid]].
    by rewrite (identity_ParentSpanID _ _ Hid), IH.
  - by rewrite (shape_lookup_None ps ps' j H E).
Qed.

Lemma downTargets_shape (fuel : nat) (children : gmap Z (list nat)) (ps ps' : table)
    (sid : Z) :
  identity <$> ps = identity <$> ps' →
  downTargets fuel children ps sid = downTargets fuel children ps' sid.
Proof.
  intros H. revert sid. induction fuel as [|fuel IH]; intros sid; simpl; [done|].
  apply foldM_ext. intros acc c.
  destruct (ps !! c) as [p|] eqn:E.
  - destruct (shape_lookup ps ps' c p H E) as [p' [-> Hid]].
    by rewrite (identity_SpanID _ _ Hid), IH.
  - by rewrite (shape_lookup_None ps ps' c H E).
Qed.

Lemma identity_addTags (tag : ProcessedTag) (js : list nat) (ps : table) :
  identity <$> foldl (addTag tag) ps js = identity <$> ps.
Proof. by rewrite addTags_extend, identity_extend. Qed.

Lemma identity_addTag (tag : ProcessedTag) (j : nat) (ps : table) :
  identity <$> addTag tag ps j = identity <$> ps.
Proof. by rewrite addTag_extend, identity_extend. Qed.

Lemma addTag_Some (tag : ProcessedTag) (ps : table) (j : nat) (p : processedSpan) :
  ps !! j = Some p → <[j := appendTag tag p]> ps = addTag tag ps j.
Proof. intros H. unfold addTag. by rewrite H. Qed.

(** The loop of [propagateTagUpwards] writes the tag to the positions of
    [upTargets] and does nothing else. *)
Lemma walkUp_targets (fuel : nat) (tag : ProcessedTag) (pid : Z) (spans : gmap Z nat)
    (ps : table) :
  walkUp fuel tag pid spans ps
  = upTargets fuel spans ps pid ≫= fun js => Ok (foldl (addTag tag) ps js).
Proof.
  revert pid ps. induction fuel as [|fuel IH]; intros pid ps; simpl; [done|].
  destruct (spans !! pid) as [j|]; [|done].
  destruct (ps !! j) as [p|] eqn:E; [|done].
  rewrite IH, (addTag_Some tag ps j p E).
  rewrite (upTargets_shape fuel spans _ ps) by apply identity_addTag.
  by destruct (upTargets fuel spans ps (ParentSpanID p)).
Qed.

Lemma downCopy_idemp (tag : ProcessedTag) : downCopy (downCopy tag) = downCopy tag.
Proof. reflexivity. Qed.

(** [propagateInheritTagDownwards] writes the copy of the tag to the positions
    of [downTargets] and does nothing else. *)
Lemma propagateInheritTagDownwards_targets (fuel : nat) (tag : ProcessedTag) (sid : Z)
    (children : gmap Z (list nat)) (ps : table) :
  propagateInheritTagDownwards fuel tag sid children ps
  = downTargets fuel children ps sid
      ≫= fun js => Ok (foldl (addTag (downCopy tag)) ps js).
Proof.
  revert tag sid ps. induction fuel as [|fuel IH]; intros tag sid ps; simpl; [done|].
  generalize (childrenOf children sid). intros cs.
  change ps with (foldl (addTag (downCopy tag)) ps []) at 1.
  generalize (@nil nat) at 1 2. intros acc. revert acc.
  induction cs as [|c cs IHcs]; intros acc; simpl; [done|].
  destruct (ps !! c) as [p|] eqn:E.
  - assert (identity <$> foldl (addTag (downCopy tag)) ps acc = identity <$> ps) as Hsh
      by apply identity_addTags.
    destruct (shape_lookup ps _ c p (eq_sym Hsh) E) as [p' [E' Hid]].
    rewrite E', IH, downCopy_idemp, (identity_SpanID _ _ Hid).
    rewrite (addTag_Some _ _ c p' E').
    rewrite (downTargets_shape fuel children _ ps)
      by (by rewrite identity_addTag, identity_addTags).
    destruct (downTargets fuel children ps (SpanID p)) as [js| |]; simpl; [|done..].
    assert (foldl (addTag (downCopy tag))
              (addTag (downCopy tag) (foldl (addTag (downCopy tag)) ps acc) c) js
            = foldl (addTag (downCopy tag)) ps (acc ++ c :: js)) as ->
      by (by rewrite foldl_app).
    apply IHcs.
  - assert (identity <$> foldl (addTag (downCopy tag)) ps acc = identity <$> ps) as Hsh
      by apply identity_addTags.
    by rewrite (shape_lookup_None ps _ c (eq_sym Hsh) E).
Qed.

(** ** The shape shared by the two passes

    Both passes of [ProcessSnapshot] run over the table position by position,
    and for each eligible tag of the span at hand write a copy of the tag to
    the positions that a walk from that span yields.  The walk reads the ids
    of the spans and not their tags, and a copy is never eligible itself. *)

Section Pass.

Variable eligible : ProcessedTag → bool.
Variable copy : ProcessedTag → ProcessedTag.
Variable walk : table → processedSpan → result (list nat).
Variable call : ProcessedTag → processedSpan → table → result table.

Hypothesis copy_not_eligible : ∀ t, eligible (copy t) = false.
Hypothesis walk_shape : ∀ ps ps' s s',
  identity <$> ps = identity <$> ps' → identity s = identity s' →
  walk ps s = walk ps' s'.
Hypothesis call_walk : ∀ t s ps,
  call t s ps = walk ps s ≫= fun js => Ok (extend (hits (copy t) js) ps).

Lemma received_not_eligible (j : nat) (tags : list ProcessedTag) (js : list nat) :
  Forall (fun t => eligible t = false) (received eligible copy j tags js).
Proof.
  unfold received. induction (triggers eligible tags) as [|t l IH]; simpl; [constructor|].
  apply Forall_app. split; [|done].
  eapply Forall_impl; [apply hits_Forall|]. intros t' ->. apply copy_not_eligible.
Qed.

Lemma triggers_app_not_eligible (tags extra : list ProcessedTag) :
  Forall (fun t => eligible t = false) extra → triggers eligible (tags ++ extra) = triggers eligible tags.
Proof.
  intros H. unfold triggers. rewrite filter_app.
  assert (filter (fun t => eligible t = true) extra = []) as ->; [|by rewrite app_nil_r].
  induction H as [|t l Ht Hl IH]; [done|].
  rewrite filter_cons_False; [done|]. by rewrite Ht.
Qed.

Lemma round_tags (s : processedSpan) (tags : list ProcessedTag) (ps : table) :
  foldM (fun ps t => if eligible t then call t s ps else Ok ps) ps tags
  = (if decide (triggers eligible tags = []) then Ok [] else walk ps s)
      ≫= fun js => Ok (extend (fun j => received eligible copy j tags js) ps).
Proof.
  revert ps. induction tags as [|t tags IH]; intros ps.
  - simpl. by rewrite extend_id.
  - simpl foldM. unfold received, triggers in *.
    destruct (eligible t) eqn:Et.
    + rewrite filter_cons_True by done.
      rewrite decide_False by done.
      rewrite call_walk. destruct (walk ps s) as [js| |] eqn:Ew; simpl; [|done..].
      rewrite IH.
      rewrite (walk_shape _ ps s s) by (done || apply identity_extend).
      rewrite Ew.
      destruct (decide (filter (fun t => eligible t = true) tags = [])) as [E|E]; simpl.
      * rewrite E. simpl. by rewrite extend_extend.
      * by rewrite extend_extend.
    + rewrite filter_cons_False by (by rewrite Et). simpl. apply IH.
Qed.

Lemma round_extended (E : nat → list ProcessedTag) (ps0 : table) (k : nat)
    (s : processedSpan) :
  ps0 !! k = Some s →
  Forall (fun t => eligible t = false) (E k) →
  roundOf eligible call (appendTags (E k) s) (extend E ps0)
  = walkFor eligible walk ps0 s
      ≫= fun js => Ok (extend (fun j => E j ++ received eligible copy j (Tags s) js) ps0).
Proof.
  intros Hs HE. unfold roundOf, walkFor. rewrite round_tags. simpl Tags.
  rewrite (triggers_app_not_eligible _ _ HE).
  rewrite (walk_shape _ ps0 _ s) by (done || apply identity_extend).
  destruct (if decide (triggers eligible (Tags s) = []) then Ok [] else walk ps0 s)
    as [js| |]; simpl; [|done..].
  rewrite extend_extend. f_equal. apply extend_ext. intros j _. f_equal.
  unfold received. by rewrite (triggers_app_not_eligible _ _ HE).
Qed.

Lemma pass_suffix (ps0 suf : table) :
  ∀ (pre : table) (E : nat → list ProcessedTag),
    ps0 = pre ++ suf →
    (∀ j, Forall (fun t => eligible t = false) (E j)) →
    foldM (fun ps i =>
             match ps !! i with
             | None => Ok ps
             | Some s => roundOf eligible call s ps
             end)
          (extend E ps0) (seq (length pre) (length suf))
    = mapM (walkFor eligible walk ps0) suf
        ≫= fun walks =>
             Ok (extend (fun j => E j ++ receivedAll eligible copy suf walks j) ps0).
Proof.
  induction suf as [|s suf IH]; intros pre E Hps HE.
  - simpl. f_equal. apply extend_ext. intros j _. by rewrite app_nil_r.
  - simpl seq. simpl foldM. simpl mapM.
    assert (ps0 !! length pre = Some s) as Hs
      by (rewrite Hps; apply list_lookup_middle; done).
    rewrite extend_lookup, Hs. simpl.
    rewrite (round_extended E ps0 (length pre) s Hs (HE _)).
    destruct (walkFor eligible walk ps0 s) as [js| |]; simpl; [|done..].
    specialize (IH (pre ++ [s]) (fun j => E j ++ received eligible copy j (Tags s) js)).
    rewrite length_app in IH. simpl in IH.
    replace (length pre + 1)%nat with (S (length pre)) in IH by lia.
    rewrite IH.
    + destruct (mapM (walkFor eligible walk ps0) suf) as [walks| |]; simpl; [|done..].
      f_equal. apply extend_ext. intros j _. unfold receivedAll. simpl.
      by rewrite app_assoc.
    + by rewrite <- app_assoc.
    + intros j. apply Forall_app. split; [done|]. apply received_not_eligible.
Qed.

(** A pass over a table whose spans already hold the additional tags [E],
    none of them eligible. *)
Lemma pass_extended (E : nat → list ProcessedTag) (ps0 : table) :
  (∀ j, Forall (fun t => eligible t = false) (E j)) →
  passOf eligible call (extend E ps0)
  = mapM (walkFor eligible walk ps0) ps0
      ≫= fun walks => Ok (extend (fun j => E j ++ receivedAll eligible copy ps0 walks j) ps0).
Proof.
  intros HE. unfold passOf. rewrite extend_length.
  by apply (pass_suffix ps0 ps0 []).
Qed.

End Pass.

(** ** The two passes as instances *)

Lemma propagateUpPass_passOf (fuel : nat) (spans : gmap Z nat) (ps : table) :
  propagateUpPass fuel spans ps
  = passOf upEligible (fun t s ps => propagateTagUpwards fuel t s spans ps) ps.
Proof.
  unfold propagateUpPass, passOf. apply foldM_ext. intros ps' i.
  destruct (ps' !! i) as [s|]; [|done].
  unfold propagateUpSpan, roundOf. apply foldM_ext. intros ps'' t.
  unfold upEligible. by destruct (PropagateUp t), (CopiedFromChild t).
Qed.

Lemma propagateDownPass_passOf (fuel : nat) (children : gmap Z (list nat)) (ps : table) :
  propagateDownPass fuel children ps
  = passOf downEligible
      (fun t s ps => propagateInheritTagDownwards fuel t (SpanID s) children ps) ps.
Proof.
  unfold propagateDownPass, passOf. apply foldM_ext. intros ps' i.
  destruct (ps' !! i) as [s|]; [|done].
  unfold propagateDownSpan, roundOf. apply foldM_ext. intros ps'' t.
  unfold downEligible. by destruct (Inherit t), (Inherited t).
Qed.

Lemma upCopy_not_eligible (t : ProcessedTag) : upEligible (upCopy t) = false.
Proof. unfold upEligible. simpl. apply andb_false_r. Qed.

Lemma upCopy_not_downEligible (t : ProcessedTag) : downEligible (upCopy t) = false.
Proof. reflexivity. Qed.

Lemma downCopy_not_eligible (t : ProcessedTag) : downEligible (downCopy t) = false.
Proof. unfold downEligible. simpl. apply andb_false_r. Qed.

Lemma upWalk_shape (fuel : nat) (spans : gmap Z nat) (ps ps' : table)
    (s s' : processedSpan) :
  identity <$> ps = identity <$> ps' → identity s = identity s' →
  upWalk fuel spans ps s = upWalk fuel spans ps' s'.
Proof.
  intros H Hs. unfold upWalk.
  by rewrite (identity_ParentSpanID _ _ Hs), (upTargets_shape _ _ ps ps').
Qed.

Lemma downWalk_shape (fuel : nat) (children : gmap Z (list nat)) (ps ps' : table)
    (s s' : processedSpan) :
  identity <$> ps = identity <$> ps' → identity s = identity s' →
  downWalk fuel children ps s = downWalk fuel children ps' s'.
Proof.
  intros H Hs. unfold downWalk.
  by rewrite (identity_SpanID _ _ Hs), (downTargets_shape _ _ ps ps').
Qed.

Lemma propagateTagUpwards_walk (fuel : nat) (spans : gmap Z nat) (t : ProcessedTag)
    (s : processedSpan) (ps : table) :
  propagateTagUpwards fuel t s spans ps
  = upWalk fuel spans ps s ≫= fun js => Ok (extend (hits (upCopy t) js) ps).
Proof.
  unfold propagateTagUpwards, upWalk. rewrite walkUp_targets.
  destruct (upTargets fuel spans ps (ParentSpanID s)); simpl; [|done..].
  by rewrite addTags_extend.
Qed.

Lemma propagateInheritTagDownwards_walk (fuel : nat) (children : gmap Z (list nat))
    (t : ProcessedTag) (s : processedSpan) (ps : table) :
  propagateInheritTagDownwards fuel t (SpanID s) children ps
  = downWalk fuel children ps s ≫= fun js => Ok (extend (hits (downCopy t) js) ps).
Proof.
  unfold downWalk. rewrite propagateInheritTagDownwards_targets.
  destruct (downTargets fuel children ps (SpanID s)); simpl; [|done..].
  by rewrite addTags_extend.
Qed.

(** The upward pass on a table whose spans hold additional tags [E] that are
    not eligible. *)
Lemma propagateUpPass_extended (fuel : nat) (spans : gmap Z nat)
    (E : nat → list ProcessedTag) (ps0 : table) :
  (∀ j, Forall (fun t => upEligible t = false) (E j)) →
  propagateUpPass fuel spans (extend E ps0)
  = mapM (walkFor upEligible (upWalk fuel spans) ps0) ps0
      ≫= fun walks =>
           Ok (extend (fun j => E j ++ receivedAll upEligible upCopy ps0 walks j) ps0).
Proof.
  intros HE. rewrite propagateUpPass_passOf.
  apply (pass_extended upEligible upCopy (upWalk fuel spans)); [| | |done].
  - apply upCopy_not_eligible.
  - apply upWalk_shape.
  - intros t s ps. apply propagateTagUpwards_walk.
Qed.

Lemma propagateDownPass_extended (fuel : nat) (children : gmap Z (list nat))
    (E : nat → list ProcessedTag) (ps0 : table) :
  (∀ j, Forall (fun t => downEligible t = false) (E j)) →
  propagateDownPass fuel children (extend E ps0)
  = mapM (walkFor downEligible (downWalk fuel children) ps0) ps0
      ≫= fun walks =>
           Ok (extend (fun j => E j ++ receivedAll downEligible downCopy ps0 walks j) ps0).
Proof.
  intros HE. rewrite propagateDownPass_passOf.
  apply (pass_extended downEligible downCopy (downWalk fuel children)); [| | |done].
  - apply downCopy_not_eligible.
  - apply downWalk_shape.
  - intros t s ps. apply propagateInheritTagDownwards_walk.
Qed.

(** Whatever a pass writes is a copy. *)
Lemma receivedAll_copies (eligible : ProcessedTag → bool) (copy : ProcessedTag → ProcessedTag)
    (P : ProcessedTag → Prop) (ps0 : table) (walks : list (list nat)) (j : nat) :
  (∀ t, P (copy t)) → Forall P (receivedAll eligible copy ps0 walks j).
Proof.
  intros HP. unfold receivedAll. revert walks.
  induction ps0 as [|s ps0 IH]; intros [|js walks]; simpl; try constructor.
  apply Forall_app. split; [|apply IH].
  unfold received. induction (triggers eligible (Tags s)) as [|t l IHl]; simpl; [constructor|].
  apply Forall_app. split; [|done].
  eapply Forall_impl; [apply hits_Forall|]. by intros t' ->.
Qed.

(** ** The indexes *)

Lemma spanIndex_snoc (ps : table) (p : processedSpan) :
  spanIndex (ps ++ [p]) = <[SpanID p := length ps]> (spanIndex ps).
Proof.
  unfold spanIndex. rewrite imap_app, foldl_app. simpl.
  by rewrite Nat.add_0_r.
Qed.

Lemma childIndex_snoc (ps : table) (p : processedSpan) :
  childIndex (ps ++ [p]) = addChild (childIndex ps) (length ps) p.
Proof.
  unfold childIndex. rewrite imap_app, foldl_app. simpl.
  by rewrite Nat.add_0_r.
Qed.

Lemma index_fold (r : nat → gmap string string → list string)
    (snap : tracing.SpansSnapshot) (spans : list tracingpb.RecordedSpan) (ps0 : table) :
  foldM (indexSpan r snap) (ps0, spanIndex ps0, childIndex ps0) spans
  = mapM (fun x => processSpan (r x.1) x.2 snap)
         (imap (fun i s => ((length ps0 + i)%nat, s)) spans)
      ≫= fun new => Ok (ps0 ++ new, spanIndex (ps0 ++ new), childIndex (ps0 ++ new)).
Proof.
  revert ps0. induction spans as [|s spans IH]; intros ps0; simpl.
  - by rewrite app_nil_r.
  - rewrite Nat.add_0_r.
    destruct (processSpan (r (length ps0)) s snap) as [p| |]; simpl; [|done..].
    fold (addChild (childIndex ps0) (length ps0) p).
    rewrite <- spanIndex_snoc, <- childIndex_snoc, IH.
    rewrite (imap_ext (fun i s0 => ((length (ps0 ++ [p]) + i)%nat, s0))
                      ((fun i s0 => ((length ps0 + i)%nat, s0)) ∘ S))
      by (intros i s0 _; simpl; rewrite length_app; simpl; f_equal; lia).
    destruct (mapM _ (imap _ spans)) as [new| |]; simpl; [|done..].
    by rewrite <- !app_assoc.
Qed.

(** [ProcessSnapshot] in one equation: the enriched spans, the walks of the
    two passes, and what each position receives from them. *)
Lemma ProcessSnapshot_eq (order : rangeOrder) (fuel : nat) (snap : tracing.SpansSnapshot) :
  validRange order →
  ProcessSnapshot order fuel snap
  = init ← enrich (tagOrder order) snap;
    ups ← mapM (walkFor upEligible (upWalk fuel (spanIndex init)) init) init;
    downs ← mapM (walkFor downEligible (downWalk fuel (childIndex init)) init) init;
    Ok {| Spans :=
            extend (fun j => receivedAll upEligible upCopy init ups j
                             ++ receivedAll downEligible downCopy init downs j) init;
          Stacks := stitchStacks (tracing.Stacks snap) (concat (tracing.Traces snap)) |}.
Proof.
  intros [_ Hst]. unfold ProcessSnapshot, enrich.
  change (@nil processedSpan, @empty (gmap Z nat) _, @empty (gmap Z (list nat)) _)
    with (@nil processedSpan, spanIndex [], childIndex []).
  rewrite index_fold.
  change (imap (fun i s => ((length (@nil processedSpan) + i)%nat, s)))
    with (imap (@pair nat tracingpb.RecordedSpan)).
  destruct (mapM _ (imap pair (concat (tracing.Traces snap)))) as [init| |];
    simpl; [|done..].
  rewrite <- (extend_id (fun _ => []) init) at 2 by done.
  rewrite propagateUpPass_extended by (intros; constructor).
  destruct (mapM (walkFor upEligible _ init) init) as [ups| |]; simpl; [|done..].
  rewrite propagateDownPass_extended.
  - destruct (mapM (walkFor downEligible _ init) init) as [downs| |]; simpl; [|done..].
    by rewrite (copyStacks_copies _ _ (Hst _)).
  - intros j. apply receivedAll_copies, upCopy_not_downEligible.
Qed.

Lemma ProcessSnapshot_Ok (order : rangeOrder) (fuel : nat) (snap : tracing.SpansSnapshot)
    (out : ProcessedSnapshot) :
  validRange order →
  ProcessSnapshot order fuel snap = Ok out →
  ∃ init ups downs,
    enrich (tagOrder order) snap = Ok init ∧
    mapM (walkFor upEligible (upWalk fuel (spanIndex init)) init) init = Ok ups ∧
    mapM (walkFor downEligible (downWalk fuel (childIndex init)) init) init = Ok downs ∧
    Spans out = extend (fun j => receivedAll upEligible upCopy init ups j
                                 ++ receivedAll downEligible downCopy init downs j) init ∧
    Stacks out = stitchStacks (tracing.Stacks snap) (concat (tracing.Traces snap)).
Proof.
  intros Hv H. rewrite ProcessSnapshot_eq in H by done.
  apply bind_Ok in H as [init [Hinit H]].
  apply bind_Ok in H as [ups [Hups H]].
  apply bind_Ok in H as [downs [Hdowns H]].
  injection H as <-. by exists init, ups, downs.
Qed.

(** ** More fuel does not change a result *)

Lemma foldM_Ok_mono {A B : Type} (f g : B → A → result B) (l : list A) (b r : B) :
  (∀ b x b', f b x = Ok b' → g b x = Ok b') →
  foldM f b l = Ok r → foldM g b l = Ok r.
Proof.
  intros H. revert b. induction l as [|x l IH]; intros b; simpl; [done|].
  intros Hf. apply bind_Ok in Hf as [b' [Hb' Hf]].
  rewrite (H _ _ _ Hb'). simpl. by apply IH.
Qed.

Lemma mapM_Ok_mono {A B : Type} (f g : A → result B) (l : list A) (r : list B) :
  (∀ x y, f x = Ok y → g x = Ok y) → mapM f l = Ok r → mapM g l = Ok r.
Proof.
  intros H. rewrite !mapM_Ok_Forall2. intros HF. eapply Forall2_impl; [exact HF|].
  auto.
Qed.

Lemma upTargets_mono (fuel fuel' : nat) (spans : gmap Z nat) (ps : table) (pid : Z)
    (js : list nat) :
  (fuel ≤ fuel')%nat →
  upTargets fuel spans ps pid = Ok js → upTargets fuel' spans ps pid = Ok js.
Proof.
  revert fuel' pid js. induction fuel as [|fuel IH]; intros fuel' pid js Hle; [done|].
  destruct fuel' as [|fuel']; [lia|]. simpl.
  destruct (spans !! pid) as [j|]; [|done].
  destruct (ps !! j) as [p|]; [|done].
  intros H. apply bind_Ok in H as [js' [Hjs' H]].
  by rewrite (IH fuel' _ js') by (done || lia).
Qed.

Lemma downTargets_mono (fuel fuel' : nat) (children : gmap Z (list nat)) (ps : table)
    (sid : Z) (js : list nat) :
  (fuel ≤ fuel')%nat →
  downTargets fuel children ps sid = Ok js → downTargets fuel' children ps sid = Ok js.
Proof.
  revert fuel' sid js. induction fuel as [|fuel IH]; intros fuel' sid js Hle; [done|].
  destruct fuel' as [|fuel']; [lia|]. simpl.
  apply foldM_Ok_mono. intros acc c acc'.
  destruct (ps !! c) as [p|]; [|done].
  intros H. apply bind_Ok in H as [js' [Hjs' H]].
  by rewrite (IH fuel' _ js') by (done || lia).
Qed.

Lemma walkFor_mono (eligible : ProcessedTag → bool)
    (walk walk' : table → processedSpan → result (list nat)) (ps0 : table)
    (s : processedSpan) (js : list nat) :
  (∀ js, walk ps0 s = Ok js → walk' ps0 s = Ok js) →
  walkFor eligible walk ps0 s = Ok js → walkFor eligible walk' ps0 s = Ok js.
Proof. unfold walkFor. intros H. destruct (decide _); auto. Qed.

Lemma ProcessSnapshot_fuel_mono (order : rangeOrder) (fuel fuel' : nat)
    (snap : tracing.SpansSnapshot) (out : ProcessedSnapshot) :
  validRange order → (fuel ≤ fuel')%nat →
  ProcessSnapshot order fuel snap = Ok out → ProcessSnapshot order fuel' snap = Ok out.
Proof.
  intros Hv Hle H.
  destruct (ProcessSnapshot_Ok _ _ _ _ Hv H) as (init & ups & downs & Hi & Hu & Hd & Hs & Hst).
  rewrite ProcessSnapshot_eq by done. rewrite Hi. simpl.
  rewrite (mapM_Ok_mono _ _ _ ups
             (fun s js => walkFor_mono upEligible _ (upWalk fuel' (spanIndex init)) init s js
                            (fun js' => upTargets_mono fuel fuel' _ _ _ js' Hle)) Hu).
  simpl.
  rewrite (mapM_Ok_mono _ _ _ downs
             (fun s js => walkFor_mono downEligible _ (downWalk fuel' (childIndex init)) init s js
                            (fun js' => downTargets_mono fuel fuel' _ _ _ js' Hle)) Hd).
  simpl. destruct out as [sp st]. simpl in *. by rewrite Hs, Hst.
Qed.

(** C10: two runs of [ProcessSnapshot] on the same snapshot agree, whatever
    the order in which each [range] statement of each run visits its Go map
    (the tags of each span, two spans with the same tags included, and the
    stacks) and whatever the bounds on their walks: with the same bound they
    return the same outcome, and two outputs are equal, the order of every
    tag list included. *)
Theorem ProcessSnapshot_deterministic (order1 order2 : rangeOrder)
    (snap : tracing.SpansSnapshot) :
  validRange order1 → validRange order2 →
  (∀ fuel, ProcessSnapshot order1 fuel snap = ProcessSnapshot order2 fuel snap) ∧
  (∀ fuel1 fuel2 out1 out2,
     ProcessSnapshot order1 fuel1 snap = Ok out1 →
     ProcessSnapshot order2 fuel2 snap = Ok out2 →
     out1 = out2).
Proof.
  intros H1 H2. split.
  - intros fuel. by apply ProcessSnapshot_order_irrelevant.
  - intros fuel1 fuel2 out1 out2 Ho1 Ho2.
    apply (ProcessSnapshot_fuel_mono _ _ (fuel1 `max` fuel2)) in Ho1; [|done|lia].
    apply (ProcessSnapshot_fuel_mono _ _ (fuel1 `max` fuel2)) in Ho2; [|done|lia].
    rewrite (ProcessSnapshot_order_irrelevant order1 order2) in Ho1 by done.
    congruence.
Qed.

Lemma keysReversed_valid : validRange keysReversed.
Proof. split; [intros i m | intros m]; simpl; apply reverse_Permutation. Qed.

Lemma keysByTurns_valid : validRange keysByTurns.
Proof.
  split; [intros i m | intros m]; simpl; [|apply reverse_Permutation].
  destruct (Nat.even i); [done | apply reverse_Permutation].
Qed.

(** On [snapManyTags] the two orders differ: the four tags of the second
    span and the three stacks are visited in opposite orders, and the third
    span, which has the same tags as the second, has them visited in the
    order that [keysInOrder] gives to both. *)
Example keysByTurns_differs :
  tagOrder keysInOrder 1 (list_to_map [("statement", "SELECT 7"); ("node", "n1");
                                       ("zone", "z1"); ("app", "a1")])
  = ["statement"; "app"; "node"; "zone"] ∧
  tagOrder keysByTurns 1 (list_to_map [("statement", "SELECT 7"); ("node", "n1");
                                       ("zone", "z1"); ("app", "a1")])
  = ["zone"; "node"; "app"; "statement"] ∧
  tagOrder keysByTurns 2 (list_to_map [("statement", "SELECT 7"); ("node", "n1");
                                       ("zone", "z1"); ("app", "a1")])
  = ["statement"; "app"; "node"; "zone"] ∧
  stackOrder keysInOrder (tracing.Stacks snapManyTags)
  = [(7, "main.run"); (9, "kv.scan"); (8, "sql.exec")] ∧
  stackOrder keysByTurns (tracing.Stacks snapManyTags)
  = [(8, "sql.exec"); (9, "kv.scan"); (7, "main.run")].
Proof. by vm_compute. Qed.

Lemma ProcessSnapshot_deterministic_witness :
  (∀ fuel, ProcessSnapshot keysInOrder fuel snapManyTags
           = ProcessSnapshot keysByTurns fuel snapManyTags) ∧
  (∀ fuel1 fuel2 out1 out2,
     ProcessSnapshot keysInOrder fuel1 snapManyTags = Ok out1 →
     ProcessSnapshot keysByTurns fuel2 snapManyTags = Ok out2 →
     out1 = out2).
Proof.
  apply (ProcessSnapshot_deterministic keysInOrder keysByTurns snapManyTags
           keysInOrder_valid keysByTurns_valid).
Defined.

(** The run on [snapManyTags] returns, with the sorted tags of each span
    followed by the copies. *)
Example snapManyTags_keys :
  (fun p => Key <$> Tags p)
    <$> Spans (outputOf (ProcessSnapshot keysByTurns 4 snapManyTags))
  = [ ["app"; "node"; "txn"; "zone"; "statement"; "statement"];
      ["app"; "node"; "statement"; "zone"; "statement"];
      ["app"; "node"; "statement"; "zone"; "statement"];
      ["_verbose"; "lock_holder_txn"; "store"] ].
Proof. by vm_compute. Qed.

(** ** Enrichment *)

Lemma processSpan_Ok (r : gmap string string → list string) (s : tracingpb.RecordedSpan)
    (snap : tracing.SpansSnapshot) (p : processedSpan) :
  processSpan r s snap = Ok p →
  sameIdentity s p ∧
  mapM (fun k => processTag k (map_get (tracingpb.Tags s) k) snap)
       (sortStrings (r (tracingpb.Tags s))) = Ok (Tags p).
Proof.
  unfold processSpan. intros H. apply bind_Ok in H as [tags [Htags [= <-]]].
  by repeat split.
Qed.

Lemma snd_imap_pair {A : Type} (l : list A) : (imap pair l).*2 = l.
Proof.
  apply list_eq. intros i. rewrite list_lookup_fmap, list_lookup_imap.
  by destruct (l !! i).
Qed.

Lemma enrich_Ok (r : nat → gmap string string → list string)
    (snap : tracing.SpansSnapshot) (init : table) :
  enrich r snap = Ok init →
  Forall2 (fun s p => ∃ i, processSpan (r i) s snap = Ok p)
          (concat (tracing.Traces snap)) init.
Proof.
  unfold enrich. rewrite mapM_Ok_Forall2. intros H.
  rewrite <- (snd_imap_pair (concat (tracing.Traces snap))).
  apply Forall2_fmap_l. eapply Forall2_impl; [exact H|].
  intros [i s] p Hp. by exists i.
Qed.

Lemma sameIdentity_identity (s : tracingpb.RecordedSpan) (p p' : processedSpan) :
  sameIdentity s p → identity p' = identity p → sameIdentity s p'.
Proof.
  unfold sameIdentity. intros (?&?&?&?&?&?) [= -> -> -> -> -> ->]. done.
Qed.

Lemma extend_onlyAddsTags (ext : nat → list ProcessedTag) (ps : table) :
  onlyAddsTags ps (extend ext ps).
Proof.
  apply Forall2_same_length_lookup. split; [by rewrite extend_length|].
  intros j p p' Hp. rewrite extend_lookup, Hp. intros [= <-].
  split; [done|]. by exists (ext j).
Qed.

Lemma propagateUpPass_onlyAddsTags (fuel : nat) (spans : gmap Z nat) (ps ps' : table) :
  propagateUpPass fuel spans ps = Ok ps' → onlyAddsTags ps ps'.
Proof.
  rewrite <- (extend_id (fun _ => []) ps) at 1 by done.
  rewrite propagateUpPass_extended by (intros; constructor).
  intros H. apply bind_Ok in H as [walks [_ [= <-]]]. apply extend_onlyAddsTags.
Qed.

Lemma propagateDownPass_onlyAddsTags (fuel : nat) (children : gmap Z (list nat))
    (ps ps' : table) :
  propagateDownPass fuel children ps = Ok ps' → onlyAddsTags ps ps'.
Proof.
  rewrite <- (extend_id (fun _ => []) ps) at 1 by done.
  rewrite propagateDownPass_extended by (intros; constructor).
  intros H. apply bind_Ok in H as [walks [_ [= <-]]]. apply extend_onlyAddsTags.
Qed.

Lemma ProcessSnapshot_identity (order : rangeOrder) (fuel : nat)
    (snap : tracing.SpansSnapshot) (out : ProcessedSnapshot) :
  validRange order →
  ProcessSnapshot order fuel snap = Ok out →
  Forall2 sameIdentity (concat (tracing.Traces snap)) (Spans out).
Proof.
  intros Hv H.
  destruct (ProcessSnapshot_Ok _ _ _ _ Hv H) as (init & ups & downs & Hi & _ & _ & Hs & _).
  rewrite Hs. apply enrich_Ok in Hi.
  apply Forall2_same_length_lookup. split.
  - rewrite extend_length. by eapply Forall2_length.
  - intros j s p' Hs' Hp'. rewrite extend_lookup in Hp'.
    destruct (init !! j) as [p|] eqn:E; [|done]. injection Hp' as <-.
    pose proof (Forall2_lookup_lr _ _ _ _ _ _ Hi Hs' E) as [i0 Hp].
    apply processSpan_Ok in Hp as [Hid _].
    by apply (sameIdentity_identity s p).
Qed.

(** C9: the spans of the output are the recorded spans in their order, each
    with the operation, trace id, span id, parent span id, start time and
    goroutine id of the recorded span it comes from; each of the two passes
    leaves these fields of every span as they are and only adds tags at the
    end of tag lists. *)
Theorem identity_fields_preserved (order : rangeOrder) (fuel : nat)
    (snap : tracing.SpansSnapshot) (out : ProcessedSnapshot) :
  validRange order →
  ProcessSnapshot order fuel snap = Ok out →
  Forall2 sameIdentity (concat (tracing.Traces snap)) (Spans out) ∧
  (∀ spans ps ps', propagateUpPass fuel spans ps = Ok ps' → onlyAddsTags ps ps') ∧
  (∀ children ps ps', propagateDownPass fuel children ps = Ok ps' → onlyAddsTags ps ps').
Proof.
  intros Hv H. split; [|split].
  - by eapply ProcessSnapshot_identity.
  - intros spans ps ps'. apply propagateUpPass_onlyAddsTags.
  - intros children ps ps'. apply propagateDownPass_onlyAddsTags.
Qed.

(** ** The stacks *)

Lemma fillStack_lookup (stacks : gmap Z string) (s : tracingpb.RecordedSpan) (k : Z) :
  fillStack stacks s !! k
  = match stacks !! k with
    | Some v => Some v
    | None =>
        if decide (k = int_of_uint64 (tracingpb.GoroutineID s))
        then Some goroutineNotFound else None
    end.
Proof.
  unfold fillStack.
  destruct (stacks !! int_of_uint64 (tracingpb.GoroutineID s)) as [v|] eqn:E.
  - destruct (stacks !! k) as [w|] eqn:Ek; [done|].
    rewrite decide_False; [done|]. intros ->. congruence.
  - destruct (decide (k = int_of_uint64 (tracingpb.GoroutineID s))) as [->|Hne].
    + by rewrite lookup_insert_eq, E.
    + rewrite lookup_insert_ne by done. by destruct (stacks !! k).
Qed.

Lemma stitchStacks_lookup (raw : gmap Z string) (spans : list tracingpb.RecordedSpan) (k : Z) :
  stitchStacks raw spans !! k
  = match raw !! k with
    | Some v => Some v
    | None =>
        if decide (k ∈ (fun s => int_of_uint64 (tracingpb.GoroutineID s)) <$> spans)
        then Some goroutineNotFound else None
    end.
Proof.
  unfold stitchStacks. revert raw. induction spans as [|s spans IH]; intros raw.
  - simpl. by destruct (raw !! k).
  - change (foldl fillStack raw (s :: spans))
      with (foldl fillStack (fillStack raw s) spans).
    rewrite fmap_cons, IH, fillStack_lookup. destruct (raw !! k) as [v|]; [done|].
    destruct (decide (k = int_of_uint64 (tracingpb.GoroutineID s))) as [->|Hne].
    + by rewrite decide_True by apply list_elem_of_here.
    + destruct (decide (k ∈ _ <$> spans)) as [Hin|Hin].
      * by rewrite decide_True by (by apply list_elem_of_further).
      * rewrite decide_False; [done|]. intros [?|?]%elem_of_cons; done.
Qed.

(** C8: in the output, every goroutine id of a span has a stack (under the
    key [int(GoroutineID)], as the code converts it); a stack of the snapshot
    is in the output as it is; and a key without a stack in the snapshot holds
    the fixed message when a span of the output has that goroutine id, and is
    absent from the output otherwise. *)
Theorem stacks_complete (order : rangeOrder) (fuel : nat)
    (snap : tracing.SpansSnapshot) (out : ProcessedSnapshot) :
  validRange order →
  ProcessSnapshot order fuel snap = Ok out →
  (∀ p, p ∈ Spans out → is_Some (Stacks out !! int_of_uint64 (GoroutineID p))) ∧
  (∀ k v, tracing.Stacks snap !! k = Some v → Stacks out !! k = Some v) ∧
  (∀ k, tracing.Stacks snap !! k = None →
        (∃ p, p ∈ Spans out ∧ int_of_uint64 (GoroutineID p) = k) →
        Stacks out !! k = Some goroutineNotFound) ∧
  (∀ k, tracing.Stacks snap !! k = None →
        (∀ p, p ∈ Spans out → int_of_uint64 (GoroutineID p) ≠ k) →
        Stacks out !! k = None).
Proof.
  intros Hv H.
  pose proof (ProcessSnapshot_identity _ _ _ _ Hv H) as Hid.
  destruct (ProcessSnapshot_Ok _ _ _ _ Hv H) as (init & ups & downs & _ & _ & _ & _ & Hst).
  assert (∀ k, k ∈ (fun s => int_of_uint64 (tracingpb.GoroutineID s))
                     <$> concat (tracing.Traces snap)
               ↔ ∃ p, p ∈ Spans out ∧ int_of_uint64 (GoroutineID p) = k) as Hgid.
  { intros k. rewrite list_elem_of_fmap. split.
    - intros [s [-> Hs]]. apply list_elem_of_lookup in Hs as [j Hj].
      destruct (Forall2_lookup_l _ _ _ _ _ Hid Hj) as [p [Hp (_&_&_&_&_&Hg)]].
      exists p. split; [by eapply list_elem_of_lookup_2|]. by rewrite Hg.
    - intros [p [Hp <-]]. apply list_elem_of_lookup in Hp as [j Hj].
      destruct (Forall2_lookup_r _ _ _ _ _ Hid Hj) as [s [Hs (_&_&_&_&_&Hg)]].
      exists s. split; [by rewrite Hg|]. by eapply list_elem_of_lookup_2. }
  rewrite Hst. repeat split.
  - intros p Hp. rewrite stitchStacks_lookup.
    destruct (tracing.Stacks snap !! _); [by eexists|].
    rewrite decide_True; [by eexists|]. apply Hgid. by exists p.
  - intros k v Hk. by rewrite stitchStacks_lookup, Hk.
  - intros k Hk Hp. rewrite stitchStacks_lookup, Hk.
    by rewrite decide_True by (by apply Hgid).
  - intros k Hk Hp. rewrite stitchStacks_lookup, Hk.
    rewrite decide_False; [done|]. intros [p [Hp' Hg]]%Hgid. by apply (Hp p).
Qed.

Lemma snapFamily_Ok : ProcessSnapshot keysInOrder 4 snapFamily = Ok outFamily.
Proof. by vm_compute. Qed.

Lemma snapScenarioA_Ok : ProcessSnapshot keysInOrder 4 snapScenarioA = Ok outScenarioA.
Proof. by vm_compute. Qed.

Lemma identity_fields_preserved_witness :
  Forall2 sameIdentity (concat (tracing.Traces snapFamily)) (Spans outFamily).
Proof.
  apply (identity_fields_preserved keysInOrder 4 snapFamily outFamily
           keysInOrder_valid snapFamily_Ok).
Defined.

Lemma stacks_complete_witness :
  Stacks outFamily !! 7 = Some "main.run" ∧
  Stacks outFamily !! 8 = Some goroutineNotFound ∧
  Stacks outFamily !! 9 = Some goroutineNotFound ∧
  Stacks outFamily !! 10 = None.
Proof.
  destruct (stacks_complete keysInOrder 4 snapFamily outFamily
              keysInOrder_valid snapFamily_Ok) as (_ & Hraw & Hnew & Hnone).
  split; [by apply Hraw|]. split; [|split].
  - apply Hnew; [done|]. eexists.
    split; [apply (list_elem_of_lookup_2 _ 2%nat); by vm_compute | by vm_compute].
  - apply Hnew; [done|]. eexists.
    split; [apply (list_elem_of_lookup_2 _ 3%nat); by vm_compute | by vm_compute].
  - apply Hnone; [done|]. intros p Hp. vm_compute in Hp.
    repeat (apply elem_of_cons in Hp as [->|Hp]; [by vm_compute|]).
    by apply elem_of_nil in Hp.
Defined.

(** ** What the spans receive *)

Lemma hits_elem (tag t : ProcessedTag) (js : list nat) (j : nat) :
  t ∈ hits tag js j ↔ t = tag ∧ j ∈ js.
Proof.
  unfold hits. induction js as [|k js IH]; simpl.
  - split; [by intros ?%elem_of_nil | by intros [_ ?%elem_of_nil]].
  - rewrite elem_of_app, IH, elem_of_cons. destruct (decide (k = j)) as [->|Hne].
    + rewrite list_elem_of_singleton. split.
      * intros [->|[-> ?]]; auto.
      * intros [-> _]. by left.
    + split.
      * intros [?%elem_of_nil|[-> ?]]; [done|auto].
      * intros [-> [?|?]]; [congruence|auto].
Qed.

Lemma received_elem (eligible : ProcessedTag → bool) (copy : ProcessedTag → ProcessedTag)
    (j : nat) (tags : list ProcessedTag) (js : list nat) (t : ProcessedTag) :
  t ∈ received eligible copy j tags js
  ↔ ∃ t0, t0 ∈ tags ∧ eligible t0 = true ∧ j ∈ js ∧ t = copy t0.
Proof.
  unfold received, triggers. induction tags as [|t1 tags IH]; simpl.
  - split; [by intros ?%elem_of_nil|].
    by intros (t0 & ?%elem_of_nil & _).
  - destruct (eligible t1) eqn:E1.
    + rewrite filter_cons_True by done. simpl.
      rewrite elem_of_app, IH, hits_elem. split.
      * intros [[-> Hj]|(t0 & Ht0 & He & Hj & ->)].
        -- exists t1. by repeat split; [apply list_elem_of_here|..].
        -- exists t0. by repeat split; [apply list_elem_of_further|..].
      * intros (t0 & [->|Ht0]%elem_of_cons & He & Hj & ->); [by left|].
        right. by exists t0.
    + rewrite filter_cons_False by (by rewrite E1). rewrite IH. split.
      * intros (t0 & Ht0 & He & Hj & ->).
        exists t0. by repeat split; [apply list_elem_of_further|..].
      * intros (t0 & [->|Ht0]%elem_of_cons & He & Hj & ->); [congruence|].
        by exists t0.
Qed.

Lemma receivedAll_elem (eligible : ProcessedTag → bool) (copy : ProcessedTag → ProcessedTag)
    (ps0 : table) (walks : list (list nat)) (j : nat) (t : ProcessedTag) :
  t ∈ receivedAll eligible copy ps0 walks j
  ↔ ∃ i s js t0, ps0 !! i = Some s ∧ walks !! i = Some js ∧
                 t0 ∈ Tags s ∧ eligible t0 = true ∧ j ∈ js ∧ t = copy t0.
Proof.
  unfold receivedAll. revert walks. induction ps0 as [|s ps0 IH]; intros walks.
  - simpl. split; [by intros ?%elem_of_nil | by intros (i & ? & ? & ? & ? & _)].
  - destruct walks as [|js walks].
    + simpl. split; [by intros ?%elem_of_nil |].
      by intros (i & ? & ? & ? & _ & ? & _).
    + simpl. rewrite elem_of_app, received_elem, IH. split.
      * intros [(t0 & Ht0 & He & Hj & ->)|(i & s' & js' & t0 & Hs & Hw & H)].
        -- by exists 0%nat, s, js, t0.
        -- by exists (S i), s', js', t0.
      * intros (i & s' & js' & t0 & Hs & Hw & Ht0 & He & Hj & ->).
        destruct i as [|i]; simpl in *.
        -- injection Hs as <-. injection Hw as <-. left. by exists t0.
        -- right. by exists i, s', js', t0.
Qed.

Lemma processTag_Ok (k v : string) (snap : tracing.SpansSnapshot) (t : ProcessedTag) :
  processTag k v snap = Ok t → Key t = k ∧ isOriginal t.
Proof.
  unfold processTag, isOriginal. destruct (String.eqb k "lock_holder_txn").
  - intros H. apply bind_Ok in H as [short [_ [= <-]]]. done.
  - destruct (String.eqb k "statement"); by intros [= <-].
Qed.

Lemma processSpan_tags (r : gmap string string → list string) (s : tracingpb.RecordedSpan)
    (snap : tracing.SpansSnapshot) (p : processedSpan) :
  processSpan r s snap = Ok p →
  Key <$> Tags p = sortStrings (r (tracingpb.Tags s)) ∧ Forall isOriginal (Tags p).
Proof.
  intros H. apply processSpan_Ok in H as [_ H]. apply mapM_Ok_Forall2 in H.
  induction H as [|k t ks ts Hkt _ [IH1 IH2]]; [by split|].
  apply processTag_Ok in Hkt as [<- Ho]. simpl. split; [by f_equal | by constructor].
Qed.

Lemma enrich_originals (r : nat → gmap string string → list string) (snap : tracing.SpansSnapshot)
    (init : table) (j : nat) (p : processedSpan) :
  enrich r snap = Ok init → init !! j = Some p → Forall isOriginal (Tags p).
Proof.
  intros Hi Hp. apply enrich_Ok in Hi.
  destruct (Forall2_lookup_r _ _ _ _ _ Hi Hp) as [s [_ [i0 Hs]]].
  by apply processSpan_tags in Hs as [_ ?].
Qed.

(** The spans of the output: the enriched span, then what the upward pass
    wrote to it, then what the downward pass wrote to it. *)
Lemma ProcessSnapshot_tags (order : rangeOrder) (fuel : nat) (snap : tracing.SpansSnapshot)
    (out : ProcessedSnapshot) :
  validRange order →
  ProcessSnapshot order fuel snap = Ok out →
  ∃ init ups downs,
    enrich (tagOrder order) snap = Ok init ∧
    mapM (walkFor upEligible (upWalk fuel (spanIndex init)) init) init = Ok ups ∧
    mapM (walkFor downEligible (downWalk fuel (childIndex init)) init) init = Ok downs ∧
    ∀ j p, Spans out !! j = Some p →
      ∃ p0, init !! j = Some p0 ∧ identity p = identity p0 ∧
            Tags p = Tags p0 ++ receivedAll upEligible upCopy init ups j
                             ++ receivedAll downEligible downCopy init downs j.
Proof.
  intros Hv H.
  destruct (ProcessSnapshot_Ok _ _ _ _ Hv H) as (init & ups & downs & Hi & Hu & Hd & Hs & _).
  exists init, ups, downs. repeat split; try done.
  intros j p Hp. rewrite Hs, extend_lookup in Hp.
  destruct (init !! j) as [p0|]; [|done]. injection Hp as <-. by exists p0.
Qed.

Lemma upward_copy_flags (init : table) (ups : list (list nat)) (j : nat) :
  (∀ i p, init !! i = Some p → Forall isOriginal (Tags p)) →
  Forall (fun t => CopiedFromChild t = true ∧ Inherit t = false ∧ Inherited t = false)
         (receivedAll upEligible upCopy init ups j).
Proof.
  intros Hinit. apply Forall_forall. intros t Ht.
  apply receivedAll_elem in Ht as (i & s & js & t0 & Hs & _ & Ht0 & _ & _ & ->).
  pose proof (Hinit i s Hs) as Ho. rewrite Forall_forall in Ho.
  destruct (Ho t0 Ht0) as [_ Hinh]. by repeat split.
Qed.

Lemma downward_copy_flags (init : table) (downs : list (list nat)) (j : nat) :
  (∀ i p, init !! i = Some p → Forall isOriginal (Tags p)) →
  Forall (fun t => Inherited t = true ∧ PropagateUp t = false ∧ Hidden t = true
                   ∧ CopiedFromChild t = false)
         (receivedAll downEligible downCopy init downs j).
Proof.
  intros Hinit. apply Forall_forall. intros t Ht.
  apply receivedAll_elem in Ht as (i & s & js & t0 & Hs & _ & Ht0 & _ & _ & ->).
  pose proof (Hinit i s Hs) as Ho. rewrite Forall_forall in Ho.
  destruct (Ho t0 Ht0) as [Hc _]. by repeat split.
Qed.

(** ** The copies, field by field *)

Lemma upCopy_isUpwardCopyOf (T : ProcessedTag) : isUpwardCopyOf T (upCopy T).
Proof. by repeat split. Qed.

Lemma downCopy_isDownwardCopyOf (T : ProcessedTag) : isDownwardCopyOf T (downCopy T).
Proof. by repeat split. Qed.

Lemma Forall2_fmap_copy {A B : Type} (R : A → B → Prop) (f : A → B) (l : list A) :
  (∀ x, R x (f x)) → Forall2 R l (f <$> l).
Proof. intros H. induction l as [|x l IH]; simpl; by constructor. Qed.

Lemma hits_fmap (copy : ProcessedTag → ProcessedTag) (t : ProcessedTag) (js : list nat)
    (j : nat) :
  hits (copy t) js j = copy <$> hits t js j.
Proof.
  unfold hits. induction js as [|k js IH]; simpl; [done|].
  rewrite fmap_app, IH. by destruct (decide (k = j)).
Qed.

Lemma received_fmap (eligible : ProcessedTag → bool) (copy : ProcessedTag → ProcessedTag)
    (j : nat) (tags : list ProcessedTag) (js : list nat) :
  received eligible copy j tags js = copy <$> received eligible id j tags js.
Proof.
  unfold received. induction (triggers eligible tags) as [|t l IH]; simpl; [done|].
  by rewrite fmap_app, IH, hits_fmap.
Qed.

Lemma receivedAll_fmap (eligible : ProcessedTag → bool) (copy : ProcessedTag → ProcessedTag)
    (ps0 : table) (walks : list (list nat)) (j : nat) :
  receivedAll eligible copy ps0 walks j = copy <$> appendedFrom eligible ps0 walks j.
Proof.
  unfold appendedFrom, receivedAll. revert walks.
  induction ps0 as [|s ps0 IH]; intros [|js walks]; simpl; try done.
  by rewrite fmap_app, IH, received_fmap.
Qed.

Lemma copiesFrom_fmap (eligible : ProcessedTag → bool) (copy : ProcessedTag → ProcessedTag)
    (ps0 : table) (walks : list (list nat)) (j : nat) :
  copiesFrom eligible copy ps0 walks j = copy <$> sourcesOf eligible ps0 walks j.
Proof.
  unfold sourcesOf, copiesFrom. revert walks.
  induction ps0 as [|s ps0 IH]; intros [|js walks]; simpl; try done.
  rewrite fmap_app, IH. destruct (decide (j ∈ js)); [|done].
  by rewrite list_fmap_id.
Qed.

(** What the span at a position of a walk holds in the output. *)
Lemma output_holds_copy (eligible : ProcessedTag → bool) (copy : ProcessedTag → ProcessedTag)
    (init : table) (walks : list (list nat)) (i j : nat) (S : processedSpan)
    (T : ProcessedTag) (js : list nat) :
  init !! i = Some S → walks !! i = Some js → T ∈ Tags S → eligible T = true → j ∈ js →
  copy T ∈ receivedAll eligible copy init walks j.
Proof.
  intros HS Hw HT He Hj. apply receivedAll_elem. by exists i, S, js, T.
Qed.

(** ** The order of the tags of a span *)

(** C4, as the code has it: the tag list of every span of the output starts
    with the span's own tags, one for each key of the recorded span and
    sorted by key ascending in byte order; the copies that the two passes
    append come after them and are not sorted in.  They stand in the order
    in which they were appended: first the copies of the upward pass, then
    those of the downward pass, and within a pass source span after source
    span in the order of the table and, for one source span, tag after tag
    in the order of its tags. *)
Theorem own_tags_sorted_then_copies (order : rangeOrder) (fuel : nat)
    (snap : tracing.SpansSnapshot) (out : ProcessedSnapshot) :
  validRange order →
  ProcessSnapshot order fuel snap = Ok out →
  Forall2 ownTagsThenCopies (concat (tracing.Traces snap)) (Spans out) ∧
  ∃ init ups downs,
    enrich (tagOrder order) snap = Ok init ∧
    mapM (walkFor upEligible (upWalk fuel (spanIndex init)) init) init = Ok ups ∧
    mapM (walkFor downEligible (downWalk fuel (childIndex init)) init) init = Ok downs ∧
    ∀ j p, Spans out !! j = Some p →
      ∃ p0 us ds,
        init !! j = Some p0 ∧
        Tags p = Tags p0 ++ us ++ ds ∧
        Forall2 isUpwardCopyOf (appendedFrom upEligible init ups j) us ∧
        Forall2 isDownwardCopyOf (appendedFrom downEligible init downs j) ds.
Proof.
  intros Hv H.
  pose proof (ProcessSnapshot_identity _ _ _ _ Hv H) as Hid.
  destruct (ProcessSnapshot_tags _ _ _ _ Hv H)
    as (init & ups & downs & Hi & Hu & Hd & Htags).
  split.
  - apply Forall2_same_length_lookup. split; [by eapply Forall2_length|].
    intros j s p Hs Hp. destruct (Htags j p Hp) as (p0 & Hp0 & _ & Heq).
    pose proof (enrich_Ok _ _ _ Hi) as Hall.
    pose proof (Forall2_lookup_lr _ _ _ _ _ _ Hall Hs Hp0) as [i0 Hps].
    apply processSpan_tags in Hps as [Hkeys Horig].
    exists (Tags p0), (receivedAll upEligible upCopy init ups j
                       ++ receivedAll downEligible downCopy init downs j).
    split; [exact Heq|]. split; [|split; [|split]].
    + rewrite Hkeys. apply sortStrings_sorted.
    + rewrite Hkeys, sortStrings_perm. apply Hv.
    + done.
    + apply Forall_app. split.
      * eapply Forall_impl; [apply upward_copy_flags|].
        -- intros i p' Hp'. by eapply enrich_originals.
        -- intros t (? & _). by left.
      * eapply Forall_impl; [apply downward_copy_flags|].
        -- intros i p' Hp'. by eapply enrich_originals.
        -- intros t (? & _). by right.
  - exists init, ups, downs. repeat (split; [done|]).
    intros j p Hp. destruct (Htags j p Hp) as (p0 & Hp0 & _ & Heq).
    exists p0, (receivedAll upEligible upCopy init ups j),
      (receivedAll downEligible downCopy init downs j).
    split; [done|]. split; [done|]. rewrite !receivedAll_fmap. split.
    + apply Forall2_fmap_copy, upCopy_isUpwardCopyOf.
    + apply Forall2_fmap_copy, downCopy_isDownwardCopyOf.
Qed.

Lemma snapBothWays_Ok : ProcessSnapshot keysInOrder 4 snapBothWays = Ok outBothWays.
Proof. by vm_compute. Qed.

Lemma own_tags_sorted_then_copies_witness :
  Forall2 ownTagsThenCopies (concat (tracing.Traces snapBothWays)) (Spans outBothWays) ∧
  ∃ init ups downs,
    enrich (tagOrder keysInOrder) snapBothWays = Ok init ∧
    mapM (walkFor upEligible (upWalk 4 (spanIndex init)) init) init = Ok ups ∧
    mapM (walkFor downEligible (downWalk 4 (childIndex init)) init) init = Ok downs ∧
    ∀ j p, Spans outBothWays !! j = Some p →
      ∃ p0 us ds,
        init !! j = Some p0 ∧
        Tags p = Tags p0 ++ us ++ ds ∧
        Forall2 isUpwardCopyOf (appendedFrom upEligible init ups j) us ∧
        Forall2 isDownwardCopyOf (appendedFrom downEligible init downs j) ds.
Proof.
  apply (own_tags_sorted_then_copies keysInOrder 4 snapBothWays outBothWays
           keysInOrder_valid snapBothWays_Ok).
Defined.

(** In [snapBothWays] the span in the middle holds its two own tags sorted,
    then the copy that came up from its child, then the copy that came down
    from its parent. *)
Example both_ways_order :
  Tags <$> Spans outBothWays !! 1%nat
  = Some [ {| Key := "node"; Val := "n1"; Caption := ""; Link := ""; Hidden := true;
              Highlight := false; Inherit := false; Inherited := false;
              PropagateUp := false; CopiedFromChild := false |};
           {| Key := "zone"; Val := "z1"; Caption := ""; Link := ""; Hidden := false;
              Highlight := false; Inherit := false; Inherited := false;
              PropagateUp := false; CopiedFromChild := false |};
           {| Key := "lock_holder_txn"; Val := "tx-12345";
              Caption := "blocked on unknown transaction"; Link := "tx-12345";
              Hidden := false; Highlight := true; Inherit := false; Inherited := false;
              PropagateUp := true; CopiedFromChild := true |};
           {| Key := "statement"; Val := "SELECT 8"; Caption := ""; Link := "";
              Hidden := true; Highlight := false; Inherit := true; Inherited := true;
              PropagateUp := false; CopiedFromChild := false |} ].
Proof. by vm_compute. Qed.

(** C4 as stated fails: in the output for [snapFamily] the root span holds
    its own tag "zone" followed by the copy of the "statement" tag of its
    child, and "zone" does not come before "statement". *)
Lemma tags_sorted_counterexample :
  ∃ root,
    ProcessSnapshot keysInOrder 4 snapFamily = Ok outFamily ∧
    Spans outFamily !! 0%nat = Some root ∧
    Key <$> Tags root = ["zone"; "statement"] ∧
    ¬ Sorted str_le (Key <$> Tags root).
Proof.
  eexists. split; [apply snapFamily_Ok|]. split; [by vm_compute|].
  split; [reflexivity|].
  intros H. apply Sorted_inv in H as [_ H]. apply HdRel_inv in H.
  by vm_compute in H.
Qed.

(** ** What the indexes hold *)

(** [spansMap[id]] points to the last span of the table with the id [id]. *)
Lemma spanIndex_lookup (ps : table) (id : Z) (j : nat) :
  spanIndex ps !! id = Some j
  ↔ (∃ p, ps !! j = Some p ∧ SpanID p = id) ∧
    (∀ k p, ps !! k = Some p → SpanID p = id → (k ≤ j)%nat).
Proof.
  revert j. induction ps as [|p ps IH] using rev_ind; intros j.
  - unfold spanIndex. simpl. rewrite lookup_empty. split; [done|].
    by intros [(p & ? & _) _].
  - rewrite spanIndex_snoc. destruct (decide (SpanID p = id)) as [Hid|Hid].
    + rewrite Hid, lookup_insert_eq. split.
      * intros [= <-]. split.
        -- exists p. by rewrite list_lookup_middle.
        -- intros k p' Hk _. apply lookup_lt_Some in Hk.
           rewrite length_app in Hk. simpl in Hk. lia.
      * intros [(p' & Hp' & _) Hlast]. f_equal.
        pose proof (lookup_lt_Some _ _ _ Hp') as Hlt.
        rewrite length_app in Hlt. simpl in Hlt.
        assert (length ps ≤ j)%nat; [|lia].
        apply (Hlast _ p); [|done]. by apply list_lookup_middle.
    + rewrite lookup_insert_ne by done. rewrite IH. split.
      * intros [(p' & Hp' & Hid') Hlast]. split.
        -- exists p'. split; [|done]. by apply lookup_app_l_Some.
        -- intros k p'' Hk Hid''. apply lookup_snoc_Some in Hk as [[_ Hk]|[_ <-]].
           ++ by apply (Hlast k p'').
           ++ done.
      * intros [(p' & Hp' & Hid') Hlast].
        apply lookup_snoc_Some in Hp' as [[_ Hp']|[_ <-]]; [|done]. split.
        -- by exists p'.
        -- intros k p'' Hk. apply (Hlast k p''). by apply lookup_app_l_Some.
Qed.

Lemma spanIndex_lookup_None (ps : table) (id : Z) :
  spanIndex ps !! id = None ↔ ∀ p, p ∈ ps → SpanID p ≠ id.
Proof.
  induction ps as [|p ps IH] using rev_ind.
  - unfold spanIndex. simpl. rewrite lookup_empty. split; [|done].
    by intros _ p ?%elem_of_nil.
  - rewrite spanIndex_snoc. destruct (decide (SpanID p = id)) as [Hid|Hid].
    + rewrite Hid, lookup_insert_eq. split; [done|]. intros H. exfalso.
      apply (H p); [|done]. apply elem_of_app. right. apply list_elem_of_here.
    + rewrite lookup_insert_ne by done. rewrite IH. split.
      * intros H p' [Hp'|Hp']%elem_of_app; [by apply H|].
        by apply list_elem_of_singleton in Hp' as ->.
      * intros H p' Hp'. apply H. apply elem_of_app. by left.
Qed.


Lemma childrenOf_addChild (m : gmap Z (list nat)) (i : nat) (p : processedSpan) (id : Z) :
  childrenOf (addChild m i p) id
  = if decide (ParentSpanID p = id) then childrenOf m id ++ [i] else childrenOf m id.
Proof.
  unfold childrenOf, addChild. destruct (decide (ParentSpanID p = id)) as [<-|Hne].
  - destruct (m !! ParentSpanID p) as [cs|]; by rewrite lookup_insert_eq.
  - destruct (m !! ParentSpanID p) as [cs|]; by rewrite lookup_insert_ne.
Qed.

Lemma filter_ext_elem {A : Type} (P Q : A → Prop) `{!∀ x, Decision (P x)}
    `{!∀ x, Decision (Q x)} (l : list A) :
  (∀ x, x ∈ l → P x ↔ Q x) → filter P l = filter Q l.
Proof.
  induction l as [|x l IH]; intros Hl; [done|].
  assert (filter P l = filter Q l) as IH'.
  { apply IH. intros y Hy. apply Hl. by apply list_elem_of_further. }
  destruct (decide (P x)) as [HP|HP].
  - rewrite !filter_cons_True; [by rewrite IH' | | done].
    apply Hl; [apply list_elem_of_here | done].
  - rewrite !filter_cons_False; [done | | done].
    intros HQ. apply HP. apply Hl; [apply list_elem_of_here | done].
Qed.

(** [childrenMap[id]] lists the positions of the spans with the parent id
    [id], in the order of the table. *)
Lemma childIndex_children (ps : table) (id : Z) :
  childrenOf (childIndex ps) id = filter (isChildOf ps id) (seq 0 (length ps)).
Proof.
  induction ps as [|p ps IH] using rev_ind; [done|].
  rewrite childIndex_snoc, childrenOf_addChild, IH.
  rewrite length_app. simpl. rewrite Nat.add_1_r, seq_S, filter_app. simpl.
  assert (filter (isChildOf (ps ++ [p]) id) (seq 0 (length ps))
          = filter (isChildOf ps id) (seq 0 (length ps))) as ->.
  { apply filter_ext_elem. intros j Hj%elem_of_seq.
    unfold isChildOf. by rewrite lookup_app_l by lia. }
  assert (isChildOf (ps ++ [p]) id (length ps) ↔ ParentSpanID p = id) as Hlast.
  { unfold isChildOf. rewrite list_lookup_middle by done. simpl. split; congruence. }
  destruct (decide (ParentSpanID p = id)) as [Hid|Hne].
  - by rewrite filter_cons_True, filter_nil by (by apply Hlast).
  - rewrite filter_cons_False, filter_nil by (by rewrite Hlast). by rewrite app_nil_r.
Qed.

Lemma childIndex_elem (ps : table) (id : Z) (j : nat) :
  j ∈ childrenOf (childIndex ps) id ↔ isChildOf ps id j.
Proof.
  rewrite childIndex_children, list_elem_of_filter, elem_of_seq. split; [by intros [? _]|].
  intros H. split; [done|]. unfold isChildOf in H.
  destruct (ps !! j) as [p|] eqn:E; [|done]. apply lookup_lt_Some in E. lia.
Qed.

Lemma childIndex_NoDup (ps : table) (id : Z) : NoDup (childrenOf (childIndex ps) id).
Proof. rewrite childIndex_children. apply NoDup_filter, NoDup_seq. Qed.

(** ** The chain of ancestors *)

Lemma upTargets_chain (fuel : nat) (spans : gmap Z nat) (ps : table) (pid : Z)
    (js : list nat) :
  upTargets fuel spans ps pid = Ok js → upChain spans ps pid js.
Proof.
  revert pid js. induction fuel as [|fuel IH]; intros pid js; simpl; [done|].
  destruct (spans !! pid) as [j|] eqn:Ej.
  - destruct (ps !! j) as [p|] eqn:Ep; [|done]. intros H.
    apply bind_Ok in H as [js' [Hjs' [= <-]]]. eapply upChain_step; eauto.
  - intros [= <-]. by apply upChain_root.
Qed.

Lemma upChain_targets (spans : gmap Z nat) (ps : table) (pid : Z) (js : list nat) :
  upChain spans ps pid js →
  ∀ fuel, (length js < fuel)%nat → upTargets fuel spans ps pid = Ok js.
Proof.
  induction 1 as [pid Hpid|pid j p js Hj Hp _ IH]; intros fuel Hf.
  - destruct fuel as [|fuel]; [lia|]. simpl. by rewrite Hpid.
  - destruct fuel as [|fuel]; [simpl in Hf; lia|]. simpl. rewrite Hj, Hp.
    rewrite IH by (simpl in Hf; lia). done.
Qed.

Lemma upChain_det (spans : gmap Z nat) (ps : table) (pid : Z) (js js' : list nat) :
  upChain spans ps pid js → upChain spans ps pid js' → js = js'.
Proof.
  intros H. revert js'. induction H as [pid Hpid|pid j p js Hj Hp _ IH]; intros js' H'.
  - inversion H'; [done|congruence].
  - inversion H' as [|? j' p' js'' Hj' Hp' Hc']; subst; [congruence|].
    assert (j' = j) as -> by congruence. assert (p' = p) as -> by congruence.
    f_equal. by apply IH.
Qed.

Lemma upChain_suffix (spans : gmap Z nat) (ps : table) (pid : Z) (l1 l2 : list nat)
    (j : nat) :
  upChain spans ps pid (l1 ++ j :: l2) →
  ∃ p, ps !! j = Some p ∧ upChain spans ps (ParentSpanID p) l2.
Proof.
  revert pid. induction l1 as [|k l1 IH]; intros pid H; simpl in H.
  - inversion H; subst. eauto.
  - inversion H; subst. eauto.
Qed.

(** A walk that ends visits no span twice. *)
Lemma upChain_NoDup (spans : gmap Z nat) (ps : table) (pid : Z) (js : list nat) :
  upChain spans ps pid js → NoDup js.
Proof.
  induction 1 as [pid Hpid|pid j p js Hj Hp Hc IH]; constructor; [|done].
  intros Hin. apply list_elem_of_split in Hin as (l1 & l2 & ->).
  destruct (upChain_suffix _ _ _ _ _ _ Hc) as (p' & Hp' & Hc').
  assert (p' = p) as -> by congruence.
  pose proof (upChain_det _ _ _ _ _ Hc Hc') as Heq.
  apply (f_equal length) in Heq. rewrite length_app in Heq. simpl in Heq. lia.
Qed.

Lemma received_NoDup (eligible : ProcessedTag → bool) (copy : ProcessedTag → ProcessedTag)
    (j : nat) (tags : list ProcessedTag) (js : list nat) :
  NoDup js →
  received eligible copy j tags js
  = if decide (j ∈ js) then copy <$> triggers eligible tags else [].
Proof.
  intros Hnd. unfold received.
  induction (triggers eligible tags) as [|t l IH]; simpl.
  - by destruct (decide (j ∈ js)).
  - rewrite IH, (hits_NoDup _ _ _ Hnd). by destruct (decide (j ∈ js)).
Qed.

Lemma receivedAll_NoDup (eligible : ProcessedTag → bool) (copy : ProcessedTag → ProcessedTag)
    (ps0 : table) (walks : list (list nat)) (j : nat) :
  Forall NoDup walks →
  receivedAll eligible copy ps0 walks j = copiesFrom eligible copy ps0 walks j.
Proof.
  intros H. unfold receivedAll, copiesFrom. revert ps0.
  induction H as [|js walks Hjs _ IH]; intros [|s ps0]; simpl; try done.
  by rewrite IH, received_NoDup.
Qed.

Lemma walkFor_Ok (eligible : ProcessedTag → bool)
    (walk : table → processedSpan → result (list nat)) (ps0 : table) (s : processedSpan)
    (js : list nat) :
  walkFor eligible walk ps0 s = Ok js →
  (triggers eligible (Tags s) = [] ∧ js = []) ∨
  (triggers eligible (Tags s) ≠ [] ∧ walk ps0 s = Ok js).
Proof.
  unfold walkFor. destruct (decide _) as [E|E]; [intros [= <-]; by left | by right].
Qed.

Lemma triggers_elem (eligible : ProcessedTag → bool) (tags : list ProcessedTag)
    (t : ProcessedTag) :
  t ∈ triggers eligible tags ↔ eligible t = true ∧ t ∈ tags.
Proof. unfold triggers. by rewrite list_elem_of_filter. Qed.

Lemma copiesFrom_elem (eligible : ProcessedTag → bool) (copy : ProcessedTag → ProcessedTag)
    (ps0 : table) (walks : list (list nat)) (i j : nat) (s : processedSpan)
    (js : list nat) (t : ProcessedTag) :
  ps0 !! i = Some s → walks !! i = Some js → t ∈ Tags s → eligible t = true → j ∈ js →
  copy t ∈ copiesFrom eligible copy ps0 walks j.
Proof.
  unfold copiesFrom. revert walks i. induction ps0 as [|s0 ps0 IH]; intros walks i; [done|].
  destruct walks as [|js0 walks]; [done|]. simpl.
  destruct i as [|i]; simpl.
  - intros [= ->] [= ->] Ht He Hj. apply elem_of_app. left.
    rewrite decide_True by done. apply list_elem_of_fmap. exists t. split; [done|].
    by apply triggers_elem.
  - intros Hs Hw Ht He Hj. apply elem_of_app. right. by apply (IH walks i).
Qed.

Lemma upChain_positions (spans : gmap Z nat) (ps : table) (pid : Z) (js : list nat) (j : nat) :
  upChain spans ps pid js → j ∈ js → is_Some (ps !! j).
Proof.
  induction 1 as [pid Hpid|pid k p js Hk Hp _ IH]; [by intros ?%elem_of_nil|].
  intros [->|Hin]%elem_of_cons; [by eexists | by apply IH].
Qed.

Lemma up_walks_chains (fuel : nat) (init : table) (ups : list (list nat)) :
  mapM (walkFor upEligible (upWalk fuel (spanIndex init)) init) init = Ok ups →
  Forall2 (fun S chain =>
             NoDup chain ∧
             (triggers upEligible (Tags S) ≠ [] →
              upChain (spanIndex init) init (ParentSpanID S) chain))
          init ups.
Proof.
  intros H. apply mapM_Ok_Forall2 in H.
  eapply Forall2_impl; [exact H|]. intros S chain Hw. simpl in Hw.
  apply walkFor_Ok in Hw as [[E ->]|[E Hw]].
  - split; [apply NoDup_nil_2|done].
  - apply upTargets_chain in Hw. split; [by eapply upChain_NoDup|done].
Qed.

(** C6: let [init] be the enriched spans and let the original tags of a span
    that have [PropagateUp] set be its triggers.  For every span [S] with a
    trigger, the chain of strict ancestors of [S] (following the parent ids
    through the span index until an id is absent from it) is a list [chain]
    of distinct positions.  In the output, the tags of the span at position
    [j] are its enriched tags, then, for each span [S] (in the order of the
    table) whose chain holds [j] and each trigger [T] of [S], one copy of
    [T], then copies made by the downward pass.  A copy of [T] is [T] in its
    key, value, caption, link and every flag but two: [CopiedFromChild] is
    set and [Inherit] is cleared.  The other tags of the span have
    [CopiedFromChild] cleared: every strict ancestor holds exactly one upward
    copy of each trigger, and no other span holds one. *)
Theorem upward_completeness (order : rangeOrder) (fuel : nat)
    (snap : tracing.SpansSnapshot) (out : ProcessedSnapshot) :
  validRange order →
  ProcessSnapshot order fuel snap = Ok out →
  ∃ init chains,
    enrich (tagOrder order) snap = Ok init ∧
    Forall2 (fun S chain =>
               NoDup chain ∧
               (triggers upEligible (Tags S) ≠ [] →
                upChain (spanIndex init) init (ParentSpanID S) chain))
            init chains ∧
    (∀ j p, Spans out !! j = Some p →
       ∃ p0 ups downs,
         init !! j = Some p0 ∧
         Tags p = Tags p0 ++ ups ++ downs ∧
         Forall2 isUpwardCopyOf (sourcesOf upEligible init chains j) ups ∧
         Forall (fun t => CopiedFromChild t = false) (Tags p0 ++ downs)) ∧
    (∀ i S T,
       init !! i = Some S → T ∈ Tags S → PropagateUp T = true →
       ∃ chain,
         chains !! i = Some chain ∧
         upChain (spanIndex init) init (ParentSpanID S) chain ∧
         ∀ j, j ∈ chain →
              ∃ p t, Spans out !! j = Some p ∧ t ∈ Tags p ∧ isUpwardCopyOf T t).
Proof.
  intros Hv H.
  destruct (ProcessSnapshot_Ok _ _ _ _ Hv H) as (init & ups & downs & Hi & Hu & Hd & Hs & _).
  pose proof (up_walks_chains _ _ _ Hu) as Hchains.
  assert (Forall NoDup ups) as Hnd.
  { eapply Forall2_Forall_r; [exact Hchains|]. apply Forall_forall. by intros S _ chain [? _]. }
  assert (∀ i p', init !! i = Some p' → Forall isOriginal (Tags p')) as Horig
    by (intros i p' Hp'; by eapply enrich_originals).
  exists init, ups. split; [done|]. split; [done|]. split.
  - intros j p Hp. rewrite Hs, extend_lookup in Hp.
    destruct (init !! j) as [p0|] eqn:E; [|done]. injection Hp as <-.
    exists p0, (copiesFrom upEligible upCopy init ups j),
      (receivedAll downEligible downCopy init downs j).
    split; [done|]. split; [simpl; by rewrite receivedAll_NoDup|]. split.
    + rewrite copiesFrom_fmap. apply Forall2_fmap_copy, upCopy_isUpwardCopyOf.
    + apply Forall_app. split.
      * eapply Forall_impl; [apply (Horig j p0 E)|]. by intros t [? _].
      * eapply Forall_impl; [by apply downward_copy_flags|]. by intros t (_ & _ & _ & ?).
  - intros i S T HS HT Hup.
    destruct (Forall2_lookup_l _ _ _ _ _ Hchains HS) as (chain & Hc & _ & Hchain).
    assert (upEligible T = true) as Hel.
    { pose proof (Horig i S HS) as Ho. rewrite Forall_forall in Ho.
      destruct (Ho T HT) as [Hcc _]. unfold upEligible. by rewrite Hup, Hcc. }
    assert (triggers upEligible (Tags S) ≠ []) as Hne.
    { intros E. assert (T ∈ triggers upEligible (Tags S)) as Hin by (by apply triggers_elem).
      rewrite E in Hin. by apply elem_of_nil in Hin. }
    exists chain. split; [done|]. split; [by apply Hchain|].
    intros j Hj. destruct (upChain_positions _ _ _ _ j (Hchain Hne) Hj) as [p0 Hp0].
    exists (appendTags (receivedAll upEligible upCopy init ups j
                        ++ receivedAll downEligible downCopy init downs j) p0),
      (upCopy T).
    split; [by rewrite Hs, extend_lookup, Hp0|].
    split; [|apply upCopy_isUpwardCopyOf].
    simpl. rewrite !elem_of_app. right. left.
    by apply (output_holds_copy upEligible upCopy init ups i j S T chain).
Qed.

Lemma upward_completeness_witness :
  ∃ init chains,
    enrich (tagOrder keysInOrder) snapFamily = Ok init ∧
    Forall2 (fun S chain =>
               NoDup chain ∧
               (triggers upEligible (Tags S) ≠ [] →
                upChain (spanIndex init) init (ParentSpanID S) chain))
            init chains ∧
    (∀ j p, Spans outFamily !! j = Some p →
       ∃ p0 ups downs,
         init !! j = Some p0 ∧
         Tags p = Tags p0 ++ ups ++ downs ∧
         Forall2 isUpwardCopyOf (sourcesOf upEligible init chains j) ups ∧
         Forall (fun t => CopiedFromChild t = false) (Tags p0 ++ downs)) ∧
    (∀ i S T,
       init !! i = Some S → T ∈ Tags S → PropagateUp T = true →
       ∃ chain,
         chains !! i = Some chain ∧
         upChain (spanIndex init) init (ParentSpanID S) chain ∧
         ∀ j, j ∈ chain →
              ∃ p t, Spans outFamily !! j = Some p ∧ t ∈ Tags p ∧ isUpwardCopyOf T t).
Proof.
  apply (upward_completeness keysInOrder 4 snapFamily outFamily
           keysInOrder_valid snapFamily_Ok).
Defined.

(** ** The descendants *)

Lemma downTargets_visit (fuel : nat) (children : gmap Z (list nat)) (ps : table)
    (sid : Z) (js : list nat) :
  downTargets fuel children ps sid = Ok js →
  downVisit children ps (childrenOf children sid) js.
Proof.
  revert sid js. induction fuel as [|fuel IH]; intros sid js; simpl; [done|].
  generalize (childrenOf children sid). intros cs.
  assert (∀ acc r,
            foldM (fun acc child =>
                     match ps !! child with
                     | None => Panic
                     | Some c =>
                         js ← downTargets fuel children ps (SpanID c);
                         Ok (acc ++ child :: js)
                     end) acc cs = Ok r →
            ∃ l, r = acc ++ l ∧ downVisit children ps cs l) as Hloop.
  { induction cs as [|c cs IHcs]; intros acc r; simpl.
    - intros [= <-]. exists []. split; [by rewrite app_nil_r | constructor].
    - intros H. apply bind_Ok in H as [acc' [Hc H]].
      destruct (ps !! c) as [p|] eqn:Ep; [|done].
      apply bind_Ok in Hc as [l1 [Hl1 [= <-]]].
      apply IHcs in H as [l2 [-> Hl2]].
      exists (c :: l1 ++ l2). split; [by rewrite <- app_assoc|].
      econstructor; eauto. }
  intros H. apply Hloop in H as [l [-> Hl]]. done.
Qed.

Lemma descendant_reaches (ps : table) (sid : Z) (j : nat) :
  descendant ps sid j ↔ reaches ps (childrenOf (childIndex ps) sid) j.
Proof.
  split.
  - induction 1 as [j Hj|k q j _ IH Hq Hj].
    + apply reaches_here. by apply childIndex_elem.
    + by eapply reaches_deeper.
  - induction 1 as [j Hj|k q j _ IH Hq Hj].
    + apply descendant_child. by apply childIndex_elem.
    + by eapply descendant_deeper.
Qed.

Section DownVisit.

Variable ps : table.

Let children : gmap Z (list nat) := childIndex ps.

Lemma downVisit_det (cs l l' : list nat) :
  downVisit children ps cs l → downVisit children ps cs l' → l = l'.
Proof.
  intros H. revert l'. induction H as [|c cs p l1 l2 Hp _ IH1 _ IH2]; intros l' H'.
  - by inversion H'.
  - inversion H' as [|? ? p' l1' l2' Hp' H1' H2']; subst.
    assert (p' = p) as -> by congruence.
    by rewrite (IH1 l1' H1'), (IH2 l2' H2').
Qed.

Lemma downVisit_heads (cs l : list nat) (c : nat) :
  downVisit children ps cs l → c ∈ cs → c ∈ l.
Proof.
  induction 1 as [|c' cs p l1 l2 Hp _ _ _ IH2]; [done|].
  intros [->|Hc]%elem_of_cons; [apply list_elem_of_here|].
  apply list_elem_of_further, elem_of_app. right. by apply IH2.
Qed.

(** Every visited position has a visit of its own within the visit. *)
Lemma downVisit_sub (cs l : list nat) (e : nat) :
  downVisit children ps cs l → e ∈ l →
  ∃ q l', ps !! e = Some q ∧
          downVisit children ps (childrenOf children (SpanID q)) l' ∧
          (length l' < length l)%nat ∧
          ∀ x, x ∈ l' → x ∈ l.
Proof.
  induction 1 as [|c cs p l1 l2 Hp H1 IH1 H2 IH2]; [by intros ?%elem_of_nil|].
  intros [->|[He|He]%elem_of_app]%elem_of_cons.
  - exists p, l1. split; [done|]. split; [done|]. split.
    + simpl. rewrite length_app. lia.
    + intros x Hx. apply list_elem_of_further, elem_of_app. by left.
  - destruct (IH1 He) as (q & l' & Hq & Hl' & Hlen & Hsub).
    exists q, l'. split; [done|]. split; [done|]. split.
    + simpl. rewrite length_app. lia.
    + intros x Hx. apply list_elem_of_further, elem_of_app. left. by apply Hsub.
  - destruct (IH2 He) as (q & l' & Hq & Hl' & Hlen & Hsub).
    exists q, l'. split; [done|]. split; [done|]. split.
    + simpl. rewrite length_app. lia.
    + intros x Hx. apply list_elem_of_further, elem_of_app. right. by apply Hsub.
Qed.

(** A visit that returns does not come back to the span it started from. *)
Lemma downVisit_not_self (c : nat) (p : processedSpan) (l : list nat) :
  ps !! c = Some p →
  downVisit children ps (childrenOf children (SpanID p)) l → c ∉ l.
Proof.
  intros Hp Hl Hin.
  destruct (downVisit_sub _ _ c Hl Hin) as (q & l' & Hq & Hl' & Hlen & _).
  assert (q = p) as -> by congruence.
  pose proof (downVisit_det _ _ _ Hl Hl') as ->. lia.
Qed.

Lemma downVisit_reaches (cs l : list nat) (j : nat) :
  downVisit children ps cs l → j ∈ l ↔ reaches ps cs j.
Proof.
  intros Hl. split.
  - revert j. induction Hl as [|c cs p l1 l2 Hp H1 IH1 H2 IH2]; intros j.
    + by intros ?%elem_of_nil.
    + intros [->|[Hj|Hj]%elem_of_app]%elem_of_cons.
      * apply reaches_here, list_elem_of_here.
      * apply IH1 in Hj. clear IH1 IH2 H1 H2.
        induction Hj as [j Hj|e q j _ IH Hq Hj].
        -- apply (reaches_deeper ps _ c p); [apply reaches_here, list_elem_of_here|done|].
           by apply childIndex_elem.
        -- by eapply reaches_deeper.
      * apply IH2 in Hj. clear IH1 IH2 H1 H2.
        induction Hj as [j Hj|e q j _ IH Hq Hj].
        -- by apply reaches_here, list_elem_of_further.
        -- by eapply reaches_deeper.
  - induction 1 as [j Hj|e q j _ IH Hq Hj].
    + by eapply downVisit_heads.
    + destruct (downVisit_sub _ _ e Hl IH) as (q' & l' & Hq' & Hl' & _ & Hsub).
      assert (q' = q) as -> by congruence.
      apply Hsub. eapply downVisit_heads; [exact Hl'|]. by apply childIndex_elem.
Qed.

(** No visited span descends from itself. *)
Lemma downVisit_no_self_descent (cs l : list nat) (e : nat) (q : processedSpan) :
  downVisit children ps cs l → e ∈ l → ps !! e = Some q →
  ¬ reaches ps (childrenOf children (SpanID q)) e.
Proof.
  intros Hl He Hq Hr.
  destruct (downVisit_sub _ _ e Hl He) as (q' & l' & Hq' & Hl' & _ & _).
  assert (q' = q) as -> by congruence.
  apply (downVisit_not_self e q l' Hq Hl'). by apply (downVisit_reaches _ _ e Hl').
Qed.

End DownVisit.

Lemma isChildOf_parent (ps : table) (a b : Z) (j : nat) :
  isChildOf ps a j → isChildOf ps b j → a = b.
Proof. unfold isChildOf. congruence. Qed.

Lemma unique_id_position (ps : table) (e c : nat) (q p : processedSpan) :
  NoDup (SpanID <$> ps) → ps !! e = Some q → ps !! c = Some p →
  SpanID q = SpanID p → e = c.
Proof.
  intros Hnd Hq Hp Hid. apply (NoDup_lookup _ _ _ (SpanID p) Hnd).
  - by rewrite list_lookup_fmap, Hq, <- Hid.
  - by rewrite list_lookup_fmap, Hp.
Qed.

Lemma reaches_root (ps : table) (cs : list nat) (x : nat) :
  reaches ps cs x →
  ∃ c, c ∈ cs ∧
       (x = c ∨ ∃ q, ps !! c = Some q ∧
                     reaches ps (childrenOf (childIndex ps) (SpanID q)) x).
Proof.
  induction 1 as [j Hj|e q j _ IH Hq Hj]; [by exists j; auto|].
  destruct IH as (c & Hc & [->|(q' & Hq' & Hr)]); exists c; (split; [done|]); right.
  - exists q. split; [done|]. apply reaches_here. by apply childIndex_elem.
  - exists q'. split; [done|]. by eapply reaches_deeper.
Qed.

Lemma sibling_not_reached (ps : table) (sid : Z) (cs l : list nat) (c : nat) :
  downVisit (childIndex ps) ps cs l →
  (∀ c', c' ∈ cs → isChildOf ps sid c') → isChildOf ps sid c → c ∉ cs →
  ¬ reaches ps cs c.
Proof.
  intros Hl Hcs Hc Hnotin Hr.
  destruct (reaches_root _ _ _ Hr) as (c' & Hc' & [->|(q' & Hq' & Hr')]); [done|].
  apply (downVisit_no_self_descent ps cs l c' q' Hl);
    [by eapply downVisit_heads | done |].
  inversion Hr' as [? Hin|e q ? Hre Hq Hin]; subst.
  - apply childIndex_elem in Hin.
    rewrite (isChildOf_parent _ _ _ _ Hin Hc). apply reaches_here.
    apply childIndex_elem. by apply Hcs.
  - apply (reaches_deeper ps _ e q); [done..|].
    rewrite (isChildOf_parent _ _ _ _ Hin Hc). by apply Hcs.
Qed.

(** With unique span ids, a visit that returns writes to no position twice. *)
Lemma downVisit_NoDup (ps : table) (cs l : list nat) :
  NoDup (SpanID <$> ps) →
  downVisit (childIndex ps) ps cs l →
  ∀ sid, NoDup cs → (∀ c, c ∈ cs → isChildOf ps sid c) → NoDup l.
Proof.
  intros Hids. induction 1 as [|c cs p l1 l2 Hp H1 IH1 H2 IH2]; intros sid Hnd Hcs.
  - constructor.
  - apply NoDup_cons in Hnd as [Hc Hnd].
    assert (isChildOf ps sid c) as Hcsid by (apply Hcs, list_elem_of_here).
    assert (∀ c', c' ∈ cs → isChildOf ps sid c') as Hcs'
      by (intros c' Hc'; by apply Hcs, list_elem_of_further).
    assert (¬ reaches ps (childrenOf (childIndex ps) (SpanID p)) c) as HA.
    { intros Hr. apply (downVisit_not_self ps c p l1 Hp H1).
      by apply (downVisit_reaches ps _ _ c H1). }
    assert (¬ reaches ps cs c) as HB by (by eapply sibling_not_reached).
    constructor.
    + rewrite elem_of_app. intros [Hin|Hin].
      * by apply (downVisit_not_self ps c p l1 Hp H1).
      * apply HB. by apply (downVisit_reaches ps _ _ c H2).
    + apply NoDup_app. split; [|split].
      * apply (IH1 (SpanID p)); [apply childIndex_NoDup|].
        intros c' Hc'. by apply childIndex_elem.
      * intros x Hx1 Hx2.
        apply (downVisit_reaches ps _ _ x H1) in Hx1.
        apply (downVisit_reaches ps _ _ x H2) in Hx2.
        clear IH1 IH2. revert Hx2.
        induction Hx1 as [x Hx|e q x Hre IH Hq Hx]; intros Hx2.
        -- apply childIndex_elem in Hx.
           inversion Hx2 as [? Hin|e' q' ? Hre' Hq' Hin]; subst.
           ++ apply HA, reaches_here, childIndex_elem.
              by rewrite (isChildOf_parent _ _ _ _ Hx (Hcs' x Hin)).
           ++ assert (e' = c) as ->.
              { apply (unique_id_position ps e' c q' p Hids Hq' Hp).
                by apply (isChildOf_parent ps _ _ x). }
              done.
        -- inversion Hx2 as [? Hin|e' q' ? Hre' Hq' Hin]; subst.
           ++ apply HA. apply (reaches_deeper ps _ e q); [done..|].
              by rewrite (isChildOf_parent _ _ _ _ Hx (Hcs' x Hin)).
           ++ assert (e' = e) as ->.
              { apply (unique_id_position ps e' e q' q Hids Hq' Hq).
                by apply (isChildOf_parent ps _ _ x). }
              by apply IH.
      * by apply (IH2 sid).
Qed.

Lemma descendant_position (ps : table) (sid : Z) (j : nat) :
  descendant ps sid j → is_Some (ps !! j).
Proof.
  assert (∀ id, isChildOf ps id j → is_Some (ps !! j)) as H.
  { unfold isChildOf. intros id Hj. destruct (ps !! j); [by eexists|done]. }
  destruct 1; eauto.
Qed.


Lemma enrich_SpanIDs (r : nat → gmap string string → list string) (snap : tracing.SpansSnapshot)
    (init : table) :
  enrich r snap = Ok init →
  SpanID <$> init = tracingpb.SpanID <$> concat (tracing.Traces snap).
Proof.
  intros H. apply enrich_Ok in H.
  induction H as [|s p raw init [i0 Hsp] _ IH]; [done|].
  apply processSpan_Ok in Hsp as [(_ & _ & Hid & _) _].
  rewrite !fmap_cons. by rewrite Hid, IH.
Qed.

(** ** The copy that the upward pass makes *)

(** C1, as the code has it: let [init] be the enriched spans.  The copy of an
    original tag [T] with [PropagateUp] and [Inherit] that the upward pass
    appends to each strict ancestor of its span is [T] with [CopiedFromChild]
    set and [Inherit] cleared, not preserved.  So in the output no tag that
    was copied from a child is marked [Inherit] or [Inherited], and the
    downward pass propagates no copy from the ancestor that received it:
    every tag marked [Inherited] is the downward copy of a tag that a span
    holds as its own, with [Inherit] set, and the span that holds the copy is
    a descendant of that span. *)
Theorem upward_copy_not_inherited (order : rangeOrder) (fuel : nat)
    (snap : tracing.SpansSnapshot) (out : ProcessedSnapshot) :
  validRange order →
  ProcessSnapshot order fuel snap = Ok out →
  ∃ init,
    enrich (tagOrder order) snap = Ok init ∧
    (∀ i S T chain,
       init !! i = Some S → T ∈ Tags S → PropagateUp T = true → Inherit T = true →
       upChain (spanIndex init) init (ParentSpanID S) chain →
       ∀ j, j ∈ chain →
            ∃ p t, Spans out !! j = Some p ∧ t ∈ Tags p ∧ isUpwardCopyOf T t) ∧
    (∀ p t, p ∈ Spans out → t ∈ Tags p → CopiedFromChild t = true →
            Inherit t = false ∧ Inherited t = false) ∧
    (∀ j p t, Spans out !! j = Some p → t ∈ Tags p → Inherited t = true →
       ∃ i S T,
         init !! i = Some S ∧ T ∈ Tags S ∧ isOriginal T ∧ Inherit T = true ∧
         isDownwardCopyOf T t ∧ descendant init (SpanID S) j).
Proof.
  intros Hv H.
  destruct (ProcessSnapshot_Ok _ _ _ _ Hv H) as (init & ups & downs & Hi & Hu & Hd & Hs & _).
  destruct (ProcessSnapshot_tags _ _ _ _ Hv H)
    as (init' & ups' & downs' & Hi' & Hu' & Hd' & Htags).
  assert (init' = init) as -> by congruence.
  assert (ups' = ups) as -> by congruence.
  assert (downs' = downs) as -> by congruence.
  assert (∀ i p', init !! i = Some p' → Forall isOriginal (Tags p')) as Horig
    by (intros i p' Hp'; by eapply enrich_originals).
  exists init. split; [done|]. split; [|split].
  - intros i S T chain HS HT Hup Hinh Hchain j Hj.
    assert (upEligible T = true) as Hel.
    { pose proof (Horig i S HS) as Ho. rewrite Forall_forall in Ho.
      destruct (Ho T HT) as [Hcc _]. unfold upEligible. by rewrite Hup, Hcc. }
    assert (triggers upEligible (Tags S) ≠ []) as Hne.
    { intros E. assert (T ∈ triggers upEligible (Tags S)) as Hin by (by apply triggers_elem).
      rewrite E in Hin. by apply elem_of_nil in Hin. }
    pose proof (up_walks_chains _ _ _ Hu) as Hchains.
    destruct (Forall2_lookup_l _ _ _ _ _ Hchains HS) as (chain' & Hc & _ & Hchain').
    pose proof (upChain_det _ _ _ _ _ (Hchain' Hne) Hchain) as ->.
    destruct (upChain_positions _ _ _ _ j Hchain Hj) as [p0 Hp0].
    exists (appendTags (receivedAll upEligible upCopy init ups j
                        ++ receivedAll downEligible downCopy init downs j) p0),
      (upCopy T).
    split; [by rewrite Hs, extend_lookup, Hp0|].
    split; [|apply upCopy_isUpwardCopyOf].
    simpl. rewrite !elem_of_app. right. left.
    by apply (output_holds_copy upEligible upCopy init ups i j S T chain).
  - intros p t Hp Ht Hc. apply list_elem_of_lookup in Hp as [j Hp].
    destruct (Htags j p Hp) as (p0 & Hp0 & _ & Heq).
    rewrite Heq, !elem_of_app in Ht. destruct Ht as [Ht|[Ht|Ht]].
    + pose proof (Horig j p0 Hp0) as Ho. rewrite Forall_forall in Ho.
      destruct (Ho t Ht) as [Hc' _]. congruence.
    + pose proof (upward_copy_flags init ups j Horig) as Hf. rewrite Forall_forall in Hf.
      by destruct (Hf t Ht) as (_ & ? & ?).
    + pose proof (downward_copy_flags init downs j Horig) as Hf.
      rewrite Forall_forall in Hf.
      destruct (Hf t Ht) as (_ & _ & _ & Hc'). congruence.
  - intros j p t Hp Ht Hinh. destruct (Htags j p Hp) as (p0 & Hp0 & _ & Heq).
    rewrite Heq, !elem_of_app in Ht. destruct Ht as [Ht|[Ht|Ht]].
    + pose proof (Horig j p0 Hp0) as Ho. rewrite Forall_forall in Ho.
      destruct (Ho t Ht) as [_ Hi0]. congruence.
    + pose proof (upward_copy_flags init ups j Horig) as Hf. rewrite Forall_forall in Hf.
      destruct (Hf t Ht) as (_ & _ & Hi0). congruence.
    + apply receivedAll_elem in Ht as (i & S & js & T & HS & Hw & HT & He & Hj & ->).
      exists i, S, T. split; [done|]. split; [done|].
      pose proof (Horig i S HS) as Ho. rewrite Forall_forall in Ho.
      split; [by apply Ho|].
      split; [unfold downEligible in He; by apply andb_prop in He as [? _]|].
      split; [apply downCopy_isDownwardCopyOf|].
      apply mapM_Ok_Forall2 in Hd.
      destruct (Forall2_lookup_l _ _ _ _ _ Hd HS) as (js' & Hw' & Hwalk).
      assert (js' = js) as -> by congruence.
      apply walkFor_Ok in Hwalk as [[_ ->]|[_ Hwalk]]; [by apply elem_of_nil in Hj|].
      apply downTargets_visit in Hwalk.
      by apply descendant_reaches, (downVisit_reaches init _ _ j Hwalk).
Qed.

Lemma upward_copy_not_inherited_witness :
  ∃ init,
    enrich (tagOrder keysInOrder) snapFamily = Ok init ∧
    (∀ i S T chain,
       init !! i = Some S → T ∈ Tags S → PropagateUp T = true → Inherit T = true →
       upChain (spanIndex init) init (ParentSpanID S) chain →
       ∀ j, j ∈ chain →
            ∃ p t, Spans outFamily !! j = Some p ∧ t ∈ Tags p ∧ isUpwardCopyOf T t) ∧
    (∀ p t, p ∈ Spans outFamily → t ∈ Tags p → CopiedFromChild t = true →
            Inherit t = false ∧ Inherited t = false) ∧
    (∀ j p t, Spans outFamily !! j = Some p → t ∈ Tags p → Inherited t = true →
       ∃ i S T,
         init !! i = Some S ∧ T ∈ Tags S ∧ isOriginal T ∧ Inherit T = true ∧
         isDownwardCopyOf T t ∧ descendant init (SpanID S) j).
Proof.
  apply (upward_copy_not_inherited keysInOrder 4 snapFamily outFamily
           keysInOrder_valid snapFamily_Ok).
Defined.

(** C1 as stated fails: in [snapFamily] the child of the root holds the
    original "statement" tag, with [PropagateUp] and [Inherit] set.  The copy
    on the root has [Inherit] cleared, and the other child of the root has
    received no tag. *)
Lemma upward_copy_inherit_counterexample :
  ∃ root child sibling original,
    ProcessSnapshot keysInOrder 4 snapFamily = Ok outFamily ∧
    Spans outFamily !! 0%nat = Some root ∧
    Spans outFamily !! 1%nat = Some child ∧
    Spans outFamily !! 3%nat = Some sibling ∧
    ParentSpanID child = SpanID root ∧
    ParentSpanID sibling = SpanID root ∧
    Tags child = [original] ∧
    Key original = "statement" ∧
    PropagateUp original = true ∧ Inherit original = true ∧
    CopiedFromChild original = false ∧
    Tags root !! 1%nat = Some (upCopy original) ∧
    Inherit (upCopy original) = false ∧
    Tags sibling = [].
Proof.
  eexists _, _, _, _. split; [apply snapFamily_Ok|].
  split; [by vm_compute|]. split; [by vm_compute|]. split; [by vm_compute|].
  repeat split.
Qed.

(** ** Every descendant, and each once when the ids are unique *)





(** With two spans of the same id, the span below them is visited once from
    each and holds two copies. *)
Example duplicate_ids_copy_twice :
  Tags <$> Spans (outputOf (ProcessSnapshot keysInOrder 4 snapDuplicateIds))
  = [ [ statementTag "SELECT 5" ];
      [ downCopy (statementTag "SELECT 5") ];
      [ downCopy (statementTag "SELECT 5") ];
      [ downCopy (statementTag "SELECT 5"); downCopy (statementTag "SELECT 5") ] ].
Proof. by vm_compute. Qed.

(** ** Termination of the two walks *)

Lemma foldM_Ok_exists {A B : Type} (f : B → A → result B) (l : list A) (b : B) :
  (∀ b x, x ∈ l → ∃ b', f b x = Ok b') → ∃ r, foldM f b l = Ok r.
Proof.
  revert b. induction l as [|x l IH]; intros b H; simpl; [by eexists|].
  destruct (H b x) as [b' Hb']; [apply list_elem_of_here|]. rewrite Hb'. simpl.
  apply IH. intros b'' y Hy. apply H. by apply list_elem_of_further.
Qed.

Lemma mapM_Ok_exists {A B : Type} (f : A → result B) (l : list A) :
  (∀ x, x ∈ l → ∃ y, f x = Ok y) → ∃ ys, mapM f l = Ok ys.
Proof.
  induction l as [|x l IH]; intros H; simpl; [by eexists|].
  destruct (H x) as [y Hy]; [apply list_elem_of_here|]. rewrite Hy. simpl.
  destruct IH as [ys Hys]; [intros z Hz; by apply H, list_elem_of_further|].
  rewrite Hys. simpl. by eexists.
Qed.

Lemma tc_flip {A : Type} (R : relation A) (x y : A) : tc (flip R) x y → tc R y x.
Proof.
  induction 1 as [x y H|x y z H _ IH]; [by apply tc_once|].
  eapply tc_r; [exact IH|exact H].
Qed.

(** Following parent ids from an id reaches parent ids of the table only,
    and following them backwards reaches span ids of the table only. *)
Lemma stepsUp_finite (links : list (Z * Z)) (a : Z) :
  pred_finite (tc (stepsUp links) a).
Proof.
  exists (links.*2). intros b H.
  induction H as [x y H|x y z _ _ IH]; [|done].
  apply list_elem_of_fmap. by exists (x, y).
Qed.

Lemma stepsDown_finite (links : list (Z * Z)) (a : Z) :
  pred_finite (tc (flip (stepsUp links)) a).
Proof.
  exists (links.*1). intros b H.
  induction H as [x y H|x y z _ _ IH]; [|done].
  apply list_elem_of_fmap. by exists (y, x).
Qed.

(** Without a cycle every chain of parent ids ends, upwards and downwards. *)
Lemma acyclic_sn_up (links : list (Z * Z)) (a : Z) :
  acyclic links → sn (stepsUp links) a.
Proof. intros H. apply tc_finite_sn; [exact H | apply stepsUp_finite]. Qed.

Lemma acyclic_sn_down (links : list (Z * Z)) (a : Z) :
  acyclic links → sn (flip (stepsUp links)) a.
Proof.
  intros H. apply tc_finite_sn; [|apply stepsDown_finite].
  intros b Hb. apply (H b). by apply tc_flip.
Qed.

(** A ranking of the ids under which every span ranks above its parent id
    shows that there is no cycle. *)
Lemma ranked_acyclic (rank : Z → nat) (links : list (Z * Z)) :
  (∀ a b, (a, b) ∈ links → (rank b < rank a)%nat) → acyclic links.
Proof.
  intros Hrank a Ha.
  assert (∀ x y, tc (stepsUp links) x y → (rank y < rank x)%nat) as Htc.
  { induction 1 as [x y H|x y z H _ IH]; [by apply Hrank|].
    apply Hrank in H. lia. }
  apply Htc in Ha. lia.
Qed.

Lemma parentLinks_lookup (ps : table) (j : nat) (p : processedSpan) :
  ps !! j = Some p → stepsUp (parentLinks ps) (SpanID p) (ParentSpanID p).
Proof.
  intros H. unfold stepsUp, parentLinks. apply list_elem_of_fmap. exists p.
  split; [done|]. by eapply list_elem_of_lookup_2.
Qed.

Lemma enrich_parentLinks (r : nat → gmap string string → list string)
    (snap : tracing.SpansSnapshot) (init : table) :
  enrich r snap = Ok init → parentLinks init = snapshotLinks snap.
Proof.
  intros H. apply enrich_Ok in H. unfold parentLinks, snapshotLinks.
  induction H as [|s p raw init [i0 Hsp] _ IH]; [done|].
  apply processSpan_Ok in Hsp as [(_ & _ & Hid & Hpid & _) _].
  rewrite !fmap_cons. by rewrite Hid, Hpid, IH.
Qed.

(** A bound that serves each element of a list serves them all. *)
Lemma uniform_bound {A : Type} (Q : A → nat → Prop) (l : list A) :
  (∀ x, x ∈ l → ∃ F, ∀ fuel, (F ≤ fuel)%nat → Q x fuel) →
  ∃ F, ∀ fuel, (F ≤ fuel)%nat → ∀ x, x ∈ l → Q x fuel.
Proof.
  induction l as [|x l IH]; intros H.
  - exists 0%nat. by intros fuel _ x ?%elem_of_nil.
  - destruct (H x) as [F1 H1]; [apply list_elem_of_here|].
    destruct IH as [F2 H2]; [intros y Hy; by apply H, list_elem_of_further|].
    exists (F1 `max` F2)%nat. intros fuel Hf y [->|Hy]%elem_of_cons.
    + apply H1. lia.
    + apply H2; [lia|done].
Qed.

Lemma upTargets_terminates (ps : table) (pid : Z) :
  sn (stepsUp (parentLinks ps)) pid →
  ∃ F, ∀ fuel, (F ≤ fuel)%nat → ∃ js, upTargets fuel (spanIndex ps) ps pid = Ok js.
Proof.
  induction 1 as [pid _ IH].
  destruct (spanIndex ps !! pid) as [j|] eqn:Ej.
  - pose proof Ej as Ej'. apply spanIndex_lookup in Ej' as [(p & Hp & Hid) _].
    destruct (IH (ParentSpanID p)) as [F HF].
    { rewrite <- Hid. by eapply parentLinks_lookup. }
    exists (S F). intros [|fuel] Hf; [lia|]. simpl. rewrite Ej, Hp.
    destruct (HF fuel) as [js ->]; [lia|]. simpl. by eexists.
  - exists 1%nat. intros [|fuel] Hf; [lia|]. simpl. rewrite Ej. by eexists.
Qed.

Lemma downTargets_terminates (ps : table) (sid : Z) :
  sn (flip (stepsUp (parentLinks ps))) sid →
  ∃ F, ∀ fuel, (F ≤ fuel)%nat → ∃ js, downTargets fuel (childIndex ps) ps sid = Ok js.
Proof.
  induction 1 as [sid _ IH].
  destruct (uniform_bound
              (fun c fuel => ∃ p js, ps !! c = Some p ∧
                                     downTargets fuel (childIndex ps) ps (SpanID p) = Ok js)
              (childrenOf (childIndex ps) sid)) as [F HF].
  { intros c Hc. apply childIndex_elem in Hc. unfold isChildOf in Hc.
    destruct (ps !! c) as [p|] eqn:Ep; [|done]. simpl in Hc. injection Hc as Hc.
    destruct (IH (SpanID p)) as [F HF].
    { unfold flip. rewrite <- Hc. by eapply parentLinks_lookup. }
    exists F. intros fuel Hf. destruct (HF fuel Hf) as [js Hjs]. by exists p, js. }
  exists (S F). intros [|fuel] Hf; [lia|]. simpl.
  apply foldM_Ok_exists. intros acc c Hc.
  destruct (HF fuel ltac:(lia) c Hc) as (p & js & -> & ->). simpl. by eexists.
Qed.

(** C3, as the code has it: the code has no cycle guard, and the two walks
    end because the parent links end.  When the parent ids of the recorded
    spans form no cycle and enrichment returns, then from some bound on every
    upward walk and every downward propagation from a span of the table
    returns, and so does [ProcessSnapshot]. *)
Theorem acyclic_walks_terminate (order : rangeOrder) (snap : tracing.SpansSnapshot)
    (init : table) :
  validRange order →
  acyclic (snapshotLinks snap) →
  enrich (tagOrder order) snap = Ok init →
  ∃ bound, ∀ fuel, (bound ≤ fuel)%nat →
    (∀ tag S, S ∈ init →
       ∃ ps', propagateTagUpwards fuel tag S (spanIndex init) init = Ok ps') ∧
    (∀ tag S, S ∈ init →
       ∃ ps', propagateInheritTagDownwards fuel tag (SpanID S) (childIndex init) init
              = Ok ps') ∧
    (∃ out, ProcessSnapshot order fuel snap = Ok out).
Proof.
  intros Hv Hacyclic Hi. rewrite <- (enrich_parentLinks _ _ _ Hi) in Hacyclic.
  destruct (uniform_bound
              (fun S fuel => ∃ js, upWalk fuel (spanIndex init) init S = Ok js) init)
    as [Fup Hup].
  { intros S _. apply upTargets_terminates. by apply acyclic_sn_up. }
  destruct (uniform_bound
              (fun S fuel => ∃ js, downWalk fuel (childIndex init) init S = Ok js) init)
    as [Fdown Hdown].
  { intros S _. apply downTargets_terminates. by apply acyclic_sn_down. }
  exists (Fup `max` Fdown)%nat. intros fuel Hfuel.
  specialize (Hup fuel ltac:(lia)). specialize (Hdown fuel ltac:(lia)).
  split; [|split].
  - intros tag S HS. destruct (Hup S HS) as [js Hjs].
    rewrite propagateTagUpwards_walk, Hjs. simpl. by eexists.
  - intros tag S HS. destruct (Hdown S HS) as [js Hjs].
    rewrite propagateInheritTagDownwards_walk, Hjs. simpl. by eexists.
  - rewrite ProcessSnapshot_eq by done. rewrite Hi. simpl.
    destruct (mapM_Ok_exists (walkFor upEligible (upWalk fuel (spanIndex init)) init) init)
      as [ups ->].
    { intros S HS. unfold walkFor. destruct (decide _); [by eexists | by apply Hup]. }
    simpl.
    destruct (mapM_Ok_exists (walkFor downEligible (downWalk fuel (childIndex init)) init)
                init) as [downs ->].
    { intros S HS. unfold walkFor. destruct (decide _); [by eexists | by apply Hdown]. }
    simpl. by eexists.
Qed.

Lemma snapFamily_enrich : enrich (tagOrder keysInOrder) snapFamily = Ok tableFamily.
Proof. by vm_compute. Qed.

Lemma snapFamily_acyclic : acyclic (snapshotLinks snapFamily).
Proof.
  apply (ranked_acyclic Z.to_nat). intros a b Hab. vm_compute in Hab.
  repeat (apply elem_of_cons in Hab as [[= -> ->]|Hab]; [simpl; lia|]).
  by apply elem_of_nil in Hab.
Qed.

Lemma acyclic_walks_terminate_witness :
  ∃ bound, ∀ fuel, (bound ≤ fuel)%nat →
    ∃ out, ProcessSnapshot keysInOrder fuel snapFamily = Ok out.
Proof.
  destruct (acyclic_walks_terminate keysInOrder snapFamily tableFamily
              keysInOrder_valid snapFamily_acyclic snapFamily_enrich) as [bound H].
  exists bound. intros fuel Hfuel. by destruct (H fuel Hfuel) as (_ & _ & ?).
Defined.

(** ** Snapshots with a cycle *)

Lemma walkFor_trigger (eligible : ProcessedTag → bool)
    (walk : table → processedSpan → result (list nat)) (ps0 : table) (s : processedSpan) :
  triggers eligible (Tags s) ≠ [] → walkFor eligible walk ps0 s = walk ps0 s.
Proof. intros H. unfold walkFor. by rewrite decide_False. Qed.

Lemma selfParent_enrich :
  enrich (tagOrder keysInOrder) snapSelfParent = Ok tableSelfParent.
Proof. by vm_compute. Qed.

Lemma twoCycle_enrich :
  enrich (tagOrder keysInOrder) snapTwoCycle = Ok tableTwoCycle.
Proof. by vm_compute. Qed.

Lemma selfParent_upTargets (fuel : nat) :
  upTargets fuel (spanIndex tableSelfParent) tableSelfParent 1 = OutOfFuel.
Proof.
  induction fuel as [|fuel IH]; [done|]. cbn [upTargets].
  assert (spanIndex tableSelfParent !! 1 = Some 0%nat) as -> by (by vm_compute).
  change (tableSelfParent !! 0%nat) with (Some spanSelfParent). cbv iota beta.
  change (ParentSpanID spanSelfParent) with 1. by rewrite IH.
Qed.

Lemma selfParent_downTargets (fuel : nat) :
  downTargets fuel (childIndex tableSelfParent) tableSelfParent 1 = OutOfFuel.
Proof.
  induction fuel as [|fuel IH]; [done|]. cbn [downTargets].
  assert (childrenOf (childIndex tableSelfParent) 1 = [0%nat]) as -> by (by vm_compute).
  cbn [foldM].
  change (tableSelfParent !! 0%nat) with (Some spanSelfParent). cbv iota beta.
  change (SpanID spanSelfParent) with 1. by rewrite IH.
Qed.

Lemma twoCycle_upTargets (fuel : nat) :
  upTargets fuel (spanIndex tableTwoCycle) tableTwoCycle 2 = OutOfFuel ∧
  upTargets fuel (spanIndex tableTwoCycle) tableTwoCycle 1 = OutOfFuel.
Proof.
  induction fuel as [|fuel [IH2 IH1]]; [done|]. cbn [upTargets].
  assert (spanIndex tableTwoCycle !! 2 = Some 1%nat) as -> by (by vm_compute).
  assert (spanIndex tableTwoCycle !! 1 = Some 0%nat) as -> by (by vm_compute).
  split.
  - destruct (tableTwoCycle !! 1%nat) as [p|] eqn:E; [|done].
    injection E as <-. cbn [ParentSpanID]. by rewrite IH1.
  - destruct (tableTwoCycle !! 0%nat) as [p|] eqn:E; [|done].
    injection E as <-. cbn [ParentSpanID]. by rewrite IH2.
Qed.

Lemma diverging_walk_diverges (order : rangeOrder) (snap : tracing.SpansSnapshot)
    (S : processedSpan) (rest : table) (fuel : nat) :
  validRange order →
  enrich (tagOrder order) snap = Ok (S :: rest) →
  triggers upEligible (Tags S) ≠ [] →
  upTargets fuel (spanIndex (S :: rest)) (S :: rest) (ParentSpanID S) = OutOfFuel →
  ProcessSnapshot order fuel snap = OutOfFuel.
Proof.
  intros Hv Hi Htr Hup. rewrite ProcessSnapshot_eq by done. rewrite Hi. simpl.
  rewrite (walkFor_trigger upEligible _ _ S Htr). unfold upWalk. by rewrite Hup.
Qed.

(** C3 as stated fails: nothing stops the walks on a cycle.  On a span that
    is its own parent and on two spans that are each other's parent,
    [ProcessSnapshot] does not return, whatever the bound; on the table of the
    first snapshot neither the upward walk nor the downward propagation from
    the span returns. *)
Lemma cycle_counterexample :
  tc (stepsUp (snapshotLinks snapSelfParent)) 1 1 ∧
  tc (stepsUp (snapshotLinks snapTwoCycle)) 1 1 ∧
  (∀ fuel, ProcessSnapshot keysInOrder fuel snapSelfParent = OutOfFuel) ∧
  (∀ fuel, ProcessSnapshot keysInOrder fuel snapTwoCycle = OutOfFuel) ∧
  (∀ fuel tag,
     propagateTagUpwards fuel tag spanSelfParent (spanIndex tableSelfParent)
       tableSelfParent = OutOfFuel) ∧
  (∀ fuel tag,
     propagateInheritTagDownwards fuel tag (SpanID spanSelfParent)
       (childIndex tableSelfParent) tableSelfParent = OutOfFuel).
Proof.
  split; [|split; [|split; [|split; [|split]]]].
  - apply tc_once. unfold stepsUp. by vm_compute; left.
  - apply (tc_l _ 1 2 1); [|apply tc_once]; unfold stepsUp; vm_compute;
      [by left | by right; left].
  - intros fuel.
    apply (diverging_walk_diverges keysInOrder snapSelfParent spanSelfParent []);
      [apply keysInOrder_valid | apply selfParent_enrich | by vm_compute |].
    apply selfParent_upTargets.
  - intros fuel.
    eapply (diverging_walk_diverges keysInOrder snapTwoCycle);
      [apply keysInOrder_valid | apply twoCycle_enrich | by vm_compute |].
    apply twoCycle_upTargets.
  - intros fuel tag. rewrite propagateTagUpwards_walk. unfold upWalk.
    change (ParentSpanID spanSelfParent) with 1. by rewrite selfParent_upTargets.
  - intros fuel tag. rewrite propagateInheritTagDownwards_targets.
    change (SpanID spanSelfParent) with 1. by rewrite selfParent_downTargets.
Qed.

(** ** The scenarios of the specification *)

(** Scenario A: the blocked span shows the id cut to eight bytes and the
    caption for an unknown transaction, and the root holds the copy. *)
Example scenario_A :
  (Tags <$> Spans outScenarioA)
  = [ [ lockHolderTag "abcdef1234567890" "blocked on unknown transaction" ];
      [ upCopy (lockHolderTag "abcdef1234567890" "blocked on unknown transaction") ] ].
Proof. by vm_compute. Qed.

(** Scenario B, with an id of eight bytes. *)
Example scenario_B :
  processTag "lock_holder_txn" "tx1-4567" (snapScenarioB "tx1-4567")
  = Ok (lockHolderTag "tx1-4567" "blocked on txn currently running query: SELECT 1").
Proof. by vm_compute. Qed.

(** Scenario B as the specification has it: the id "tx1" is too short to cut. *)
Example scenario_B_short_id :
  processTag "lock_holder_txn" "tx1" (snapScenarioB "tx1") = Panic.
Proof. reflexivity. Qed.

(** Scenario C: the statement of the child is on the child, on the root as
    the upward copy, and on the grandchild as the downward copy. *)
Example scenario_C :
  (Tags <$> Spans outFamily)
  = [ [ {| Key := "zone"; Val := "z1"; Caption := ""; Link := ""; Hidden := false;
           Highlight := false; Inherit := false; Inherited := false;
           PropagateUp := false; CopiedFromChild := false |};
        upCopy (statementTag "SELECT 2") ];
      [ statementTag "SELECT 2" ];
      [ downCopy (statementTag "SELECT 2") ];
      [] ].
Proof. by vm_compute. Qed.

(** * Further properties of the code *)

(** ** When the enrichment panics *)

Lemma mapM_outcome {A B : Type} (f : A → result B) (l : list A) :
  (∀ x, f x ≠ OutOfFuel) →
  mapM f l ≠ OutOfFuel ∧ (mapM f l = Panic ↔ ∃ x, x ∈ l ∧ f x = Panic).
Proof.
  intros Hf. induction l as [|x l [IH1 IH2]]; simpl.
  - split; [done|]. split; [done|]. by intros (x & ?%elem_of_nil & _).
  - destruct (f x) as [y| |] eqn:Ex; simpl.
    + destruct (mapM f l) as [ys| |] eqn:El; simpl.
      * split; [done|]. split; [done|].
        intros (z & [->|Hz]%elem_of_cons & Hpz); [congruence|].
        assert (Ok ys = Panic) as Habs; [|done]. apply IH2. by exists z.
      * split; [done|]. split; [|done]. intros _.
        destruct IH2 as [IH2 _]. destruct (IH2 eq_refl) as (z & Hz & Hpz).
        exists z. split; [by apply list_elem_of_further|done].
      * done.
    + split; [done|]. split; [|done]. intros _. exists x.
      split; [apply list_elem_of_here|done].
    + by destruct (Hf x).
Qed.

Lemma mapM_no_Panic {A B : Type} (f : A → result B) (l : list A) :
  (∀ x, x ∈ l → f x ≠ Panic) → mapM f l ≠ Panic.
Proof.
  induction l as [|x l IH]; intros Hf; simpl; [done|].
  destruct (f x) as [y| |] eqn:Ex; simpl.
  - destruct (mapM f l) as [ys| |] eqn:El; simpl; [done| |done].
    exfalso. apply IH; [|done]. intros z Hz. by apply Hf, list_elem_of_further.
  - exfalso. by apply (Hf x); [apply list_elem_of_here|].
  - done.
Qed.

(** [processTag] panics on a [lock_holder_txn] tag whose value has fewer than
    8 bytes and on nothing else; it has no loop to run out of fuel in. *)
Lemma processTag_outcome (k v : string) (snap : tracing.SpansSnapshot) :
  (processTag k v snap = Panic
   ↔ k = "lock_holder_txn" ∧ (String.length v < 8)%nat) ∧
  processTag k v snap ≠ OutOfFuel.
Proof.
  unfold processTag.
  destruct (String.eqb_spec k "lock_holder_txn") as [->|Hk].
  - unfold slice_to. destruct (Nat.ltb_spec (String.length v) 8) as [Hlt|Hge]; simpl.
    + by split.
    + split; [|done]. split; [done|]. intros [_ ?]. lia.
  - destruct (String.eqb k "statement"); (split; [|done]); split; try done;
      by intros [? _].
Qed.

(** The keys that [processSpan] converts are the keys of the tag map. *)
Lemma sorted_keys_elem (r : gmap string string → list string) (m : gmap string string)
    (k : string) :
  (∀ m, r m ≡ₚ (map_to_list m).*1) →
  k ∈ sortStrings (r m) ↔ is_Some (m !! k).
Proof.
  intros Hr. rewrite sortStrings_perm, Hr, list_elem_of_fmap. split.
  - intros ([k' v] & -> & Hkv). apply elem_of_map_to_list in Hkv. by eexists.
  - intros [v Hv]. exists (k, v). split; [done|]. by apply elem_of_map_to_list.
Qed.

Lemma processSpan_outcome (r : gmap string string → list string)
    (s : tracingpb.RecordedSpan) (snap : tracing.SpansSnapshot) :
  (∀ m, r m ≡ₚ (map_to_list m).*1) →
  processSpan r s snap ≠ OutOfFuel ∧
  (processSpan r s snap = Panic
   ↔ ∃ v, tracingpb.Tags s !! "lock_holder_txn" = Some v ∧ (String.length v < 8)%nat).
Proof.
  intros Hr. unfold processSpan.
  destruct (mapM_outcome
              (fun k => processTag k (map_get (tracingpb.Tags s) k) snap)
              (sortStrings (r (tracingpb.Tags s)))) as [Hfuel Hpanic].
  { intros k. apply processTag_outcome. }
  destruct (mapM _ (sortStrings (r (tracingpb.Tags s)))) as [tags| |] eqn:E; simpl.
  - split; [done|]. split; [done|]. intros (v & Hv & Hlen).
    assert (Ok tags = Panic) as Habs; [|done]. apply Hpanic.
    exists "lock_holder_txn". split.
    + apply sorted_keys_elem; [done|]. by eexists.
    + apply processTag_outcome. unfold map_get. by rewrite Hv.
  - split; [done|]. split; [|done]. intros _.
    destruct Hpanic as [Hpanic _]. destruct (Hpanic eq_refl) as (k & Hk & Hpk).
    apply processTag_outcome in Hpk as [-> Hlen].
    apply sorted_keys_elem in Hk as [v Hv]; [|done].
    exists v. split; [done|]. unfold map_get in Hlen. by rewrite Hv in Hlen.
  - done.
Qed.

Lemma enrich_outcome (r : nat → gmap string string → list string)
    (snap : tracing.SpansSnapshot) :
  (∀ i m, r i m ≡ₚ (map_to_list m).*1) →
  enrich r snap ≠ OutOfFuel ∧
  (enrich r snap = Panic
   ↔ ∃ s v, s ∈ concat (tracing.Traces snap) ∧
            tracingpb.Tags s !! "lock_holder_txn" = Some v ∧ (String.length v < 8)%nat).
Proof.
  intros Hr. unfold enrich.
  destruct (mapM_outcome (fun x => processSpan (r x.1) x.2 snap)
              (imap pair (concat (tracing.Traces snap)))) as [Hfuel Hpanic].
  { intros [i s]. by apply processSpan_outcome. }
  split; [done|]. rewrite Hpanic. split.
  - intros ([i s] & Hs & Hps). simpl in Hps.
    apply processSpan_outcome in Hps as (v & Hv & Hlen); [|done].
    apply elem_of_lookup_imap in Hs as (i' & s' & [= <- <-] & Hs).
    exists s, v. split; [by eapply list_elem_of_lookup_2|done].
  - intros (s & v & [i Hs]%list_elem_of_lookup & Hv & Hlen). exists (i, s). split.
    + apply elem_of_lookup_imap. by exists i, s.
    + simpl. apply processSpan_outcome; [done|]. by exists v.
Qed.

(** The pointers of the two indexes point into the table: the walks do not
    panic.  A walk either returns or does not end. *)
Lemma upTargets_no_Panic (fuel : nat) (ps : table) (pid : Z) :
  upTargets fuel (spanIndex ps) ps pid ≠ Panic.
Proof.
  revert pid. induction fuel as [|fuel IH]; intros pid; simpl; [done|].
  destruct (spanIndex ps !! pid) as [j|] eqn:Ej; [|done].
  apply spanIndex_lookup in Ej as [(p & Hp & _) _]. rewrite Hp.
  specialize (IH (ParentSpanID p)).
  by destruct (upTargets fuel (spanIndex ps) ps (ParentSpanID p)).
Qed.

Lemma foldM_no_Panic {A B : Type} (f : B → A → result B) (l : list A) (b : B) :
  (∀ b x, x ∈ l → f b x ≠ Panic) → foldM f b l ≠ Panic.
Proof.
  revert b. induction l as [|x l IH]; intros b Hf; simpl; [done|].
  destruct (f b x) as [b'| |] eqn:E; simpl.
  - apply IH. intros b'' y Hy. by apply Hf, list_elem_of_further.
  - exfalso. by apply (Hf b x); [apply list_elem_of_here|].
  - done.
Qed.

Lemma downTargets_no_Panic (fuel : nat) (ps : table) (sid : Z) :
  downTargets fuel (childIndex ps) ps sid ≠ Panic.
Proof.
  revert sid. induction fuel as [|fuel IH]; intros sid; simpl; [done|].
  apply foldM_no_Panic. intros acc c Hc.
  apply childIndex_elem in Hc. unfold isChildOf in Hc.
  destruct (ps !! c) as [p|]; [|done].
  specialize (IH (SpanID p)).
  by destruct (downTargets fuel (childIndex ps) ps (SpanID p)).
Qed.

Lemma walks_no_Panic (fuel : nat) (init : table) :
  mapM (walkFor upEligible (upWalk fuel (spanIndex init)) init) init ≠ Panic ∧
  mapM (walkFor downEligible (downWalk fuel (childIndex init)) init) init ≠ Panic.
Proof.
  split; apply mapM_no_Panic; intros S _; unfold walkFor; destruct (decide _); try done.
  - apply upTargets_no_Panic.
  - apply downTargets_no_Panic.
Qed.

(** X1: [ProcessSnapshot] panics exactly when some span of the snapshot has a
    [lock_holder_txn] tag whose value has fewer than 8 bytes: the slice
    [v[:8]] of the enrichment is the only step that can panic.  The two
    passes raise no panic; what can go wrong in them is that a walk on a
    cycle does not end, the loop of [propagateTagUpwards] running on and the
    recursion of [propagateInheritTagDownwards] growing until Go stops the
    process for want of stack, with a fatal error that is not a panic and of
    which this statement says nothing. *)
Theorem ProcessSnapshot_panics_on_short_lock_holder_only (order : rangeOrder)
    (fuel : nat) (snap : tracing.SpansSnapshot) :
  validRange order →
  ProcessSnapshot order fuel snap = Panic
  ↔ ∃ s v, s ∈ concat (tracing.Traces snap) ∧
           tracingpb.Tags s !! "lock_holder_txn" = Some v ∧ (String.length v < 8)%nat.
Proof.
  intros Hv. destruct (enrich_outcome (tagOrder order) snap (proj1 Hv)) as [_ <-].
  rewrite ProcessSnapshot_eq by done.
  destruct (enrich (tagOrder order) snap) as [init| |]; simpl; [|done..].
  destruct (walks_no_Panic fuel init) as [Hup Hdown].
  destruct (mapM (walkFor upEligible _ init) init) as [ups| |]; simpl; [|done..].
  by destruct (mapM (walkFor downEligible _ init) init) as [downs| |].
Qed.

Lemma ProcessSnapshot_panics_on_short_lock_holder_only_witness :
  ProcessSnapshot keysInOrder 3 snapShortTxn = Panic.
Proof.
  apply (ProcessSnapshot_panics_on_short_lock_holder_only keysInOrder 3 snapShortTxn
           keysInOrder_valid).
  exists (mkSpan 1 0 7 "kv" [("lock_holder_txn", "abc")]), "abc".
  split; [apply list_elem_of_here|]. split; [by vm_compute | simpl; lia].
Defined.

(** ** Where the tags of the output come from *)

Lemma processSpan_tag_origin (r : gmap string string → list string)
    (s : tracingpb.RecordedSpan) (snap : tracing.SpansSnapshot) (p : processedSpan)
    (T : ProcessedTag) :
  (∀ m, r m ≡ₚ (map_to_list m).*1) →
  processSpan r s snap = Ok p → T ∈ Tags p →
  ∃ k v, tracingpb.Tags s !! k = Some v ∧ processTag k v snap = Ok T.
Proof.
  intros Hr H HT. apply processSpan_Ok in H as [_ H]. apply mapM_Ok_Forall2 in H.
  apply list_elem_of_lookup in HT as [i Hi].
  destruct (Forall2_lookup_r _ _ _ _ _ H Hi) as (k & Hk & HkT).
  apply list_elem_of_lookup_2 in Hk. apply sorted_keys_elem in Hk as [v Hv]; [|done].
  exists k, v. split; [done|]. unfold map_get in HkT. by rewrite Hv in HkT.
Qed.

Lemma enrich_tag_origin (r : nat → gmap string string → list string)
    (snap : tracing.SpansSnapshot) (init : table) (p : processedSpan) (T : ProcessedTag) :
  (∀ i m, r i m ≡ₚ (map_to_list m).*1) →
  enrich r snap = Ok init → p ∈ init → T ∈ Tags p →
  ∃ s k v, s ∈ concat (tracing.Traces snap) ∧
           tracingpb.Tags s !! k = Some v ∧ processTag k v snap = Ok T.
Proof.
  intros Hr Hi Hp HT. apply enrich_Ok in Hi.
  apply list_elem_of_lookup in Hp as [i Hp].
  destruct (Forall2_lookup_r _ _ _ _ _ Hi Hp) as (s & Hs & i0 & Hsp).
  destruct (processSpan_tag_origin (r i0) s snap p T (Hr i0) Hsp HT)
    as (k & v & Hv & HT').
  exists s, k, v. split; [by eapply list_elem_of_lookup_2|done].
Qed.

Lemma output_tag_origin (order : rangeOrder) (fuel : nat) (snap : tracing.SpansSnapshot)
    (out : ProcessedSnapshot) (p : processedSpan) (t : ProcessedTag) :
  validRange order →
  ProcessSnapshot order fuel snap = Ok out →
  p ∈ Spans out → t ∈ Tags p →
  ∃ s k v T, s ∈ concat (tracing.Traces snap) ∧
             tracingpb.Tags s !! k = Some v ∧
             processTag k v snap = Ok T ∧ madeFrom T t.
Proof.
  intros Hv H Hp Ht.
  destruct (ProcessSnapshot_tags _ _ _ _ Hv H) as (init & ups & downs & Hi & _ & _ & Htags).
  apply list_elem_of_lookup in Hp as [j Hp].
  destruct (Htags j p Hp) as (p0 & Hp0 & _ & Heq). rewrite Heq in Ht.
  assert (∀ q T, q ∈ init → T ∈ Tags q →
            ∃ s k v, s ∈ concat (tracing.Traces snap) ∧
                     tracingpb.Tags s !! k = Some v ∧ processTag k v snap = Ok T) as Horig.
  { intros q T. by apply (enrich_tag_origin (tagOrder order)); [apply Hv|]. }
  apply elem_of_app in Ht as [Ht|Ht]; [|apply elem_of_app in Ht as [Ht|Ht]].
  - destruct (Horig p0 t) as (s & k & v & Hs & Hkv & HT);
      [by eapply list_elem_of_lookup_2|done|].
    exists s, k, v, t. repeat split; try done. by left.
  - apply receivedAll_elem in Ht as (i & S & js & T & HS & _ & HT & He & _ & ->).
    destruct (Horig S T) as (s & k & v & Hs & Hkv & HT');
      [by eapply list_elem_of_lookup_2|done|].
    exists s, k, v, T. repeat split; try done. right. left.
    unfold upEligible in He. by apply andb_prop in He as [-> _].
  - apply receivedAll_elem in Ht as (i & S & js & T & HS & _ & HT & He & _ & ->).
    destruct (Horig S T) as (s & k & v & Hs & Hkv & HT');
      [by eapply list_elem_of_lookup_2|done|].
    exists s, k, v, T. repeat split; try done. right. right.
    unfold downEligible in He. by apply andb_prop in He as [-> _].
Qed.



(** What [processTag] sets, by key. *)
Lemma processTag_fields (k v : string) (snap : tracing.SpansSnapshot) (T : ProcessedTag) :
  processTag k v snap = Ok T →
  Key T = k ∧
  Hidden T = bool_decide (k ∈ hiddenTags) ∧
  (Highlight T = true ↔ k = "lock_holder_txn") ∧
  (PropagateUp T = true ↔ k = "lock_holder_txn" ∨ k = "statement") ∧
  (Inherit T = true ↔ k = "statement") ∧
  Inherited T = false ∧ CopiedFromChild T = false.
Proof.
  unfold processTag. destruct (String.eqb_spec k "lock_holder_txn") as [->|Hk].
  - intros H. apply bind_Ok in H as [short [_ [= <-]]]. simpl.
    repeat split; try done; auto.
  - destruct (String.eqb_spec k "statement") as [->|Hs]; intros [= <-]; simpl.
    + repeat split; try done; auto.
    + repeat split; try done; intros; try tauto. 
Qed.

(** X3: the keys that travel. In the output, a tag marked [Inherited] has the
    key [statement], and a tag marked [CopiedFromChild] has the key
    [statement] or [lock_holder_txn]: no other tag is ever copied from one
    span to another. *)
Theorem copies_have_propagated_keys (order : rangeOrder) (fuel : nat)
    (snap : tracing.SpansSnapshot) (out : ProcessedSnapshot) :
  validRange order →
  ProcessSnapshot order fuel snap = Ok out →
  Forall (fun p =>
            Forall (fun t =>
                      (Inherited t = true → Key t = "statement") ∧
                      (CopiedFromChild t = true →
                       Key t = "statement" ∨ Key t = "lock_holder_txn"))
                   (Tags p))
         (Spans out).
Proof.
  intros Hv H. apply Forall_forall. intros p Hp. apply Forall_forall. intros t Ht.
  destruct (output_tag_origin _ _ _ _ p t Hv H Hp Ht) as (s & k & v & T & _ & _ & HT & Hm).
  apply processTag_fields in HT as (HK & _ & _ & Hup & Hinh & Hi & Hc).
  destruct Hm as [->|[[HU ->]|[HI ->]]]; simpl.
  - rewrite Hi, Hc. by split.
  - rewrite Hi, HK. split; [done|]. intros _. apply Hup in HU. tauto.
  - rewrite Hc, HK. split; [|done]. intros _. by apply Hinh.
Qed.

Lemma copies_have_propagated_keys_witness :
  Forall (fun p =>
            Forall (fun t =>
                      (Inherited t = true → Key t = "statement") ∧
                      (CopiedFromChild t = true →
                       Key t = "statement" ∨ Key t = "lock_holder_txn"))
                   (Tags p))
         (Spans outScenarioA).
Proof.
  exact (copies_have_propagated_keys keysInOrder 4 snapScenarioA outScenarioA
           keysInOrder_valid snapScenarioA_Ok).
Defined.

Lemma hiddenTags_elem (k : string) :
  k ∈ hiddenTags ↔ k ∈ ["_unfinished"; "_verbose"; "_dropped"; "node"; "store"].
Proof.
  unfold hiddenTags.
  rewrite !elem_of_union, !elem_of_singleton, !elem_of_cons, elem_of_nil. tauto.
Qed.

(** X4: the display flags of the output. A tag is [Hidden] exactly when its
    key is one of the five hidden keys or it was inherited from an ancestor,
    and it is highlighted exactly when its key is [lock_holder_txn]; an
    upward copy keeps both flags of its original. *)
Theorem display_flags (order : rangeOrder) (fuel : nat)
    (snap : tracing.SpansSnapshot) (out : ProcessedSnapshot) :
  validRange order →
  ProcessSnapshot order fuel snap = Ok out →
  Forall (fun p =>
            Forall (fun t =>
                      (Hidden t = true
                       ↔ Key t ∈ ["_unfinished"; "_verbose"; "_dropped"; "node"; "store"]
                         ∨ Inherited t = true) ∧
                      (Highlight t = true ↔ Key t = "lock_holder_txn"))
                   (Tags p))
         (Spans out).
Proof.
  intros Hv H. apply Forall_forall. intros p Hp. apply Forall_forall. intros t Ht.
  destruct (output_tag_origin _ _ _ _ p t Hv H Hp Ht) as (s & k & v & T & _ & _ & HT & Hm).
  apply processTag_fields in HT as (HK & Hh & Hhl & _ & _ & Hi & _).
  assert (Hidden T = true ↔ k ∈ ["_unfinished"; "_verbose"; "_dropped"; "node"; "store"])
    as Hh'.
  { rewrite Hh, <- hiddenTags_elem. apply bool_decide_eq_true. }
  destruct Hm as [->|[[_ ->]|[_ ->]]]; simpl; rewrite ?HK, ?Hi.
  - split; [|done]. rewrite Hh'. split; [by left | by intros [?|?]].
  - split; [|done]. rewrite Hh'. split; [by left | by intros [?|?]].
  - split; [|done]. split; [by right|done].
Qed.

Lemma display_flags_witness :
  Forall (fun p =>
            Forall (fun t =>
                      (Hidden t = true
                       ↔ Key t ∈ ["_unfinished"; "_verbose"; "_dropped"; "node"; "store"]
                         ∨ Inherited t = true) ∧
                      (Highlight t = true ↔ Key t = "lock_holder_txn"))
                   (Tags p))
         (Spans outScenarioA).
Proof.
  exact (display_flags keysInOrder 4 snapScenarioA outScenarioA
           keysInOrder_valid snapScenarioA_Ok).
Defined.

(** ** A snapshot without propagated tags *)

Lemma nil_no_elem {A : Type} (l : list A) : (∀ x, x ∉ l) → l = [].
Proof.
  destruct l as [|x l]; [done|]. intros H. destruct (H x). apply list_elem_of_here.
Qed.

Lemma mapM_const {A B : Type} (f : A → result B) (l : list A) (y : B) :
  (∀ x, x ∈ l → f x = Ok y) → mapM f l = Ok (replicate (length l) y).
Proof.
  induction l as [|x l IH]; intros H; simpl; [done|].
  rewrite (H x) by apply list_elem_of_here. simpl.
  rewrite IH; [done|]. intros z Hz. by apply H, list_elem_of_further.
Qed.

(** X5: a snapshot none of whose spans has a [statement] or a
    [lock_holder_txn] tag is processed without a single walk: the run returns
    whatever the parent ids are, cycles included, and its spans are the
    enriched spans, none with a copy. *)
Theorem no_propagated_tag_no_walk (order : rangeOrder) (snap : tracing.SpansSnapshot) :
  validRange order →
  Forall (fun s => tracingpb.Tags s !! "statement" = None ∧
                   tracingpb.Tags s !! "lock_holder_txn" = None)
         (concat (tracing.Traces snap)) →
  ∃ init,
    enrich (tagOrder order) snap = Ok init ∧
    ∀ fuel,
      ProcessSnapshot order fuel snap
      = Ok {| Spans := init;
              Stacks := stitchStacks (tracing.Stacks snap) (concat (tracing.Traces snap)) |}.
Proof.
  intros Hv Hq. rewrite Forall_forall in Hq.
  destruct (enrich_outcome (tagOrder order) snap (proj1 Hv)) as [Hfuel Hpanic].
  destruct (enrich (tagOrder order) snap) as [init| |] eqn:Hi; [|exfalso|done].
  - exists init. split; [done|]. intros fuel.
    rewrite ProcessSnapshot_eq, Hi by done. simpl.
    assert (∀ p T, p ∈ init → T ∈ Tags p →
              PropagateUp T = false ∧ Inherit T = false) as Hquiet.
    { intros p T Hp HT.
      destruct (enrich_tag_origin (tagOrder order) snap init p T (proj1 Hv) Hi Hp HT)
        as (s & k & v & Hs & Hkv & HT').
      destruct (Hq s Hs) as [Hst Hlh].
      apply processTag_fields in HT' as (_ & _ & _ & Hup & Hinh & _).
      split.
      - destruct (PropagateUp T); [|done].
        destruct Hup as [Hup _]. destruct (Hup eq_refl) as [->| ->]; congruence.
      - destruct (Inherit T); [|done].
        destruct Hinh as [Hinh _]. rewrite (Hinh eq_refl) in Hkv. congruence. }
    assert (∀ p, p ∈ init → triggers upEligible (Tags p) = []) as Hup.
    { intros p Hp. apply nil_no_elem. intros T [He HT]%triggers_elem.
      destruct (Hquiet p T Hp HT) as [HU _]. unfold upEligible in He.
      by rewrite HU in He. }
    assert (∀ p, p ∈ init → triggers downEligible (Tags p) = []) as Hdown.
    { intros p Hp. apply nil_no_elem. intros T [He HT]%triggers_elem.
      destruct (Hquiet p T Hp HT) as [_ HI]. unfold downEligible in He.
      by rewrite HI in He. }
    rewrite (mapM_const (walkFor upEligible (upWalk fuel (spanIndex init)) init) init []).
    2:{ intros p Hp. unfold walkFor. by rewrite decide_True by by apply Hup. }
    rewrite (mapM_const (walkFor downEligible (downWalk fuel (childIndex init)) init)
               init []).
    2:{ intros p Hp. unfold walkFor. by rewrite decide_True by by apply Hdown. }
    simpl.
    do 2 f_equal. apply extend_id. intros j.
    apply nil_no_elem. intros t [Ht|Ht]%elem_of_app;
      apply receivedAll_elem in Ht as (i & S & js & T & HS & Hw & _ & _ & Hj & _);
      apply lookup_replicate in Hw as [-> _]; by apply elem_of_nil in Hj.
  - destruct Hpanic as [Hpanic _].
    destruct (Hpanic eq_refl) as (s & v & Hs & Hv' & _).
    destruct (Hq s Hs) as [_ Hlh]. congruence.
Qed.

Lemma no_propagated_tag_no_walk_witness :
  ∃ init,
    enrich (tagOrder keysInOrder) snapQuietCycle = Ok init ∧
    ∀ fuel,
      ProcessSnapshot keysInOrder fuel snapQuietCycle
      = Ok {| Spans := init;
              Stacks := stitchStacks (tracing.Stacks snapQuietCycle)
                          (concat (tracing.Traces snapQuietCycle)) |}.
Proof.
  apply (no_propagated_tag_no_walk keysInOrder snapQuietCycle keysInOrder_valid).
  repeat constructor; by vm_compute.
Defined.

(** ** Bounds on the walks *)

Lemma NoDup_bounded_length (js : list nat) (n : nat) :
  NoDup js → (∀ j, j ∈ js → (j < n)%nat) → (length js ≤ n)%nat.
Proof.
  intros Hnd Hlt. rewrite <- (length_seq n 0). apply submseteq_length.
  apply NoDup_submseteq; [done|]. intros j Hj. apply elem_of_seq.
  specialize (Hlt j Hj). lia.
Qed.

(** X6: a call of [propagateTagUpwards] that returns has written the copy to
    pairwise different spans, so to at most as many as the table holds, and
    its loop has ended within that many rounds and one. *)
Theorem upward_walk_bounded (fuel : nat) (tag : ProcessedTag) (sp : processedSpan)
    (spans : gmap Z nat) (ps ps' : table) :
  propagateTagUpwards fuel tag sp spans ps = Ok ps' →
  ∃ js, NoDup js ∧ (length js ≤ length ps)%nat ∧
        ps' = foldl (addTag (upCopy tag)) ps js ∧
        propagateTagUpwards (S (length ps)) tag sp spans ps = Ok ps'.
Proof.
  unfold propagateTagUpwards. rewrite !walkUp_targets. intros H.
  apply bind_Ok in H as (js & Hjs & [= <-]). exists js.
  apply upTargets_chain in Hjs.
  assert (NoDup js) as Hnd by by eapply upChain_NoDup.
  assert (length js ≤ length ps)%nat as Hlen.
  { apply NoDup_bounded_length; [done|]. intros j Hj.
    destruct (upChain_positions _ _ _ _ j Hjs Hj) as [p Hp].
    by eapply lookup_lt_Some. }
  repeat split; try done.
  rewrite (upChain_targets _ _ _ _ Hjs) by lia. done.
Qed.

Lemma upward_walk_bounded_witness :
  ∃ js, NoDup js ∧ (length js ≤ length tableFamily)%nat ∧
        tableOf (propagateTagUpwards 9 (statementTag "SELECT 2") spanScan
                   (spanIndex tableFamily) tableFamily)
        = foldl (addTag (upCopy (statementTag "SELECT 2"))) tableFamily js ∧
        propagateTagUpwards (S (length tableFamily)) (statementTag "SELECT 2") spanScan
          (spanIndex tableFamily) tableFamily
        = Ok (tableOf (propagateTagUpwards 9 (statementTag "SELECT 2") spanScan
                         (spanIndex tableFamily) tableFamily)).
Proof.
  apply (upward_walk_bounded 9). by vm_compute.
Defined.

(** X7: on a table whose span ids are unique, a call of
    [propagateInheritTagDownwards] that returns has written the copy once to
    each descendant of the span and to no other span, so to at most as many
    spans as the table holds. *)
Theorem downward_walk_bounded (fuel : nat) (tag : ProcessedTag) (sid : Z)
    (ps ps' : table) :
  NoDup (SpanID <$> ps) →
  propagateInheritTagDownwards fuel tag sid (childIndex ps) ps = Ok ps' →
  ∃ js, NoDup js ∧ (length js ≤ length ps)%nat ∧
        (∀ j, j ∈ js ↔ descendant ps sid j) ∧
        ps' = foldl (addTag (downCopy tag)) ps js.
Proof.
  intros Hids. rewrite propagateInheritTagDownwards_targets. intros H.
  apply bind_Ok in H as (js & Hjs & [= <-]). exists js.
  apply downTargets_visit in Hjs.
  assert (∀ j, j ∈ js ↔ descendant ps sid j) as Hdesc.
  { intros j. by rewrite descendant_reaches, (downVisit_reaches ps _ _ j Hjs). }
  assert (NoDup js) as Hnd.
  { apply (downVisit_NoDup ps _ _ Hids Hjs sid); [apply childIndex_NoDup|].
    intros c. apply childIndex_elem. }
  repeat split; try done; try apply Hdesc.
  apply NoDup_bounded_length; [done|]. intros j Hj%Hdesc.
  destruct (descendant_position _ _ _ Hj) as [p Hp]. by eapply lookup_lt_Some.
Qed.

Lemma downward_walk_bounded_witness :
  ∃ js, NoDup js ∧ (length js ≤ length tableFamily)%nat ∧
        (∀ j, j ∈ js ↔ descendant tableFamily 1 j) ∧
        tableOf (propagateInheritTagDownwards 9 (statementTag "SELECT 2") 1
                   (childIndex tableFamily) tableFamily)
        = foldl (addTag (downCopy (statementTag "SELECT 2"))) tableFamily js.
Proof.
  apply (downward_walk_bounded 9).
  - apply (bool_decide_unpack _). by vm_compute.
  - by vm_compute.
Defined.

(** ** The two indexes describe one tree *)



Lemma upChain_elem_parent (ps : table) (pid : Z) (js : list nat) (j : nat) :
  upChain (spanIndex ps) ps pid js → j ∈ js →
  ∃ a, spanIndex ps !! a = Some j ∧ (a = pid ∨ ∃ q, q ∈ ps ∧ ParentSpanID q = a).
Proof.
  induction 1 as [pid Hpid|pid k p js Hk Hp _ IH]; [by intros ?%elem_of_nil|].
  intros [->|Hj]%elem_of_cons.
  - exists pid. split; [done | by left].
  - destruct (IH Hj) as (a & Ha & [->|Hq]).
    + exists (ParentSpanID p). split; [done|]. right. exists p.
      split; [by eapply list_elem_of_lookup_2|done].
    + exists a. by split; [|right].
Qed.

Lemma reaches_parent (ps : table) (sid : Z) (j : nat) :
  descendant ps sid j →
  ∃ a, isChildOf ps a j ∧ (a = sid ∨ ∃ q, q ∈ ps ∧ SpanID q = a).
Proof.
  destruct 1 as [j Hj|k q j _ Hq Hj].
  - exists sid. by split; [|left].
  - exists (SpanID q). split; [done|]. right. exists q.
    split; [by eapply list_elem_of_lookup_2|done].
Qed.

(** X9: the ends of the tree. In the output, a span whose id is the parent
    id of no span holds no tag copied from a child, and a span whose parent
    id is the id of no span holds no inherited tag. *)
Theorem leaves_and_roots_receive_nothing (order : rangeOrder) (fuel : nat)
    (snap : tracing.SpansSnapshot) (out : ProcessedSnapshot) :
  validRange order →
  ProcessSnapshot order fuel snap = Ok out →
  Forall (fun p =>
            ((∀ q, q ∈ Spans out → ParentSpanID q ≠ SpanID p) →
             Forall (fun t => CopiedFromChild t = false) (Tags p)) ∧
            ((∀ q, q ∈ Spans out → SpanID q ≠ ParentSpanID p) →
             Forall (fun t => Inherited t = false) (Tags p)))
         (Spans out).
Proof.
  intros Hv H.
  destruct (ProcessSnapshot_tags _ _ _ _ Hv H)
    as (init & ups & downs & Hi & Hups & Hdowns & Htags).
  destruct (ProcessSnapshot_Ok _ _ _ _ Hv H)
    as (init' & ups' & downs' & Hi' & Hups' & Hdowns' & Hout & _).
  assert (init' = init) as -> by congruence.
  assert (ups' = ups) as -> by congruence.
  assert (downs' = downs) as -> by congruence.
  assert (∀ q0, q0 ∈ init → ∃ q, q ∈ Spans out ∧ identity q = identity q0) as Hsame.
  { intros q0 [i Hq0]%list_elem_of_lookup.
    exists (appendTags (receivedAll upEligible upCopy init ups i
                        ++ receivedAll downEligible downCopy init downs i) q0).
    split; [|done]. apply (list_elem_of_lookup_2 _ i).
    by rewrite Hout, extend_lookup, Hq0. }
  apply Forall_forall. intros p [j Hp]%list_elem_of_lookup.
  destruct (Htags j p Hp) as (p0 & Hp0 & Hid & Heq).
  assert (SpanID p = SpanID p0 ∧ ParentSpanID p = ParentSpanID p0) as [HidS HidP].
  { unfold identity in Hid. by injection Hid as _ _ -> -> _ _. }
  pose proof (enrich_originals _ _ _ _ _ Hi Hp0) as Horig. rewrite Forall_forall in Horig.
  split.
  - intros Hleaf. apply Forall_forall. intros t Ht. rewrite Heq in Ht.
    apply elem_of_app in Ht as [Ht|Ht]; [by destruct (Horig t Ht)|].
    apply elem_of_app in Ht as [Ht|Ht].
    + exfalso.
      apply receivedAll_elem in Ht as (i & S & js & T & HS & Hw & HT & He & Hj & _).
      apply mapM_Ok_Forall2 in Hups.
      destruct (Forall2_lookup_l _ _ _ _ _ Hups HS) as (js' & Hw' & Hwalk).
      assert (js' = js) as -> by congruence.
      apply walkFor_Ok in Hwalk as [[_ ->]|[_ Hwalk]]; [by apply elem_of_nil in Hj|].
      apply upTargets_chain in Hwalk.
      destruct (upChain_elem_parent _ _ _ _ Hwalk Hj) as (a & Ha & Hpar).
      apply spanIndex_lookup in Ha as [(p0' & Hp0' & Ha) _].
      assert (p0' = p0) as -> by congruence.
      assert (∃ q0, q0 ∈ init ∧ ParentSpanID q0 = a) as (q0 & Hq0 & Hq0a).
      { destruct Hpar as [->|Hpar]; [|done].
        exists S. split; [by eapply list_elem_of_lookup_2|done]. }
      destruct (Hsame q0 Hq0) as (q & Hq & Hqid).
      apply (Hleaf q Hq). unfold identity in Hqid.
      injection Hqid as _ _ _ -> _ _. congruence.
    + apply receivedAll_elem in Ht as (i & S & js & T & HS & _ & HT & _ & _ & ->).
      simpl. apply list_elem_of_lookup_2 in HS.
      destruct (enrich_tag_origin (tagOrder order) snap init _ T (proj1 Hv) Hi HS HT)
        as (s & k & v & _ & _ & HT').
      by apply processTag_fields in HT' as (_ & _ & _ & _ & _ & _ & ?).
  - intros Hroot. apply Forall_forall. intros t Ht. rewrite Heq in Ht.
    apply elem_of_app in Ht as [Ht|Ht]; [by destruct (Horig t Ht)|].
    apply elem_of_app in Ht as [Ht|Ht].
    + apply receivedAll_elem in Ht as (i & S & js & T & HS & _ & HT & _ & _ & ->).
      simpl. apply list_elem_of_lookup_2 in HS.
      destruct (enrich_tag_origin (tagOrder order) snap init _ T (proj1 Hv) Hi HS HT)
        as (s & k & v & _ & _ & HT').
      by apply processTag_fields in HT' as (_ & _ & _ & _ & _ & ? & _).
    + exfalso.
      apply receivedAll_elem in Ht as (i & S & js & T & HS & Hw & HT & He & Hj & _).
      apply mapM_Ok_Forall2 in Hdowns.
      destruct (Forall2_lookup_l _ _ _ _ _ Hdowns HS) as (js' & Hw' & Hwalk).
      assert (js' = js) as -> by congruence.
      apply walkFor_Ok in Hwalk as [[_ ->]|[_ Hwalk]]; [by apply elem_of_nil in Hj|].
      apply downTargets_visit in Hwalk.
      apply (downVisit_reaches init _ _ j Hwalk), descendant_reaches in Hj.
      destruct (reaches_parent _ _ _ Hj) as (a & Ha & Hpar).
      unfold isChildOf in Ha. rewrite Hp0 in Ha. injection Ha as Ha.
      assert (∃ q0, q0 ∈ init ∧ SpanID q0 = a) as (q0 & Hq0 & Hq0a).
      { destruct Hpar as [->|Hpar]; [|done].
        exists S. split; [by eapply list_elem_of_lookup_2|done]. }
      destruct (Hsame q0 Hq0) as (q & Hq & Hqid).
      apply (Hroot q Hq). unfold identity in Hqid.
      injection Hqid as _ _ -> _ _ _. congruence.
Qed.

Lemma leaves_and_roots_receive_nothing_witness :
  Forall (fun p =>
            ((∀ q, q ∈ Spans outFamily → ParentSpanID q ≠ SpanID p) →
             Forall (fun t => CopiedFromChild t = false) (Tags p)) ∧
            ((∀ q, q ∈ Spans outFamily → SpanID q ≠ ParentSpanID p) →
             Forall (fun t => Inherited t = false) (Tags p)))
         (Spans outFamily).
Proof.
  exact (leaves_and_roots_receive_nothing keysInOrder 4 snapFamily outFamily
           keysInOrder_valid snapFamily_Ok).
Defined.

(** ** A walk spares the span it starts from *)

Lemma hits_not_elem (tag : ProcessedTag) (js : list nat) (j : nat) :
  j ∉ js → hits tag js j = [].
Proof.
  intros Hj. apply nil_no_elem. intros t Ht. apply hits_elem in Ht as [_ Ht]. done.
Qed.

Lemma addTags_untouched (tag : ProcessedTag) (js : list nat) (ps : table) (i : nat) :
  i ∉ js → foldl (addTag tag) ps js !! i = ps !! i.
Proof.
  intros Hi. rewrite addTags_extend, extend_lookup, hits_not_elem by done.
  destruct (ps !! i) as [p|]; [|done]. simpl. by rewrite appendTags_nil.
Qed.

Lemma upChain_not_self (spans : gmap Z nat) (ps : table) (i : nat) (S : processedSpan)
    (js : list nat) :
  ps !! i = Some S → upChain spans ps (ParentSpanID S) js → i ∉ js.
Proof.
  intros HS Hc Hin. apply list_elem_of_split in Hin as (l1 & l2 & ->).
  destruct (upChain_suffix _ _ _ _ _ _ Hc) as (p & Hp & Hc').
  assert (p = S) as -> by congruence.
  pose proof (upChain_det _ _ _ _ _ Hc Hc') as Heq.
  apply (f_equal length) in Heq. rewrite length_app in Heq. simpl in Heq. lia.
Qed.

(** X10: a propagation that returns has not written to the span it was
    called on: neither [propagateTagUpwards] nor
    [propagateInheritTagDownwards] hands a span a copy of its own tag. *)
Theorem propagation_spares_its_source (fuel : nat) (tag : ProcessedTag) (ps : table)
    (i : nat) (S : processedSpan) :
  ps !! i = Some S →
  (∀ spans ps', propagateTagUpwards fuel tag S spans ps = Ok ps' → ps' !! i = Some S) ∧
  (∀ ps', propagateInheritTagDownwards fuel tag (SpanID S) (childIndex ps) ps = Ok ps' →
          ps' !! i = Some S).
Proof.
  intros HS. split.
  - intros spans ps'. unfold propagateTagUpwards. rewrite walkUp_targets. intros H.
    apply bind_Ok in H as (js & Hjs & [= <-]). apply upTargets_chain in Hjs.
    rewrite addTags_untouched; [done|]. by eapply upChain_not_self.
  - intros ps'. rewrite propagateInheritTagDownwards_targets. intros H.
    apply bind_Ok in H as (js & Hjs & [= <-]). apply downTargets_visit in Hjs.
    rewrite addTags_untouched; [done|]. by eapply downVisit_not_self.
Qed.

Lemma propagation_spares_its_source_witness :
  (∀ spans ps',
     propagateTagUpwards 9 (statementTag "SELECT 2") spanRoot spans tableFamily = Ok ps' →
     ps' !! 0%nat = Some spanRoot) ∧
  (∀ ps',
     propagateInheritTagDownwards 9 (statementTag "SELECT 2") (SpanID spanRoot)
       (childIndex tableFamily) tableFamily = Ok ps' →
     ps' !! 0%nat = Some spanRoot).
Proof.
  apply (propagation_spares_its_source 9 (statementTag "SELECT 2") tableFamily 0 spanRoot).
  by vm_compute.
Defined.

(** ** Walks that meet a cycle *)

Lemma stepsUp_position (ps : table) (a b : Z) :
  stepsUp (parentLinks ps) a b →
  ∃ j p, ps !! j = Some p ∧ SpanID p = a ∧ ParentSpanID p = b.
Proof.
  unfold stepsUp, parentLinks. intros (p & [= -> ->] & Hp)%list_elem_of_fmap.
  apply list_elem_of_lookup in Hp as [j Hj]. by exists j, p.
Qed.

Lemma stepsUp_functional (ps : table) (a b b' : Z) :
  NoDup (SpanID <$> ps) →
  stepsUp (parentLinks ps) a b → stepsUp (parentLinks ps) a b' → b = b'.
Proof.
  intros Hids (j & p & Hp & Ha & Hb)%stepsUp_position
         (j' & p' & Hp' & Ha' & Hb')%stepsUp_position.
  assert (j = j') as -> by (eapply unique_id_position; eauto; congruence).
  congruence.
Qed.

Lemma tc_first {A : Type} (R : relation A) (x z : A) :
  tc R x z → ∃ y, R x y ∧ rtc R y z.
Proof.
  destruct 1 as [x z Hxz|x y z Hxy Hyz].
  - exists z. by split.
  - exists y. split; [done|]. by apply tc_rtc.
Qed.

Lemma tc_snoc {A : Type} (R : relation A) (x y z : A) : rtc R x y → R y z → tc R x z.
Proof.
  intros Hxy Hyz. eapply tc_rtc_l; [done|]. by apply tc_once.
Qed.

Lemma leadsToCycle_step (ps : table) (a b : Z) :
  NoDup (SpanID <$> ps) →
  leadsToCycle (stepsUp (parentLinks ps)) a → stepsUp (parentLinks ps) a b →
  leadsToCycle (stepsUp (parentLinks ps)) b.
Proof.
  intros Hids (c & Hac & Hc) Hab.
  apply rtc_inv in Hac as [->|(b' & Hab' & Hbc)].
  - destruct (tc_first _ _ _ Hc) as (b' & Hab' & Hba).
    assert (b' = b) as -> by by eapply stepsUp_functional.
    exists b. split; [done|]. by eapply tc_snoc.
  - assert (b' = b) as -> by by eapply stepsUp_functional.
    by exists c.
Qed.

Lemma leadsToCycle_has_span (ps : table) (a : Z) :
  leadsToCycle (stepsUp (parentLinks ps)) a → ∃ b, stepsUp (parentLinks ps) a b.
Proof.
  intros (c & Hac & Hc). apply rtc_inv in Hac as [->|(b & Hab & _)]; [|by exists b].
  destruct (tc_first _ _ _ Hc) as (b & Hab & _). by exists b.
Qed.

Lemma upTargets_leadsToCycle (ps : table) (fuel : nat) (a : Z) :
  NoDup (SpanID <$> ps) →
  leadsToCycle (stepsUp (parentLinks ps)) a →
  upTargets fuel (spanIndex ps) ps a = OutOfFuel.
Proof.
  intros Hids. revert a. induction fuel as [|fuel IH]; intros a Ha; simpl; [done|].
  destruct (spanIndex ps !! a) as [j|] eqn:Ej.
  - apply spanIndex_lookup in Ej as [(p & Hp & Hid) _]. rewrite Hp.
    rewrite IH; [done|]. apply (leadsToCycle_step ps a); [done..|].
    rewrite <- Hid. by eapply parentLinks_lookup.
  - exfalso. destruct (leadsToCycle_has_span ps a Ha) as (b & Hab).
    apply stepsUp_position in Hab as (j & p & Hp & Hid & _).
    rewrite spanIndex_lookup_None in Ej. apply (Ej p); [|done].
    by eapply list_elem_of_lookup_2.
Qed.

(** In the other direction: from [a], following children leads to a cycle. *)
Lemma leadsDown_child (R : relation Z) (a : Z) :
  leadsToCycle (flip R) a → ∃ x, R x a ∧ leadsToCycle (flip R) x.
Proof.
  intros (c & Hac & Hc). apply rtc_inv in Hac as [->|(x & Hax & Hxc)].
  - destruct (tc_first _ _ _ Hc) as (x & Hax & Hxa).
    exists x. split; [done|]. exists x. split; [done|]. by eapply tc_snoc.
  - exists x. split; [done|]. by exists c.
Qed.

Lemma foldM_OutOfFuel {A B : Type} (f : B → A → result B) (l : list A) (b : B) :
  (∀ b x, x ∈ l → f b x ≠ Panic) →
  (∃ x, x ∈ l ∧ ∀ b, f b x = OutOfFuel) →
  foldM f b l = OutOfFuel.
Proof.
  revert b. induction l as [|y l IH]; intros b Hf (x & Hx & Hfx).
  - by apply elem_of_nil in Hx.
  - simpl. destruct (f b y) as [b'| |] eqn:E; simpl.
    + apply IH; [intros b'' z Hz; by apply Hf, list_elem_of_further|].
      apply elem_of_cons in Hx as [->|Hx]; [|by exists x].
      rewrite Hfx in E. done.
    + exfalso. by apply (Hf b y); [apply list_elem_of_here|].
    + done.
Qed.

Lemma downTargets_leadsToCycle (ps : table) (fuel : nat) (a : Z) :
  leadsToCycle (flip (stepsUp (parentLinks ps))) a →
  downTargets fuel (childIndex ps) ps a = OutOfFuel.
Proof.
  revert a. induction fuel as [|fuel IH]; intros a Ha; simpl; [done|].
  apply foldM_OutOfFuel.
  - intros acc c Hc. apply childIndex_elem in Hc. unfold isChildOf in Hc.
    destruct (ps !! c) as [p|]; [|done].
    pose proof (downTargets_no_Panic fuel ps (SpanID p)).
    by destruct (downTargets fuel (childIndex ps) ps (SpanID p)).
  - destruct (leadsDown_child _ a Ha) as (x & Hxa & Hx).
    apply stepsUp_position in Hxa as (j & p & Hp & Hid & Hpar).
    exists j. split.
    + apply childIndex_elem. unfold isChildOf. by rewrite Hp, <- Hpar.
    + intros acc. rewrite Hp, Hid, IH by done. done.
Qed.

(** X11: no guard stops the upward walk on a cycle. On a table whose span
    ids are unique, a call of [propagateTagUpwards] on a span from whose
    parent id the parent ids lead to a cycle does not return. *)
Theorem upward_walk_into_cycle_never_returns (ps : table) (tag : ProcessedTag)
    (S : processedSpan) (fuel : nat) :
  NoDup (SpanID <$> ps) →
  leadsToCycle (stepsUp (parentLinks ps)) (ParentSpanID S) →
  propagateTagUpwards fuel tag S (spanIndex ps) ps = OutOfFuel.
Proof.
  intros Hids Hc. unfold propagateTagUpwards.
  by rewrite walkUp_targets, upTargets_leadsToCycle.
Qed.

Lemma upward_walk_into_cycle_never_returns_witness :
  propagateTagUpwards 1000 (statementTag "SELECT 4") spanCycleHead
    (spanIndex tableTwoCycle) tableTwoCycle = OutOfFuel.
Proof.
  apply upward_walk_into_cycle_never_returns.
  - apply (bool_decide_unpack _). by vm_compute.
  - exists 2. split; [done|].
    apply (tc_l _ 2 1 2); [|apply tc_once]; unfold stepsUp; vm_compute;
      [by right; left | by left].
Defined.

(** X12: nor the downward one. A call of [propagateInheritTagDownwards] on a
    span id below which, child by child, a cycle is met does not return,
    whether the span ids are unique or not. *)
Theorem downward_walk_into_cycle_never_returns (ps : table) (tag : ProcessedTag)
    (sid : Z) (fuel : nat) :
  leadsToCycle (flip (stepsUp (parentLinks ps))) sid →
  propagateInheritTagDownwards fuel tag sid (childIndex ps) ps = OutOfFuel.
Proof.
  intros Hc.
  by rewrite propagateInheritTagDownwards_targets, downTargets_leadsToCycle.
Qed.

Lemma downward_walk_into_cycle_never_returns_witness :
  propagateInheritTagDownwards 1000 (statementTag "SELECT 4") 2
    (childIndex tableTwoCycle) tableTwoCycle = OutOfFuel.
Proof.
  apply downward_walk_into_cycle_never_returns.
  exists 2. split; [done|].
  apply (tc_l _ 2 1 2); [|apply tc_once]; unfold flip, stepsUp; vm_compute;
    [by left | by right; left].
Defined.

Lemma mapM_OutOfFuel {A B : Type} (f : A → result B) (l : list A) :
  (∀ x, x ∈ l → f x ≠ Panic) →
  (∃ x, x ∈ l ∧ f x = OutOfFuel) →
  mapM f l = OutOfFuel.
Proof.
  induction l as [|y l IH]; intros Hf (x & Hx & Hfx).
  - by apply elem_of_nil in Hx.
  - simpl. destruct (f y) as [b| |] eqn:E; simpl.
    + rewrite IH; [done| |].
      * intros z Hz. by apply Hf, list_elem_of_further.
      * apply elem_of_cons in Hx as [->|Hx]; [congruence | by exists x].
    + exfalso. by apply (Hf y); [apply list_elem_of_here|].
    + done.
Qed.

Lemma processSpan_has_tag (r : gmap string string → list string)
    (s : tracingpb.RecordedSpan) (snap : tracing.SpansSnapshot) (p : processedSpan)
    (k v : string) :
  (∀ m, r m ≡ₚ (map_to_list m).*1) →
  processSpan r s snap = Ok p → tracingpb.Tags s !! k = Some v →
  ∃ T, T ∈ Tags p ∧ processTag k v snap = Ok T.
Proof.
  intros Hr H Hkv. apply processSpan_Ok in H as [_ H]. apply mapM_Ok_Forall2 in H.
  assert (k ∈ sortStrings (r (tracingpb.Tags s))) as [i Hi]%list_elem_of_lookup.
  { apply sorted_keys_elem; [done|]. by eexists. }
  destruct (Forall2_lookup_l _ _ _ _ _ H Hi) as (T & HT & HkT).
  exists T. split; [by eapply list_elem_of_lookup_2|].
  unfold map_get in HkT. by rewrite Hkv in HkT.
Qed.

(** X13: a propagated tag next to a cycle. When the enrichment returns,
    [ProcessSnapshot] does not return if a span with a [statement] or a
    [lock_holder_txn] tag has a cycle among its ancestors, the span ids being
    unique, or if a span with a [statement] tag has a cycle among its
    descendants. *)
Theorem propagated_tag_near_cycle_never_returns (order : rangeOrder)
    (snap : tracing.SpansSnapshot) (init : table) (s : tracingpb.RecordedSpan)
    (fuel : nat) :
  validRange order →
  enrich (tagOrder order) snap = Ok init →
  s ∈ concat (tracing.Traces snap) →
  ((is_Some (tracingpb.Tags s !! "statement") ∨
    is_Some (tracingpb.Tags s !! "lock_holder_txn")) ∧
   NoDup (tracingpb.SpanID <$> concat (tracing.Traces snap)) ∧
   leadsToCycle (stepsUp (snapshotLinks snap)) (tracingpb.ParentSpanID s)) ∨
  (is_Some (tracingpb.Tags s !! "statement") ∧
   leadsToCycle (flip (stepsUp (snapshotLinks snap))) (tracingpb.SpanID s)) →
  ProcessSnapshot order fuel snap = OutOfFuel.
Proof.
  intros Hv Hi [i Hs]%list_elem_of_lookup Hcycle.
  rewrite ProcessSnapshot_eq, Hi by done. simpl.
  rewrite <- (enrich_parentLinks _ _ _ Hi), <- (enrich_SpanIDs _ _ _ Hi) in Hcycle.
  pose proof (enrich_Ok _ _ _ Hi) as Hall.
  destruct (Forall2_lookup_l _ _ _ _ _ Hall Hs) as (S & HS & i0 & HsS).
  pose proof (fun k v => processSpan_has_tag _ s snap S k v (proj1 Hv i0) HsS) as Htag.
  apply processSpan_Ok in HsS as [(_ & _ & Hid & Hpid & _) _].
  apply list_elem_of_lookup_2 in HS.
  destruct Hcycle as [(Hk & Hids & Hc)|([v Hst] & Hc)].
  - assert (∃ k v, (k = "lock_holder_txn" ∨ k = "statement") ∧
                   tracingpb.Tags s !! k = Some v) as (k & v & Hk' & Hkv).
    { destruct Hk as [[v Hkv]|[v Hkv]]; [exists "statement", v|exists "lock_holder_txn", v];
        (split; [|done]); [by right | by left]. }
    destruct (Htag k v Hkv) as (T & HT & HkT).
    apply processTag_fields in HkT as (_ & _ & _ & Hup & _ & _ & Hc0).
    assert (triggers upEligible (Tags S) ≠ []) as Htu.
    { intros E. assert (T ∈ triggers upEligible (Tags S)) as HTin.
      { apply triggers_elem. split; [|done]. unfold upEligible.
        rewrite Hc0. apply andb_true_intro. split; [by apply Hup|done]. }
      rewrite E in HTin. by apply elem_of_nil in HTin. }
    rewrite (mapM_OutOfFuel (walkFor upEligible (upWalk fuel (spanIndex init)) init));
      [done| |].
    + intros S' _. unfold walkFor. destruct (decide _); [done|].
      apply upTargets_no_Panic.
    + exists S. split; [done|]. rewrite (walkFor_trigger upEligible _ _ S Htu).
      unfold upWalk. apply upTargets_leadsToCycle; [done|]. by rewrite Hpid.
  - destruct (Htag "statement" v Hst) as (T & HT & HkT).
    apply processTag_fields in HkT as (_ & _ & _ & _ & Hinh & Hi0 & _).
    assert (triggers downEligible (Tags S) ≠ []) as Htd.
    { intros E. assert (T ∈ triggers downEligible (Tags S)) as HTin.
      { apply triggers_elem. split; [|done]. unfold downEligible.
        rewrite Hi0. apply andb_true_intro. split; [by apply Hinh|done]. }
      rewrite E in HTin. by apply elem_of_nil in HTin. }
    destruct (walks_no_Panic fuel init) as [Hup_ok _].
    destruct (mapM (walkFor upEligible _ init) init) as [ups| |]; simpl; [|done..].
    rewrite (mapM_OutOfFuel (walkFor downEligible (downWalk fuel (childIndex init)) init));
      [done| |].
    + intros S' _. unfold walkFor. destruct (decide _); [done|].
      apply downTargets_no_Panic.
    + exists S. split; [done|]. rewrite (walkFor_trigger downEligible _ _ S Htd).
      unfold downWalk. apply downTargets_leadsToCycle. by rewrite Hid.
Qed.

Lemma propagated_tag_near_cycle_never_returns_witness :
  ProcessSnapshot keysInOrder 1000 snapTwoCycle = OutOfFuel.
Proof.
  apply (propagated_tag_near_cycle_never_returns keysInOrder snapTwoCycle tableTwoCycle
           (mkSpan 1 2 7 "sql query" [("statement", "SELECT 4")]) 1000
           keysInOrder_valid twoCycle_enrich).
  - apply list_elem_of_here.
  - right. split; [exists "SELECT 4"; by vm_compute|]. exists 1. split; [done|].
    apply (tc_l _ 1 2 1); [|apply tc_once]; unfold flip, stepsUp; vm_compute;
      [by right; left | by left].
Defined.

(** ** The key of a stack *)

(** X14: the conversion [int(s.GoroutineID)] that keys the stacks leaves an
    id below [2^63] as it is, takes an id from [2^63] on to the negative
    number [id - 2^64], and never takes two goroutine ids to one key. *)
Theorem stack_key_of_goroutine (x y : Z) :
  0 ≤ x < 2 ^ 64 → 0 ≤ y < 2 ^ 64 →
  (x < 2 ^ 63 → int_of_uint64 x = x) ∧
  (2 ^ 63 ≤ x → int_of_uint64 x = x - 2 ^ 64) ∧
  (int_of_uint64 x = int_of_uint64 y → x = y).
Proof.
  intros Hx Hy.
  assert (∀ z, 0 ≤ z < 2 ^ 64 →
            int_of_uint64 z = if decide (z < 2 ^ 63) then z else z - 2 ^ 64) as Hint.
  { intros z Hz. unfold int_of_uint64. destruct (decide (z < 2 ^ 63)) as [Hlt|Hge].
    - rewrite Z.mod_small by lia. lia.
    - replace (z + 2 ^ 63) with (z - 2 ^ 63 + 1 * 2 ^ 64) by lia.
      rewrite Z.mod_add by lia. rewrite Z.mod_small by lia. lia. }
  rewrite (Hint x Hx), (Hint y Hy).
  repeat split.
  - intros Hlt. by rewrite decide_True.
  - intros Hge. rewrite decide_False; [done|lia].
  - destruct (decide (x < 2 ^ 63)), (decide (y < 2 ^ 63)); lia.
Qed.

Lemma stack_key_of_goroutine_witness :
  (2 ^ 64 - 1 < 2 ^ 63 → int_of_uint64 (2 ^ 64 - 1) = 2 ^ 64 - 1) ∧
  (2 ^ 63 ≤ 2 ^ 64 - 1 → int_of_uint64 (2 ^ 64 - 1) = 2 ^ 64 - 1 - 2 ^ 64) ∧
  (int_of_uint64 (2 ^ 64 - 1) = int_of_uint64 7 → 2 ^ 64 - 1 = 7).
Proof.
  apply (stack_key_of_goroutine (2 ^ 64 - 1) 7); lia.
Defined.

(** ** The table and its two indexes *)

(** X15: the loop that fills the table and the two maps. When it returns,
    the table holds one span for each recorded span; [spansMap] holds under
    an id the last span of the table with that id, and nothing under an id
    that no span has; and [childrenMap] holds under an id the spans with that
    parent id, each once and in the order of the table. *)
Theorem index_loop_builds_the_indexes (r : nat → gmap string string → list string)
    (snap : tracing.SpansSnapshot) (spans : list tracingpb.RecordedSpan)
    (ps : table) (sm : gmap Z nat) (cm : gmap Z (list nat)) :
  foldM (indexSpan r snap) ([], ∅, ∅) spans = Ok (ps, sm, cm) →
  length ps = length spans ∧
  (∀ id j, sm !! id = Some j
           ↔ (∃ p, ps !! j = Some p ∧ SpanID p = id) ∧
             (∀ k p, ps !! k = Some p → SpanID p = id → (k ≤ j)%nat)) ∧
  (∀ id, sm !! id = None ↔ ∀ p, p ∈ ps → SpanID p ≠ id) ∧
  (∀ id, childrenOf cm id = filter (isChildOf ps id) (seq 0 (length ps))).
Proof.
  intros H. pose proof (index_fold r snap spans []) as Hfold.
  change (spanIndex []) with (∅ : gmap Z nat) in Hfold.
  change (childIndex []) with (∅ : gmap Z (list nat)) in Hfold.
  rewrite Hfold in H. apply bind_Ok in H as (new & Hnew & [= <- <- <-]).
  apply mapM_Ok_Forall2, Forall2_length in Hnew. rewrite length_imap in Hnew. simpl.
  split; [done|]. split; [apply spanIndex_lookup|].
  split; [apply spanIndex_lookup_None | apply childIndex_children].
Qed.

Lemma index_loop_builds_the_indexes_witness :
  length tableFamily = length (concat (tracing.Traces snapFamily)) ∧
  (∀ id j, spanIndex tableFamily !! id = Some j
           ↔ (∃ p, tableFamily !! j = Some p ∧ SpanID p = id) ∧
             (∀ k p, tableFamily !! k = Some p → SpanID p = id → (k ≤ j)%nat)) ∧
  (∀ id, spanIndex tableFamily !! id = None ↔ ∀ p, p ∈ tableFamily → SpanID p ≠ id) ∧
  (∀ id, childrenOf (childIndex tableFamily) id
         = filter (isChildOf tableFamily id) (seq 0 (length tableFamily))).
Proof.
  apply (index_loop_builds_the_indexes (tagOrder keysInOrder) snapFamily).
  by vm_compute.
Defined.

(** ** [findTxnState] on its own *)

Lemma findTxnInTrace_None_get (t : string) (whole tr : list tracingpb.RecordedSpan) :
  findTxnInTrace t whole tr = None
  ↔ ∀ s, s ∈ tr →
         ¬ (tracingpb.Operation s = "sql txn" ∧ map_get (tracingpb.Tags s) "txn" = t).
Proof.
  induction tr as [|s tr IH]; simpl.
  - split; [intros _ s Hs; by apply elem_of_nil in Hs | done].
  - destruct (String.eqb_spec (tracingpb.Operation s) "sql txn") as [Eo|Eo];
      destruct (String.eqb_spec (map_get (tracingpb.Tags s) "txn") t) as [Et|Et]; simpl.
    + split; [done|]. intros H. exfalso. apply (H s); [apply list_elem_of_here|done].
    + rewrite IH. split.
      * intros H s' [->|Hs']%elem_of_cons; [by intros [_ ?] | by apply H].
      * intros H s' Hs'. by apply H, list_elem_of_further.
    + rewrite IH. split.
      * intros H s' [->|Hs']%elem_of_cons; [by intros [? _] | by apply H].
      * intros H s' Hs'. by apply H, list_elem_of_further.
    + rewrite IH. split.
      * intros H s' [->|Hs']%elem_of_cons; [by intros [? _] | by apply H].
      * intros H s' Hs'. by apply H, list_elem_of_further.
Qed.

Lemma findTxnInTrace_Some_get (t : string) (whole tr : list tracingpb.RecordedSpan)
    (st : txnState) :
  findTxnInTrace t whole tr = Some st →
  ∃ s, s ∈ tr ∧ tracingpb.Operation s = "sql txn" ∧ map_get (tracingpb.Tags s) "txn" = t.
Proof.
  intros H. destruct (decide (Exists (fun s => tracingpb.Operation s = "sql txn" ∧
                                      map_get (tracingpb.Tags s) "txn" = t) tr))
    as [Hex|Hno].
  - apply Exists_exists in Hex as (s & Hs & Ho). by exists s.
  - assert (findTxnInTrace t whole tr = None); [|congruence].
    apply findTxnInTrace_None_get. intros s Hs Hst. apply Hno, Exists_exists. by exists s.
Qed.

Lemma findQuery_statement (tr : list tracingpb.RecordedSpan) :
  curQuery (findQuery tr) ≠ "" →
  ∃ q, q ∈ tr ∧ tracingpb.Operation q = "sql query" ∧
       tracingpb.Tags q !! "statement" = Some (curQuery (findQuery tr)).
Proof.
  induction tr as [|s tr IH]; simpl; [done|].
  destruct (String.eqb_spec (tracingpb.Operation s) "sql query") as [E|E]; simpl.
  - intros Hne. exists s. split; [apply list_elem_of_here|]. split; [done|].
    unfold map_get in *. by destruct (tracingpb.Tags s !! "statement").
  - intros Hne. destruct (IH Hne) as (q & Hq & Hop & Hst). exists q.
    split; [by apply list_elem_of_further|done].
Qed.

(** X16: what [findTxnState] reports is in the snapshot. It reports [found]
    exactly when some span has the operation "sql txn" and a txn tag that
    reads as the id, where a missing tag reads as the empty string; and a
    query that it reports is the statement tag of a "sql query" span of a
    trace that holds such a transaction span. *)
Theorem findTxnState_reports_what_is_there (txnID : string)
    (snap : tracing.SpansSnapshot) :
  (found (findTxnState txnID snap) = true
   ↔ ∃ tr s, tr ∈ tracing.Traces snap ∧ s ∈ tr ∧
             tracingpb.Operation s = "sql txn" ∧
             map_get (tracingpb.Tags s) "txn" = txnID) ∧
  (curQuery (findTxnState txnID snap) ≠ "" →
   ∃ tr s q, tr ∈ tracing.Traces snap ∧ s ∈ tr ∧ q ∈ tr ∧
             tracingpb.Operation s = "sql txn" ∧
             map_get (tracingpb.Tags s) "txn" = txnID ∧
             tracingpb.Operation q = "sql query" ∧
             tracingpb.Tags q !! "statement" = Some (curQuery (findTxnState txnID snap))).
Proof.
  unfold findTxnState. generalize (tracing.Traces snap). intros traces.
  induction traces as [|tr traces [IH1 IH2]]; simpl.
  - split; [|done]. split; [done|]. by intros (tr & s & ?%elem_of_nil & _).
  - destruct (findTxnInTrace txnID tr tr) as [st|] eqn:E.
    + pose proof (findTxnInTrace_Some_get _ _ _ _ E) as (s & Hs & Hop & Htxn).
      apply findTxnInTrace_Some in E as ->. split.
      * rewrite findQuery_found. split; [|done]. intros _. exists tr, s.
        split; [apply list_elem_of_here|done].
      * intros Hne. destruct (findQuery_statement tr Hne) as (q & Hq & Hqo & Hqs).
        exists tr, s, q. split; [apply list_elem_of_here|done].
    + rewrite findTxnInTrace_None_get in E. split.
      * rewrite IH1. split.
        -- intros (tr' & s & Htr' & H). exists tr', s.
           split; [by apply list_elem_of_further|done].
        -- intros (tr' & s & [->|Htr']%elem_of_cons & Hs & Hop & Htxn).
           ++ by destruct (E s Hs).
           ++ by exists tr', s.
      * intros Hne. destruct (IH2 Hne) as (tr' & s & q & Htr' & H).
        exists tr', s, q. split; [by apply list_elem_of_further|done].
Qed.

(** ** Spans that share an id *)

(** X17: [spansMap] keeps one span for each id, the last one. In the output,
    a span that is followed by a span with the same id holds no tag copied
    from a child: upward copies go to the last span with the id only. *)
Theorem shadowed_span_receives_no_upward_copy (order : rangeOrder) (fuel : nat)
    (snap : tracing.SpansSnapshot) (out : ProcessedSnapshot) (j k : nat)
    (p q : processedSpan) :
  validRange order →
  ProcessSnapshot order fuel snap = Ok out →
  Spans out !! j = Some p → Spans out !! k = Some q →
  (j < k)%nat → SpanID q = SpanID p →
  Forall (fun t => CopiedFromChild t = false) (Tags p).
Proof.
  intros Hv H Hp Hq Hjk Hsame.
  destruct (ProcessSnapshot_tags _ _ _ _ Hv H)
    as (init & ups & downs & Hi & Hups & Hdowns & Htags).
  destruct (Htags j p Hp) as (p0 & Hp0 & Hid & Heq).
  destruct (Htags k q Hq) as (q0 & Hq0 & Hidq & _).
  assert (SpanID q0 = SpanID p0) as Hsame0.
  { unfold identity in Hid, Hidq. injection Hid as _ _ Hp' _ _ _.
    injection Hidq as _ _ Hq' _ _ _. congruence. }
  pose proof (enrich_originals _ _ _ _ _ Hi Hp0) as Horig. rewrite Forall_forall in Horig.
  apply Forall_forall. intros t Ht. rewrite Heq in Ht.
  apply elem_of_app in Ht as [Ht|Ht]; [by destruct (Horig t Ht)|].
  apply elem_of_app in Ht as [Ht|Ht].
  - exfalso.
    apply receivedAll_elem in Ht as (i & S & js & T & HS & Hw & HT & He & Hj & _).
    apply mapM_Ok_Forall2 in Hups.
    destruct (Forall2_lookup_l _ _ _ _ _ Hups HS) as (js' & Hw' & Hwalk).
    assert (js' = js) as -> by congruence.
    apply walkFor_Ok in Hwalk as [[_ ->]|[_ Hwalk]]; [by apply elem_of_nil in Hj|].
    apply upTargets_chain in Hwalk.
    destruct (upChain_elem_parent _ _ _ _ Hwalk Hj) as (a & Ha & _).
    apply spanIndex_lookup in Ha as [(p0' & Hp0' & Ha) Hlast].
    assert (p0' = p0) as -> by congruence.
    assert (k ≤ j)%nat; [|lia]. apply (Hlast k q0 Hq0). congruence.
  - apply receivedAll_elem in Ht as (i & S & js & T & HS & _ & HT & _ & _ & ->).
    simpl. apply list_elem_of_lookup_2 in HS.
    destruct (enrich_tag_origin (tagOrder order) snap init _ T (proj1 Hv) Hi HS HT)
      as (s & k' & v & _ & _ & HT').
    by apply processTag_fields in HT' as (_ & _ & _ & _ & _ & _ & ?).
Qed.

Lemma snapShadowed_Ok : ProcessSnapshot keysInOrder 4 snapShadowed = Ok outShadowed.
Proof. by vm_compute. Qed.

Lemma shadowed_span_receives_no_upward_copy_witness :
  Forall (fun t => CopiedFromChild t = false) (Tags spanShadowed).
Proof.
  apply (shadowed_span_receives_no_upward_copy keysInOrder 4 snapShadowed outShadowed
           0 1 spanShadowed spanShadowing keysInOrder_valid snapShadowed_Ok);
    by vm_compute.
Defined.
